(** * XadrezGame: the chess core of [chess.c]

    A shallow embedding of the move generator, the legality filter, the check
    oracle, the material evaluator and the alpha-beta search of [chess.c],
    with the properties stated about them.

    Conventions of the embedding.
    - A C [char] is an [ascii]; the ctype functions are those of the "C"
      locale (only 'A'..'Z' are upper case, only 'a'..'z' lower case).
    - A C [int] is a [Z].  Coordinates stay within a few units of [0..7] and
      scores within [-1280000 .. 1280000] (lemmas [evaluate_board_bounds],
      [minimax_bounds]), so no 32-bit operation of the program wraps.
    - [Board] is the 8x8 array [cell[rank][file]], a list of rows. *)

From Stdlib Require Import ZArith List Ascii String Bool Lia.
From stdpp Require Import base list.
Import ListNotations.

Local Open Scope char_scope.
Local Open Scope Z_scope.

(** ** Characters *)

Definition NUL : ascii := zero.

Definition code (c : ascii) : Z := Z.of_N (N_of_ascii c).

Definition isupper (c : ascii) : bool := (65 <=? code c) && (code c <=? 90).
Definition islower (c : ascii) : bool := (97 <=? code c) && (code c <=? 122).

Definition toupper (c : ascii) : ascii :=
  if islower c then ascii_of_N (Z.to_N (code c - 32)) else c.
Definition tolower (c : ascii) : ascii :=
  if isupper c then ascii_of_N (Z.to_N (code c + 32)) else c.

(** ** Board and moves *)

Definition BOARD_SIZE : Z := 8.

Abbreviation Board := (list (list ascii)).

Record Move := mkMove {
  r1 : Z; f1 : Z;          (* origin: rank, file *)
  r2 : Z; f2 : Z;          (* destination *)
  promotion : ascii        (* 'Q','R','B','N' or NUL *)
}.

Definition piece_value (p : ascii) : Z :=
  let u := toupper p in
  if Ascii.eqb u "P" then 100
  else if Ascii.eqb u "N" then 320
  else if Ascii.eqb u "B" then 330
  else if Ascii.eqb u "R" then 500
  else if Ascii.eqb u "Q" then 900
  else if Ascii.eqb u "K" then 20000
  else 0.

Definition is_white (p : ascii) : bool := negb (Ascii.eqb p NUL) && isupper p.
Definition is_black (p : ascii) : bool := negb (Ascii.eqb p NUL) && islower p.

Definition same_color (a b : ascii) : bool :=
  if Ascii.eqb a "." || Ascii.eqb b "." then false
  else (is_white a && is_white b) || (is_black a && is_black b).

Definition in_bounds (r f : Z) : bool :=
  (0 <=? r) && (r <? 8) && (0 <=? f) && (f <? 8).

(** [bd->cell[r][f]].  Outside the array the C read is undefined; the model
    answers ['.'] there.  The program only reads cells of the loops over
    [0..7], cells it has tested with [in_bounds], and the cells of moves that
    the generator produced. *)
Definition cell (bd : Board) (r f : Z) : ascii :=
  if in_bounds r f then nth (Z.to_nat f) (nth (Z.to_nat r) bd []) "."
  else ".".

(** [bd->cell[r][f] = c]. *)
Definition set_cell (bd : Board) (r f : Z) (c : ascii) : Board :=
  if in_bounds r f
  then <[Z.to_nat r := <[Z.to_nat f := c]> (nth (Z.to_nat r) bd [])]> bd
  else bd.

(** The type [char cell[8][8]]. *)
Definition wf_board (bd : Board) : Prop :=
  length bd = 8%nat /\ Forall (fun row => length row = 8%nat) bd.

Definition init_rows : list string :=
  [ "rnbqkbnr"; "pppppppp"; "........"; "........";
    "........"; "........"; "PPPPPPPP"; "RNBQKBNR" ]%string.

Definition init_board : Board := map list_ascii_of_string init_rows.

(** [memcpy] of the 64 cells: the destination becomes the source's value. *)
Definition copy_board (src : Board) : Board := src.

(** The index pairs visited by [for r in 0..7 for f in 0..7], in order. *)
Definition cells : list (Z * Z) :=
  r ← seqZ 0 8; f ← seqZ 0 8; [(r, f)].

(** ** Pseudo-legal moves of one piece

    Every store into the output array has the form
    [if (count < max_out) out[count++] = mv], and neither [count] nor [out]
    is read anywhere else.  The generator is therefore written once, over
    an abstract state [St] of the output array and an operation [emit] for
    that guarded store; it is instantiated below with the moves written
    ([generate_piece_moves]) and with an explicit array
    ([generate_piece_moves_buf]). *)

(** The offset tables [dr]/[df], the double loop of the king, and the
    direction tables of the sliding pieces. *)
Definition knight_offsets : list (Z * Z) :=
  [(-2,-1); (-2,1); (-1,-2); (-1,2); (1,-2); (1,2); (2,-1); (2,1)].

Definition king_offsets : list (Z * Z) :=
  dr ← seqZ (-1) 3; df ← seqZ (-1) 3; [(dr, df)].

Definition rook_dirs : list (Z * Z) := [(1,0); (-1,0); (0,1); (0,-1)].
Definition bishop_dirs : list (Z * Z) := [(1,1); (1,-1); (-1,1); (-1,-1)].

Section Emit.
Context {St : Type}.
Variable emit : St -> Move -> St.
Variable bd : Board.

(** One ray of a sliding piece:
    [while (in_bounds(rr,ff)) { ...; rr += dr; ff += df_; }].
    The loop leaves the board after at most 8 steps ([slide_fuel]). *)
Fixpoint slide (fuel : nat) (p : ascii) (r f dr df_ rr ff : Z) (s : St) : St :=
  match fuel with
  | O => s
  | S fuel' =>
      if in_bounds rr ff then
        if Ascii.eqb (cell bd rr ff) "." then
          slide fuel' p r f dr df_ (rr + dr) (ff + df_)
                (emit s (mkMove r f rr ff NUL))
        else if negb (same_color p (cell bd rr ff))
             then emit s (mkMove r f rr ff NUL)
             else s
      else s
  end.

(** A knight or king step to [(r+dr, f+df)]. *)
Definition step_to (p : ascii) (r f : Z) (s : St) (d : Z * Z) : St :=
  let rr := r + fst d in
  let ff := f + snd d in
  if negb (in_bounds rr ff) then s
  else if Ascii.eqb (cell bd rr ff) "." || negb (same_color p (cell bd rr ff))
       then emit s (mkMove r f rr ff NUL)
       else s.

Definition generate_piece_moves_gen
    (r f : Z) (white_turn : bool) (s : St) : St :=
  let p := cell bd r f in
  if Ascii.eqb p "." then s else
  let dir : Z := if white_turn then 1 else -1 in
  let pawn_step : Z := if is_white p then -1 else 1 in
  if Ascii.eqb (toupper p) "P" then
    let r1 := r + pawn_step in
    let s :=
      if in_bounds r1 f && Ascii.eqb (cell bd r1 f) "." then
        let s := emit s (mkMove r f r1 f NUL) in
        let start_rank : Z := if is_white p then 6 else 1 in
        let r2 := r + 2 * pawn_step in
        if (r =? start_rank) && in_bounds r2 f && Ascii.eqb (cell bd r2 f) "."
        then emit s (mkMove r f r2 f NUL)
        else s
      else s in
    fold_left
      (fun s df =>
         let rf := r + pawn_step in
         let ff := f + df in
         if in_bounds rf ff && negb (Ascii.eqb (cell bd rf ff) ".")
            && negb (same_color p (cell bd rf ff))
         then emit s (mkMove r f rf ff NUL)
         else s)
      [-1; 1] s
  else if Ascii.eqb (toupper p) "N" then
    fold_left (step_to p r f) knight_offsets s
  else if Ascii.eqb (toupper p) "K" then
    fold_left
      (fun s d => if (fst d =? 0) && (snd d =? 0) then s else step_to p r f s d)
      king_offsets s
  else
    let s :=
      if Ascii.eqb (toupper p) "R" || Ascii.eqb (toupper p) "Q" then
        fold_left
          (fun s d => slide 8 p r f (fst d) (snd d) (r + fst d) (f + snd d) s)
          rook_dirs s
      else s in
    if Ascii.eqb (toupper p) "B" || Ascii.eqb (toupper p) "Q" then
      fold_left
        (fun s d => slide 8 p r f (fst d) (snd d) (r + fst d) (f + snd d) s)
        bishop_dirs s
    else s.
End Emit.

Definition MAX_MOVES : Z := 256.

(** The guarded store [if (count < max_out) out[count++] = mv] on the list of
    the moves written so far: [out[0..count-1]], with [count] its length. *)
Definition push (max_out : Z) (out : list Move) (mv : Move) : list Move :=
  if Z.of_nat (length out) <? max_out then out ++ [mv] else out.

(** [generate_piece_moves(bd, r, f, out, max_out, white_turn)]: the moves
    [out[0..count-1]] it leaves in the array; the returned [count] is the
    length of this list. *)
Definition generate_piece_moves
    (bd : Board) (r f : Z) (max_out : Z) (white_turn : bool) : list Move :=
  generate_piece_moves_gen (push max_out) bd r f white_turn [].

(** ** Legal moves *)

(** The inner loop [for f] of the pseudo-legal phase for rank [r].  Each call
    of the piece generator receives the rest of the array, [all + alln], and
    its capacity [MAX_MOVES - alln]; the loop [break]s once the array is
    full. *)
Fixpoint pseudo_row (bd : Board) (white_turn : bool) (r : Z) (fs : list Z)
    (all : list Move) : list Move :=
  match fs with
  | [] => all
  | f :: fs' =>
      let p := cell bd r f in
      if Ascii.eqb p "." then pseudo_row bd white_turn r fs' all
      else if white_turn && negb (is_white p) then pseudo_row bd white_turn r fs' all
      else if negb white_turn && negb (is_black p) then pseudo_row bd white_turn r fs' all
      else
        let all :=
          all ++ generate_piece_moves bd r f
                   (MAX_MOVES - Z.of_nat (length all)) white_turn in
        if Z.of_nat (length all) >=? MAX_MOVES then all
        else pseudo_row bd white_turn r fs' all
  end.

(** The array [all[0..alln-1]] after the pseudo-legal phase. *)
Definition pseudo_legal (bd : Board) (white_turn : bool) : list Move :=
  fold_left (fun all r => pseudo_row bd white_turn r (seqZ 0 8) all) (seqZ 0 8) [].

(** The scratch board [tmp] of the filter after move [m] was played on a copy
    of [bd], a pawn reaching rank 0 or 7 becoming a queen. *)
Definition simulate (bd : Board) (m : Move) : Board :=
  let tmp := copy_board bd in
  let captured := cell tmp (r2 m) (f2 m) in
  let mover := cell tmp (r1 m) (f1 m) in
  let tmp := set_cell tmp (r1 m) (f1 m) "." in
  if Ascii.eqb (toupper mover) "P" && ((r2 m =? 0) || (r2 m =? 7))
  then set_cell tmp (r2 m) (f2 m) (if is_white mover then "Q" else "q")
  else set_cell tmp (r2 m) (f2 m) mover.

(** [kr = -1, kf = -1; for r for f if (cell == kingChar) { kr = r; kf = f; }] *)
Definition find_king (bd : Board) (kingChar : ascii) : Z * Z :=
  fold_left
    (fun k c => if Ascii.eqb (cell bd (fst c) (snd c)) kingChar then c else k)
    cells (-1, -1).

(** [for mm < n: if (moves[mm].r2 == kr && moves[mm].f2 == kf) ...] *)
Definition hits (moves : list Move) (kr kf : Z) : bool :=
  existsb (fun m => (r2 m =? kr) && (f2 m =? kf)) moves.

(** The flag [in_check] the filter computes on the scratch board: both loops
    run under the condition [!in_check]. *)
Definition leaves_in_check (tmp : Board) (white_turn : bool) : bool :=
  let kingChar := if white_turn then "K" else "k" in
  let k := find_king tmp kingChar in
  let kr := fst k in
  let kf := snd k in
  if kr =? -1 then true
  else
    fold_left
      (fun (in_check : bool) c =>
         if in_check then in_check
         else
           let op := cell tmp (fst c) (snd c) in
           if Ascii.eqb op "." then in_check
           else if white_turn && is_white op then in_check
           else if negb white_turn && is_black op then in_check
           else
             hits (generate_piece_moves tmp (fst c) (snd c) MAX_MOVES
                     (negb white_turn)) kr kf)
      cells false.

(** [generate_legal_moves(bd, out, white_turn)]: the moves [out[0..count-1]];
    the returned [count] is the length of this list. *)
Definition generate_legal_moves (bd : Board) (white_turn : bool) : list Move :=
  fold_left
    (fun out m =>
       if leaves_in_check (simulate bd m) white_turn then out
       else push MAX_MOVES out m)
    (pseudo_legal bd white_turn) [].

(** ** Playing a move *)

Definition apply_move (bd : Board) (m : Move) : Board :=
  let mover := cell bd (r1 m) (f1 m) in
  let bd := set_cell bd (r1 m) (f1 m) "." in
  if Ascii.eqb (toupper mover) "P" && ((r2 m =? 0) || (r2 m =? 7))
     && negb (Ascii.eqb (promotion m) NUL)
  then
    let prom := promotion m in
    let prom := if is_black mover then tolower prom else prom in
    set_cell bd (r2 m) (f2 m) prom
  else if Ascii.eqb (toupper mover) "P" && ((r2 m =? 0) || (r2 m =? 7))
          && Ascii.eqb (promotion m) NUL
  then set_cell bd (r2 m) (f2 m) (if is_white mover then "Q" else "q")
  else set_cell bd (r2 m) (f2 m) mover.

(** ** Evaluation and check *)

Definition evaluate_board (bd : Board) : Z :=
  fold_left
    (fun score c =>
       let p := cell bd (fst c) (snd c) in
       if Ascii.eqb p "." then score
       else
         let val := piece_value p in
         if is_white p then score + val else score - val)
    cells 0.

Definition is_in_check (bd : Board) (white_turn : bool) : bool :=
  let kingChar := if white_turn then "K" else "k" in
  let k := find_king bd kingChar in
  let kr := fst k in
  let kf := snd k in
  if kr =? -1 then true
  else
    existsb
      (fun c =>
         let p := cell bd (fst c) (snd c) in
         if Ascii.eqb p "." then false
         else if white_turn && is_white p then false
         else if negb white_turn && is_black p then false
         else
           hits (generate_piece_moves bd (fst c) (snd c) MAX_MOVES
                   (negb white_turn)) kr kf)
      cells.

(** ** Search *)

Definition INT_MIN : Z := -2147483648.
Definition INT_MAX : Z := 2147483647.

(** The loop of the maximizing player over [moves[i..n-1]]; [rec] is the
    recursive call [minimax(&tmp, depth-1, alpha, beta, 0)]. *)
Fixpoint max_loop (rec : Board -> Z -> Z -> Z) (bd : Board)
    (moves : list Move) (maxEval alpha beta : Z) : Z :=
  match moves with
  | [] => maxEval
  | m :: rest =>
      let tmp := apply_move (copy_board bd) m in
      let eval := rec tmp alpha beta in
      let maxEval := if eval >? maxEval then eval else maxEval in
      let alpha := if eval >? alpha then eval else alpha in
      if beta <=? alpha then maxEval
      else max_loop rec bd rest maxEval alpha beta
  end.

(** The loop of the minimizing player. *)
Fixpoint min_loop (rec : Board -> Z -> Z -> Z) (bd : Board)
    (moves : list Move) (minEval alpha beta : Z) : Z :=
  match moves with
  | [] => minEval
  | m :: rest =>
      let tmp := apply_move (copy_board bd) m in
      let eval := rec tmp alpha beta in
      let minEval := if eval <? minEval then eval else minEval in
      let beta := if eval <? beta then eval else beta in
      if beta <=? alpha then minEval
      else min_loop rec bd rest minEval alpha beta
  end.

(** The score of a node the search does not expand: [depth == 0 || n == 0]. *)
Definition leaf_score (bd : Board) (n : nat) (maximizingPlayer : bool) : Z :=
  if (n =? 0)%nat then
    if is_in_check bd maximizingPlayer then
      let mateScore := if maximizingPlayer then -1000000 else 1000000 in
      mateScore
    else 0
  else evaluate_board bd.

(** [minimax(bd, depth, alpha, beta, maximizingPlayer)] for [depth >= 0]; the
    recursion is on [depth], which every call decreases by one until the test
    [depth == 0]. *)
Fixpoint minimax (depth : nat) (bd : Board) (alpha beta : Z)
    (maximizingPlayer : bool) : Z :=
  let moves := generate_legal_moves bd maximizingPlayer in
  let n := length moves in
  match depth with
  | O => leaf_score bd n maximizingPlayer
  | S depth' =>
      if (n =? 0)%nat then leaf_score bd n maximizingPlayer
      else if maximizingPlayer then
        max_loop (fun tmp a b => minimax depth' tmp a b false)
                 bd moves INT_MIN alpha beta
      else
        min_loop (fun tmp a b => minimax depth' tmp a b true)
                 bd moves INT_MAX alpha beta
  end.

(** The "no move" result [{0,0,0,0,'\0'}]. *)
Definition no_move : Move := mkMove 0 0 0 0 NUL.

(** [minimax(&tmp, AI_DEPTH-1, INT_MIN/2, INT_MAX/2, !white_turn)] on the board
    after root move [m]. *)
Definition root_score (AI_DEPTH : Z) (bd : Board) (white_turn : bool)
    (m : Move) : Z :=
  let tmp := apply_move (copy_board bd) m in
  minimax (Z.to_nat (AI_DEPTH - 1)) tmp
          (Z.quot INT_MIN 2) (Z.quot INT_MAX 2) (negb white_turn).

(** [choose_ai_move(bd, white_turn)]; the global [AI_DEPTH] (3 unless
    reconfigured) is a parameter, taken positive. *)
Definition choose_ai_move (AI_DEPTH : Z) (bd : Board) (white_turn : bool) : Move :=
  let moves := generate_legal_moves bd white_turn in
  let n := length moves in
  let best := no_move in
  if (n =? 0)%nat then best
  else
    let bestScore := if white_turn then INT_MIN else INT_MAX in
    snd (fold_left
           (fun (st : Z * Move) m =>
              let bestScore := fst st in
              let best := snd st in
              let score := root_score AI_DEPTH bd white_turn m in
              if white_turn then
                if score >? bestScore then (score, m) else (bestScore, best)
              else
                if score <? bestScore then (score, m) else (bestScore, best))
           moves (bestScore, best)).

(** ** The unpruned search

    The search the pruning one is compared with, after the specification's
    words: the same legal-move generator and the same scores at the nodes that
    are not expanded, and at every other node the maximum (White to move) or
    the minimum (Black to move) over all children, none skipped. *)
Fixpoint full_minimax (depth : nat) (bd : Board) (maximizingPlayer : bool) : Z :=
  let moves := generate_legal_moves bd maximizingPlayer in
  let n := length moves in
  match depth with
  | O => leaf_score bd n maximizingPlayer
  | S depth' =>
      if (n =? 0)%nat then leaf_score bd n maximizingPlayer
      else if maximizingPlayer then
        fold_left Z.max
          (map (fun m => full_minimax depth' (apply_move bd m) false) moves)
          INT_MIN
      else
        fold_left Z.min
          (map (fun m => full_minimax depth' (apply_move bd m) true) moves)
          INT_MAX
  end.

(** ** The output arrays as memory

    The same generators over an explicit array of moves: [mem] is the whole
    array, [count] the counter of the running call, and [fault] records a
    store that fell outside [mem]. *)
Record Buf := mkBuf { mem : list Move; count : Z; fault : bool }.

(** [if (count < max_out) out[count++] = mv] where [out = mem + base]. *)
Definition store (base max_out : Z) (b : Buf) (mv : Move) : Buf :=
  if count b <? max_out then
    let i := base + count b in
    if (0 <=? i) && (i <? Z.of_nat (length (mem b)))
    then mkBuf (<[Z.to_nat i := mv]> (mem b)) (count b + 1) (fault b)
    else mkBuf (mem b) (count b + 1) true
  else b.

Definition generate_piece_moves_buf (bd : Board) (r f : Z)
    (mem0 : list Move) (base max_out : Z) (white_turn : bool) : Buf :=
  generate_piece_moves_gen (store base max_out) bd r f white_turn
    (mkBuf mem0 0 false).

(** The pseudo-legal phase writing into [all]; the state is the array, [alln]
    and the fault flag. *)
Fixpoint pseudo_row_buf (bd : Board) (white_turn : bool) (r : Z) (fs : list Z)
    (all : Buf) : Buf :=
  match fs with
  | [] => all
  | f :: fs' =>
      let p := cell bd r f in
      if Ascii.eqb p "." then pseudo_row_buf bd white_turn r fs' all
      else if white_turn && negb (is_white p) then pseudo_row_buf bd white_turn r fs' all
      else if negb white_turn && negb (is_black p) then pseudo_row_buf bd white_turn r fs' all
      else
        let alln := count all in
        let b := generate_piece_moves_buf bd r f (mem all) alln
                   (MAX_MOVES - alln) white_turn in
        let all := mkBuf (mem b) (alln + count b) (fault all || fault b) in
        if count all >=? MAX_MOVES then all
        else pseudo_row_buf bd white_turn r fs' all
  end.

Definition pseudo_legal_buf (bd : Board) (white_turn : bool)
    (all0 : list Move) : Buf :=
  fold_left (fun all r => pseudo_row_buf bd white_turn r (seqZ 0 8) all)
            (seqZ 0 8) (mkBuf all0 0 false).

(** [generate_legal_moves] with its local array [all] (of [MAX_MOVES] moves,
    initially [all0]) and the caller's array [out0]: the first component is
    the final state of [all], the second that of [out]. *)
Definition generate_legal_moves_buf (bd : Board) (white_turn : bool)
    (all0 out0 : list Move) : Buf * Buf :=
  let all := pseudo_legal_buf bd white_turn all0 in
  let out :=
    fold_left
      (fun out i =>
         let m := nth (Z.to_nat i) (mem all) no_move in
         if leaves_in_check (simulate bd m) white_turn then out
         else store 0 MAX_MOVES out m)
      (seqZ 0 (count all)) (mkBuf out0 0 false) in
  (all, out).

(** ** The boards as memory

    The functions that take a [Board *] and store through one, over a store
    of boards: a pointer is an index into the store, a local [Board tmp] is a
    fresh slot that lives until the function returns.  The functions that
    only read their board ([generate_piece_moves], [evaluate_board],
    [is_in_check]) are applied to the value the pointer designates. *)

Abbreviation Store := (list Board).
Definition Ptr := nat.
Definition M (A : Type) : Type := Store -> A * Store.

Definition ret {A : Type} (a : A) : M A := fun st => (a, st).
Definition bind {A B : Type} (c : M A) (k : A -> M B) : M B :=
  fun st => let r := c st in k (fst r) (snd r).

Notation "'let*' x ':=' c 'in' k" := (bind c (fun x => k))
  (at level 10, x name, c at level 100, k at level 200).

Definition deref (p : Ptr) : M Board := fun st => (nth p st [], st).
Definition read (p : Ptr) (r f : Z) : M ascii :=
  fun st => (cell (nth p st []) r f, st).
Definition write (p : Ptr) (r f : Z) (c : ascii) : M unit :=
  fun st => (tt, <[p := set_cell (nth p st []) r f c]> st).

Definition copy_board_st (dst src : Ptr) : M unit :=
  fun st => (tt, <[dst := copy_board (nth src st [])]> st).

Section BoardStore.
(** What an uninitialised local board holds. *)
Variable junk : Board.

(** A block with a local [Board tmp]. *)
Definition with_tmp {A : Type} (body : Ptr -> M A) : M A :=
  fun st =>
    let r := body (length st) (st ++ [junk]) in
    (fst r, take (length st) (snd r)).

Definition apply_move_st (bd : Ptr) (m : Move) : M unit :=
  let* mover := read bd (r1 m) (f1 m) in
  let* _ := write bd (r1 m) (f1 m) "." in
  if Ascii.eqb (toupper mover) "P" && ((r2 m =? 0) || (r2 m =? 7))
     && negb (Ascii.eqb (promotion m) NUL)
  then
    let prom := promotion m in
    let prom := if is_black mover then tolower prom else prom in
    write bd (r2 m) (f2 m) prom
  else if Ascii.eqb (toupper mover) "P" && ((r2 m =? 0) || (r2 m =? 7))
          && Ascii.eqb (promotion m) NUL
  then write bd (r2 m) (f2 m) (if is_white mover then "Q" else "q")
  else write bd (r2 m) (f2 m) mover.

Definition evaluate_board_st (bd : Ptr) : M Z :=
  let* b := deref bd in ret (evaluate_board b).

Definition is_in_check_st (bd : Ptr) (white_turn : bool) : M bool :=
  let* b := deref bd in ret (is_in_check b white_turn).

(** The filter loop over [all[i..alln-1]]. *)
Fixpoint filter_st (tmp bd : Ptr) (white_turn : bool) (all out : list Move)
    : M (list Move) :=
  match all with
  | [] => ret out
  | m :: rest =>
      let* _ := copy_board_st tmp bd in
      let* captured := read tmp (r2 m) (f2 m) in
      let* mover := read tmp (r1 m) (f1 m) in
      let* _ := write tmp (r1 m) (f1 m) "." in
      let* _ :=
        (if Ascii.eqb (toupper mover) "P" && ((r2 m =? 0) || (r2 m =? 7))
         then write tmp (r2 m) (f2 m) (if is_white mover then "Q" else "q")
         else write tmp (r2 m) (f2 m) mover) in
      let* t := deref tmp in
      let in_check := leaves_in_check t white_turn in
      filter_st tmp bd white_turn rest
        (if in_check then out else push MAX_MOVES out m)
  end.

Definition generate_legal_moves_st (bd : Ptr) (white_turn : bool)
    : M (list Move) :=
  let* b := deref bd in
  let all := pseudo_legal b white_turn in
  with_tmp (fun tmp => filter_st tmp bd white_turn all []).

Fixpoint max_loop_st (rec : Ptr -> Z -> Z -> M Z) (tmp bd : Ptr)
    (moves : list Move) (maxEval alpha beta : Z) : M Z :=
  match moves with
  | [] => ret maxEval
  | m :: rest =>
      let* _ := copy_board_st tmp bd in
      let* _ := apply_move_st tmp m in
      let* eval := rec tmp alpha beta in
      let maxEval := if eval >? maxEval then eval else maxEval in
      let alpha := if eval >? alpha then eval else alpha in
      if beta <=? alpha then ret maxEval
      else max_loop_st rec tmp bd rest maxEval alpha beta
  end.

Fixpoint min_loop_st (rec : Ptr -> Z -> Z -> M Z) (tmp bd : Ptr)
    (moves : list Move) (minEval alpha beta : Z) : M Z :=
  match moves with
  | [] => ret minEval
  | m :: rest =>
      let* _ := copy_board_st tmp bd in
      let* _ := apply_move_st tmp m in
      let* eval := rec tmp alpha beta in
      let minEval := if eval <? minEval then eval else minEval in
      let beta := if eval <? beta then eval else beta in
      if beta <=? alpha then ret minEval
      else min_loop_st rec tmp bd rest minEval alpha beta
  end.

Definition leaf_score_st (bd : Ptr) (n : nat) (maximizingPlayer : bool) : M Z :=
  if (n =? 0)%nat then
    let* c := is_in_check_st bd maximizingPlayer in
    if c then ret (if maximizingPlayer then -1000000 else 1000000)
    else ret 0
  else evaluate_board_st bd.

Fixpoint minimax_st (depth : nat) (bd : Ptr) (alpha beta : Z)
    (maximizingPlayer : bool) : M Z :=
  let* moves := generate_legal_moves_st bd maximizingPlayer in
  let n := length moves in
  match depth with
  | O => leaf_score_st bd n maximizingPlayer
  | S depth' =>
      if (n =? 0)%nat then leaf_score_st bd n maximizingPlayer
      else if maximizingPlayer then
        with_tmp (fun tmp =>
          max_loop_st (fun p a b => minimax_st depth' p a b false)
                      tmp bd moves INT_MIN alpha beta)
      else
        with_tmp (fun tmp =>
          min_loop_st (fun p a b => minimax_st depth' p a b true)
                      tmp bd moves INT_MAX alpha beta)
  end.

(** The root loop over [moves[i..n-1]]. *)
Fixpoint root_loop_st (AI_DEPTH : Z) (tmp bd : Ptr) (white_turn : bool)
    (moves : list Move) (bestScore : Z) (best : Move) : M Move :=
  match moves with
  | [] => ret best
  | m :: rest =>
      let* _ := copy_board_st tmp bd in
      let* _ := apply_move_st tmp m in
      let* score := minimax_st (Z.to_nat (AI_DEPTH - 1)) tmp
                      (Z.quot INT_MIN 2) (Z.quot INT_MAX 2) (negb white_turn) in
      if white_turn then
        if score >? bestScore
        then root_loop_st AI_DEPTH tmp bd white_turn rest score m
        else root_loop_st AI_DEPTH tmp bd white_turn rest bestScore best
      else
        if score <? bestScore
        then root_loop_st AI_DEPTH tmp bd white_turn rest score m
        else root_loop_st AI_DEPTH tmp bd white_turn rest bestScore best
  end.

Definition choose_ai_move_st (AI_DEPTH : Z) (bd : Ptr) (white_turn : bool)
    : M Move :=
  let* moves := generate_legal_moves_st bd white_turn in
  let n := length moves in
  let best := no_move in
  if (n =? 0)%nat then ret best
  else
    let bestScore := if white_turn then INT_MIN else INT_MAX in
    with_tmp (fun tmp =>
      root_loop_st AI_DEPTH tmp bd white_turn moves bestScore best).
End BoardStore.

(** ** Text: C strings, move notation

    A [char *] argument is the list of the characters stored from the
    pointer on, the terminating NUL being implied at the end of the list;
    [strlen] stops at the first NUL.  A null pointer is [None]. *)

Definition LF : ascii := "010".

Fixpoint strlen (s : list ascii) : nat :=
  match s with
  | [] => O
  | c :: s' => if Ascii.eqb c NUL then O else S (strlen s')
  end.

(** What [printf("%s", s)] prints. *)
Definition cstr (s : list ascii) : list ascii := take (strlen s) s.

(** The conversion of an [int] to [char]: the low 8 bits. *)
Definition char_of_int (z : Z) : ascii := ascii_of_N (Z.to_N (z mod 256)).

(** [isspace] of the "C" locale: space, and '\t' '\n' '\v' '\f' '\r'. *)
Definition isspace (c : ascii) : bool :=
  (code c =? 32) || ((9 <=? code c) && (code c <=? 13)).

(** [alg_to_coords(s, &r, &f)]: [Some (r, f)] when it returns 1 and [None]
    when it returns 0.  The comparisons are those of [char]; a character
    above 127 is rejected by [file < 'a'] where [char] is signed and by
    [file > 'h'] where it is not. *)
Definition alg_to_coords (s : option (list ascii)) : option (Z * Z) :=
  match s with
  | None => None
  | Some s =>
      if (strlen s <? 2)%nat then None
      else
        let file := nth 0 s NUL in
        let rank := nth 1 s NUL in
        if (code file <? code "a") || (code file >? code "h") then None
        else if (code rank <? code "1") || (code rank >? code "8") then None
        else
          let f := code file - code "a" in
          let r := 8 - (code rank - code "0") in
          Some (r, f)
  end.

(** The arrays [s] and [t] of [print_move], up to their terminator. *)
Definition square_text (r f : Z) : list ascii :=
  [char_of_int (code "a" + f); char_of_int (code "0" + (8 - r)); NUL].


(** The loop of [parse_move_input] that copies the characters that are not
    white space into [tmp] and stops once [idx >= 31]; [idx] is the length
    of [tmp]. *)
Fixpoint strip_loop (line tmp : list ascii) : list ascii :=
  match line with
  | [] => tmp
  | c :: rest =>
      let tmp := if negb (isspace c) then tmp ++ [c] else tmp in
      if (31 <=? length tmp)%nat then tmp else strip_loop rest tmp
  end.

(** [parse_move_input(line, &out)]: [Some out] when it returns 1, [None] when
    it returns 0 (and leaves [out] untouched). *)
Definition parse_move_input (line : list ascii) : option Move :=
  let len := strlen line in
  let tmp := strip_loop (take len line) [] in
  let idx := length tmp in
  if (idx <? 4)%nat then None
  else
    let from := [nth 0 tmp NUL; nth 1 tmp NUL; NUL] in
    let to := [nth 2 tmp NUL; nth 3 tmp NUL; NUL] in
    match alg_to_coords (Some from) with
    | None => None
    | Some (r1, f1) =>
        match alg_to_coords (Some to) with
        | None => None
        | Some (r2, f2) =>
            let promotion := NUL in
            let promotion :=
              if (5 <=? idx)%nat then
                let prom := toupper (nth 4 tmp NUL) in
                if Ascii.eqb prom "Q" || Ascii.eqb prom "R"
                   || Ascii.eqb prom "B" || Ascii.eqb prom "N"
                then prom else promotion
              else promotion in
            Some (mkMove r1 f1 r2 f2 promotion)
        end
    end.

Definition moves_equal (a b : Move) : bool :=
  (r1 a =? r1 b) && (f1 a =? f1 b) && (r2 a =? r2 b) && (f2 a =? f2 b)
  && Ascii.eqb (promotion a) (promotion b).

(** ** The program: input, output and the game loop

    The standard input is the list of the characters still to be read, and
    every read at its end fails; the standard output is the list of the
    characters printed so far. *)

(** The characters [fgets] stores when there is input: up to and with the
    first newline, [n] at most; and the input that is left. *)
Fixpoint fgets_line (n : nat) (stdin : list ascii) : list ascii * list ascii :=
  match n, stdin with
  | S n', c :: rest =>
      if Ascii.eqb c LF then ([c], rest)
      else let (l, rest') := fgets_line n' rest in (c :: l, rest')
  | _, _ => ([], stdin)
  end.

(** [fgets(buf, size, stdin)]: [None] when it returns the null pointer, at
    the end of the input; else the string stored in [buf] and the input
    left. *)
Definition fgets (size : nat) (stdin : list ascii)
    : option (list ascii * list ascii) :=
  match stdin with
  | [] => None
  | _ :: _ => Some (fgets_line (size - 1) stdin)
  end.


(** [printf("%d", n)] of a number from 0 to 9, all that [print_board]
    prints. *)
Definition digit (n : Z) : list ascii := [char_of_int (code "0" + n)].

(** [print_board(bd)]: the characters it prints. *)
Definition print_board (bd : Board) : list ascii :=
  let files := list_ascii_of_string "   a b c d e f g h" ++ [LF] in
  files
  ++ flat_map
       (fun r =>
          digit (8 - r) ++ list_ascii_of_string "  "
          ++ flat_map
               (fun f =>
                  let c := cell bd r f in
                  if Ascii.eqb c "." then list_ascii_of_string ". "
                  else [c; " "])
               (seqZ 0 8)
          ++ list_ascii_of_string " " ++ digit (8 - r) ++ [LF])
       (seqZ 0 8)
  ++ files.

(** How [prompt_promotion] ends: with a letter, or in [exit(0)] at the end
    of the input.  [Unfinished] is the model's own: the loop was cut short. *)
Inductive Prompted :=
| Chosen (c : ascii) (stdin stdout : list ascii)
| Exit (stdin stdout : list ascii)
| Unfinished.

Fixpoint prompt_loop (fuel : nat) (stdin stdout : list ascii) : Prompted :=
  match fuel with
  | O => Unfinished
  | S fuel' =>
      let stdout :=
        stdout ++ list_ascii_of_string "Promover para (Q/R/B/N): " in
      match fgets 10 stdin with
      | None => Exit stdin stdout
      | Some (buf, stdin) =>
          if (strlen buf =? 0)%nat then prompt_loop fuel' stdin stdout
          else
            let c := toupper (nth 0 buf NUL) in
            if Ascii.eqb c "Q" || Ascii.eqb c "R"
               || Ascii.eqb c "B" || Ascii.eqb c "N"
            then Chosen c stdin stdout
            else prompt_loop fuel' stdin stdout
      end
  end.

(** [prompt_promotion()]: every turn of its loop reads at least one
    character, so one turn more than there are characters is enough. *)
Definition prompt_promotion (stdin stdout : list ascii) : Prompted :=
  prompt_loop (S (length stdin)) stdin stdout.

(** The variables of [main]. *)
Record Game := mkGame {
  g_bd : Board;
  g_white_turn : bool;
  g_stdin : list ascii;
  g_stdout : list ascii
}.

(** How the search for the player's move among [legalMoves] ends. *)
Inductive Tried :=
| Found (bd : Board) (stdin stdout : list ascii)
| NotFound
| Exited (stdin stdout : list ascii)
| Cut.

(** The loop [for (i = 0; i < nmoves; i++)] of the player's turn. *)
Fixpoint find_and_play (bd : Board) (m : Move) (legalMoves : list Move)
    (stdin stdout : list ascii) : Tried :=
  match legalMoves with
  | [] => NotFound
  | lm :: rest =>
      if (r1 lm =? r1 m) && (f1 lm =? f1 m)
         && (r2 lm =? r2 m) && (f2 lm =? f2 m)
      then
        let mover := cell bd (r1 m) (f1 m) in
        if Ascii.eqb (toupper mover) "P" && ((r2 m =? 0) || (r2 m =? 7))
           && Ascii.eqb (promotion m) NUL
        then
          match prompt_promotion stdin stdout with
          | Chosen prom stdin stdout =>
              let p := if is_white mover then prom else tolower prom in
              Found (apply_move bd (mkMove (r1 lm) (f1 lm) (r2 lm) (f2 lm) p))
                    stdin stdout
          | Exit stdin stdout => Exited stdin stdout
          | Unfinished => Cut
          end
        else
          Found (apply_move bd
                   (mkMove (r1 lm) (f1 lm) (r2 lm) (f2 lm) (promotion m)))
                stdin stdout
      else find_and_play bd m rest stdin stdout
  end.






(** The three lines printed before the loop; the dash of the first one is
    the three bytes 226, 128, 148. *)
Definition welcome : list ascii :=
  list_ascii_of_string "Bem-vindo ao MateCheck (versao simplificada) "
  ++ [char_of_int 226; char_of_int 128; char_of_int 148]
  ++ list_ascii_of_string " Jogador = Brancas" ++ [LF]
  ++ list_ascii_of_string
       "Formato de entrada: e2e4 ou e2 e4. Para sair, digite 'quit'."
  ++ [LF]
  ++ list_ascii_of_string
       "Nota: sem roque e sem en-passant. Promocao para Q/R/B/N."
  ++ [LF; LF].

(** The variables of [main] when the loop is entered. *)
Definition start (stdin : list ascii) : Game :=
  mkGame init_board true stdin welcome.


(** ** Vocabulary of the statements *)

(** What every move handed to the guarded store looks like. *)
Definition move_from (r f : Z) (m : Move) : Prop :=
  r1 m = r /\ f1 m = f /\ in_bounds (r2 m) (f2 m) = true /\ promotion m = NUL.

(** The only things the generator asks about a cell other than its own. *)
Definition cls (c : ascii) : bool * (bool * bool) :=
  (Ascii.eqb c ".", (is_white c, is_black c)).

Definition board_sim (bd1 bd2 : Board) : Prop :=
  forall r f, cls (cell bd1 r f) = cls (cell bd2 r f).

(** How many squares a ray can still visit from [(rr, ff)]. *)
Definition room (dr df_ rr ff : Z) : Z :=
  if dr =? 1 then 8 - rr
  else if dr =? -1 then rr + 1
  else if df_ =? 1 then 8 - ff
  else ff + 1.

(** The array state [b] holds the moves [l] at [mem + base] and nothing
    else of [mem0] has changed. *)
Definition holds (mem0 : list Move) (base max_out : Z)
    (l : list Move) (b : Buf) : Prop :=
  fault b = false /\
  count b = Z.of_nat (length l) /\
  Z.of_nat (length l) <= max_out /\
  length (mem b) = length mem0 /\
  (forall i : nat, (i < length l)%nat ->
     mem b !! (Z.to_nat base + i)%nat = l !! i) /\
  (forall i : nat,
     Z.of_nat i < base \/ base + Z.of_nat (length l) <= Z.of_nat i ->
     mem b !! i = mem0 !! i).

(** The king character [k] occurs on no cell of the board. *)
Definition no_king (bd : Board) (k : ascii) : bool :=
  forallb (fun c => negb (Ascii.eqb (cell bd (fst c) (snd c)) k)) cells.

(** The move [m] carrying the promotion choice [prom]. *)
Definition with_promotion (m : Move) (prom : ascii) : Move :=
  mkMove (r1 m) (f1 m) (r2 m) (f2 m) prom.

(** A piece of the given side. *)
Definition own (white_turn : bool) (p : ascii) : bool :=
  if white_turn then is_white p else is_black p.

Definition king_of (white_turn : bool) : ascii :=
  if white_turn then "K" else "k".

(** Two boards that differ only in which piece of the side, other than its
    king, stands on a cell. *)
Definition own_sim (white_turn : bool) (bd1 bd2 : Board) : Prop :=
  forall r f,
    cell bd1 r f = cell bd2 r f \/
    (own white_turn (cell bd1 r f) = true /\
     own white_turn (cell bd2 r f) = true /\
     cell bd1 r f <> king_of white_turn /\
     cell bd2 r f <> king_of white_turn).

(** The piece [apply_move] puts on the destination cell. *)
Definition placed (bd : Board) (m : Move) : ascii :=
  let mover := cell bd (r1 m) (f1 m) in
  if Ascii.eqb (toupper mover) "P" && ((r2 m =? 0) || (r2 m =? 7))
  then if Ascii.eqb (promotion m) NUL
       then (if is_white mover then "Q" else "q")
       else (if is_black mover then tolower (promotion m) else promotion m)
  else mover.

(** The largest material score: 64 kings. *)
Definition SCORE_MAX : Z := 1280000.

(** What a search with window [(alpha, beta)] promises about its value [v]
    when the value of the unpruned search is [t]: below the window [v] is an
    upper bound of [t], above it a lower bound, and inside it [v] is [t]. *)
Definition window_ok (alpha beta v t : Z) : Prop :=
  (v <= alpha -> t <= v) /\ (beta <= v -> v <= t) /\
  (alpha < v < beta -> v = t).

(** Score [x] is at least as good as [y], or strictly better than [y], for
    the side: larger for White, smaller for Black. *)
Definition no_worse (white_turn : bool) (x y : Z) : Prop :=
  if white_turn then y <= x else x <= y.
Definition better (white_turn : bool) (x y : Z) : Prop :=
  if white_turn then y < x else x < y.

(** The moves the piece generator tries to store, in order: what it would
    leave in an array that never fills. *)
Definition piece_moves_unbounded (bd : Board) (r f : Z) : list Move :=
  generate_piece_moves_gen (fun out mv => out ++ [mv]) bd r f true [].

(** The characters of a line that [parse_move_input] looks at: those before
    the terminator that are not white space. *)
Definition significant (line : list ascii) : list ascii :=
  List.filter (fun c => negb (isspace c)) (cstr line).

(** The move of the piece on [(r, f)] to [(r + dr, f + df)]. *)
Definition move_by (r f dr df_ : Z) : Move :=
  mkMove r f (r + dr) (f + df_) NUL.

(** The cells [(r + j*dr, f + j*df)] for [1 <= j < n] are on the board and
    empty. *)
Definition clear_path (bd : Board) (r f dr df_ n : Z) : Prop :=
  forall j, 1 <= j < n ->
    in_bounds (r + j * dr) (f + j * df_) = true
    /\ cell bd (r + j * dr) (f + j * df_) = ".".

(** A cell the piece [p] may land on: a cell of the board that holds no
    piece of the colour of [p]. *)
Definition landing (bd : Board) (p : ascii) (r f : Z) : Prop :=
  in_bounds r f = true /\ same_color p (cell bd r f) = false.

(** What the piece [p] on a cell adds to the material score of
    [evaluate_board]: its value for a white piece, minus its value for any
    other content of the cell. *)
Definition signed_value (p : ascii) : Z :=
  if Ascii.eqb p "." then 0
  else if is_white p then piece_value p else - piece_value p.



(** ** Positions used as examples *)

(** After 1.f3 e5 2.g4 Qh4: White is mated. *)
Definition fools_mate : Board :=
  map list_ascii_of_string
    [ "rnb.kbnr"; "pppp.ppp"; "........"; "....p...";
      "......Pq"; ".....P.."; "PPPPP..P"; "RNBQKBNR" ]%string.

(** A white pawn on a7 about to promote. *)
Definition pawn_on_seventh : Board :=
  map list_ascii_of_string
    [ "......k."; "P......."; "........"; "........";
      "........"; "........"; "........"; "....K..." ]%string.

(** A position without a white king. *)
Definition kingless : Board :=
  map list_ascii_of_string
    [ "....k..."; "........"; "........"; "........";
      "........"; "........"; "P......."; "........" ]%string.

(** Black to move has no move and is not in check. *)
Definition stalemate : Board :=
  map list_ascii_of_string
    [ ".......k"; ".....K.."; "......Q."; "........";
      "........"; "........"; "........"; "........" ]%string.

(** * Properties *)

(** ** Characters *)

Lemma toupper_P p : Ascii.eqb (toupper p) "P" = true -> p = "P" \/ p = "p".
Proof.
  destruct p as [[] [] [] [] [] [] [] []]; vm_compute; intros H;
    first [discriminate H | now left | now right].
Qed.

Lemma is_white_not_black p : is_white p = true -> is_black p = false.
Proof.
  destruct p as [[] [] [] [] [] [] [] []]; vm_compute; intros H;
    first [discriminate H | reflexivity].
Qed.

Lemma in_bounds_iff r f :
  in_bounds r f = true <-> 0 <= r < 8 /\ 0 <= f < 8.
Proof. unfold in_bounds. rewrite !andb_true_iff. lia. Qed.

(** ** Generic facts about loops *)

Lemma fold_left_rel {A B C : Type} (R : A -> B -> Prop)
    (g1 : A -> C -> A) (g2 : B -> C -> B) (l : list C) :
  (forall a b x, In x l -> R a b -> R (g1 a x) (g2 b x)) ->
  forall a b, R a b -> R (fold_left g1 l a) (fold_left g2 l b).
Proof.
  induction l as [|x l IH]; simpl; intros Hstep a b Hab; [exact Hab|].
  apply IH; [intros; apply Hstep; auto | apply Hstep; auto].
Qed.

Lemma fold_left_inv {A C : Type} (P : A -> Prop) (g : A -> C -> A) (l : list C) :
  (forall a x, In x l -> P a -> P (g a x)) ->
  forall a, P a -> P (fold_left g l a).
Proof.
  intros Hstep a Ha.
  apply (fold_left_rel (fun a (_ : unit) => P a) g (fun u _ => u) l); auto.
  exact tt.
Qed.

Lemma fold_left_ext_in {A C : Type} (g1 g2 : A -> C -> A) (l : list C) a :
  (forall a x, In x l -> g1 a x = g2 a x) ->
  fold_left g1 l a = fold_left g2 l a.
Proof.
  intros H. apply (fold_left_rel eq); [|reflexivity].
  intros ? ? x Hx ->. now apply H.
Qed.

(** A loop that only sets a flag is an [existsb]. *)
Lemma fold_flag_existsb {C : Type} (t : C -> bool) (l : list C) (b : bool) :
  fold_left (fun (flag : bool) c => if flag then flag else t c) l b
  = b || existsb t l.
Proof.
  revert b. induction l as [|x l IH]; intros b; simpl.
  - now rewrite orb_false_r.
  - rewrite IH. destruct b; simpl; reflexivity.
Qed.

Lemma existsb_ext_in {C : Type} (t1 t2 : C -> bool) (l : list C) :
  (forall x, In x l -> t1 x = t2 x) -> existsb t1 l = existsb t2 l.
Proof.
  induction l as [|x l IH]; simpl; intros H; [reflexivity|].
  rewrite (H x) by now left. rewrite IH; [reflexivity|].
  intros; apply H; now right.
Qed.

(** ** The piece generator, whatever the output array is *)

Lemma cls_dot c1 c2 : cls c1 = cls c2 -> Ascii.eqb c1 "." = Ascii.eqb c2 ".".
Proof. unfold cls. congruence. Qed.

Lemma cls_same_color p c1 c2 :
  cls c1 = cls c2 -> same_color p c1 = same_color p c2.
Proof.
  unfold cls, same_color. intros H. injection H as H1 H2 H3.
  now rewrite H1, H2, H3.
Qed.

Section GenRel.
Context {S1 S2 : Type} (R : S1 -> S2 -> Prop).
Variables (emit1 : S1 -> Move -> S1) (emit2 : S2 -> Move -> S2).
Variables (bd1 bd2 : Board) (r f : Z).
Hypothesis Hsim : board_sim bd1 bd2.
Hypothesis Hemit : forall s1 s2 m,
  R s1 s2 -> move_from r f m -> R (emit1 s1 m) (emit2 s2 m).

Lemma slide_rel fuel p dr df_ :
  forall rr ff s1 s2, R s1 s2 ->
  R (slide emit1 bd1 fuel p r f dr df_ rr ff s1)
    (slide emit2 bd2 fuel p r f dr df_ rr ff s2).
Proof.
  induction fuel as [|n IH]; simpl; intros rr ff s1 s2 H; [exact H|].
  destruct (in_bounds rr ff) eqn:Hb; [|exact H].
  rewrite (cls_dot _ _ (Hsim rr ff)), (cls_same_color p _ _ (Hsim rr ff)).
  destruct (Ascii.eqb (cell bd2 rr ff) ".").
  - apply IH. apply Hemit; [exact H|]. now repeat split.
  - destruct (negb (same_color p (cell bd2 rr ff))); [|exact H].
    apply Hemit; [exact H|]. now repeat split.
Qed.

Lemma step_to_rel p s1 s2 d :
  R s1 s2 -> R (step_to emit1 bd1 p r f s1 d) (step_to emit2 bd2 p r f s2 d).
Proof.
  intros H. unfold step_to.
  destruct (in_bounds (r + fst d) (f + snd d)) eqn:Hb; simpl; [|exact H].
  rewrite (cls_dot _ _ (Hsim _ _)), (cls_same_color p _ _ (Hsim _ _)).
  destruct (_ || _); [|exact H].
  apply Hemit; [exact H|]. now repeat split.
Qed.

Lemma generate_piece_moves_gen_rel wt1 wt2 s1 s2 :
  cell bd1 r f = cell bd2 r f ->
  R s1 s2 ->
  R (generate_piece_moves_gen emit1 bd1 r f wt1 s1)
    (generate_piece_moves_gen emit2 bd2 r f wt2 s2).
Proof.
  intros Hp H. unfold generate_piece_moves_gen. rewrite Hp.
  set (p := cell bd2 r f).
  destruct (Ascii.eqb p "."); [exact H|].
  destruct (Ascii.eqb (toupper p) "P").
  { apply fold_left_rel.
    - intros a b x _ Hab.
      rewrite (cls_dot _ _ (Hsim _ _)), (cls_same_color p _ _ (Hsim _ _)).
      destruct (in_bounds _ _ && _ && _) eqn:Hc; [|exact Hab].
      apply Hemit; [exact Hab|].
      rewrite !andb_true_iff in Hc. now repeat split.
    - rewrite (cls_dot _ _ (Hsim _ f)).
      destruct (in_bounds _ f && _) eqn:Hc; [|exact H].
      rewrite andb_true_iff in Hc.
      assert (R (emit1 s1 (mkMove r f (r + (if is_white p then -1 else 1)) f NUL))
                (emit2 s2 (mkMove r f (r + (if is_white p then -1 else 1)) f NUL)))
        as H' by (apply Hemit; [exact H | now repeat split]).
      rewrite (cls_dot _ _ (Hsim (r + 2 * _) f)).
      destruct (_ && _ && _) eqn:Hc2; [|exact H'].
      rewrite !andb_true_iff in Hc2.
      apply Hemit; [exact H' | now repeat split]. }
  destruct (Ascii.eqb (toupper p) "N").
  { apply fold_left_rel; [|exact H]. intros; now apply step_to_rel. }
  destruct (Ascii.eqb (toupper p) "K").
  { apply fold_left_rel; [|exact H]. intros a b x _ Hab.
    destruct (_ && _); [exact Hab | now apply step_to_rel]. }
  assert (forall dirs s1 s2, R s1 s2 ->
    R (fold_left (fun s d => slide emit1 bd1 8 p r f (fst d) (snd d)
                               (r + fst d) (f + snd d) s) dirs s1)
      (fold_left (fun s d => slide emit2 bd2 8 p r f (fst d) (snd d)
                               (r + fst d) (f + snd d) s) dirs s2)) as Hrays.
  { intros dirs a b Hab. apply fold_left_rel; [|exact Hab].
    intros; now apply slide_rel. }
  destruct (Ascii.eqb (toupper p) "R" || Ascii.eqb (toupper p) "Q");
    destruct (Ascii.eqb (toupper p) "B" || Ascii.eqb (toupper p) "Q"); auto.
Qed.
End GenRel.

Lemma board_sim_refl bd : board_sim bd bd.
Proof. intros r f. reflexivity. Qed.

(** An invariant of the output state that every guarded store keeps is kept
    by the generator. *)
Lemma generate_piece_moves_gen_inv {St : Type} (P : St -> Prop)
    (emit : St -> Move -> St) bd r f wt s :
  (forall s m, P s -> move_from r f m -> P (emit s m)) ->
  P s -> P (generate_piece_moves_gen emit bd r f wt s).
Proof.
  intros Hemit Hs.
  apply (generate_piece_moves_gen_rel (fun s (_ : unit) => P s)
           emit (fun u _ => u) bd bd r f (board_sim_refl bd)); auto.
  exact tt.
Qed.

(** ** The rays end on the board *)

Lemma slide_stable {St : Type} (emit : St -> Move -> St) bd p r f dr df_ :
  In (dr, df_) (rook_dirs ++ bishop_dirs) ->
  forall fuel rr ff s,
    (in_bounds rr ff = true -> room dr df_ rr ff <= Z.of_nat fuel) ->
    slide emit bd (S fuel) p r f dr df_ rr ff s
    = slide emit bd fuel p r f dr df_ rr ff s.
Proof.
  intros Hd. induction fuel as [|n IH]; intros rr ff s Hroom.
  - simpl. destruct (in_bounds rr ff) eqn:Hb; [|reflexivity].
    exfalso. specialize (Hroom eq_refl). apply in_bounds_iff in Hb.
    unfold room in Hroom.
    simpl in Hd; repeat destruct Hd as [Hd|Hd]; try contradiction;
      injection Hd as <- <-; simpl in Hroom; lia.
  - change (slide emit bd (S (S n)) p r f dr df_ rr ff s)
      with (if in_bounds rr ff then
              if Ascii.eqb (cell bd rr ff) "." then
                slide emit bd (S n) p r f dr df_ (rr + dr) (ff + df_)
                      (emit s (mkMove r f rr ff NUL))
              else if negb (same_color p (cell bd rr ff))
                   then emit s (mkMove r f rr ff NUL) else s
            else s).
    change (slide emit bd (S n) p r f dr df_ rr ff s)
      with (if in_bounds rr ff then
              if Ascii.eqb (cell bd rr ff) "." then
                slide emit bd n p r f dr df_ (rr + dr) (ff + df_)
                      (emit s (mkMove r f rr ff NUL))
              else if negb (same_color p (cell bd rr ff))
                   then emit s (mkMove r f rr ff NUL) else s
            else s).
    destruct (in_bounds rr ff) eqn:Hb; [|reflexivity].
    destruct (Ascii.eqb (cell bd rr ff) "."); [|reflexivity].
    apply IH. intros _. specialize (Hroom eq_refl).
    unfold room in *.
    simpl in Hd; repeat destruct Hd as [Hd|Hd]; try contradiction;
      injection Hd as <- <-; simpl in *; lia.
Qed.

(** Eight iterations are all a ray ever needs: more fuel changes nothing. *)
Lemma slide_fuel {St : Type} (emit : St -> Move -> St) bd p r f dr df_ n rr ff s :
  In (dr, df_) (rook_dirs ++ bishop_dirs) ->
  slide emit bd (8 + n) p r f dr df_ rr ff s
  = slide emit bd 8 p r f dr df_ rr ff s.
Proof.
  intros Hd. induction n as [|n IH]; [reflexivity|].
  rewrite <- IH. replace (8 + S n)%nat with (S (8 + n)) by lia.
  apply slide_stable; [exact Hd|].
  intros Hb. apply in_bounds_iff in Hb. unfold room.
  simpl in Hd; repeat destruct Hd as [Hd|Hd]; try contradiction;
    injection Hd as <- <-; simpl; lia.
Qed.

(** ** Bounded output arrays *)

Lemma push_length max_out out mv :
  Z.of_nat (length out) <= max_out ->
  Z.of_nat (length (push max_out out mv)) <= max_out.
Proof.
  intros H. unfold push. destruct (Z.ltb_spec (Z.of_nat (length out)) max_out).
  - rewrite length_app. simpl. lia.
  - exact H.
Qed.

Lemma generate_piece_moves_length bd r f max_out wt :
  0 <= max_out ->
  Z.of_nat (length (generate_piece_moves bd r f max_out wt)) <= max_out.
Proof.
  intros H. unfold generate_piece_moves.
  apply (generate_piece_moves_gen_inv
           (fun l => Z.of_nat (length l) <= max_out)).
  - intros s m Hs _. now apply push_length.
  - simpl. lia.
Qed.

Lemma generate_piece_moves_from bd r f max_out wt :
  Forall (move_from r f) (generate_piece_moves bd r f max_out wt).
Proof.
  unfold generate_piece_moves.
  apply (generate_piece_moves_gen_inv (Forall (move_from r f))).
  - intros s m Hs Hm. unfold push. destruct (_ <? _); [|exact Hs].
    apply Forall_app. split; [exact Hs | now constructor].
  - constructor.
Qed.

Section ArrayRel.
Variables (mem0 : list Move) (base max_out : Z).
Hypothesis Hbase : 0 <= base.
Hypothesis Hmax : 0 <= max_out.
Hypothesis Hfit : base + max_out <= Z.of_nat (length mem0).

Lemma holds_init : holds mem0 base max_out [] (mkBuf mem0 0 false).
Proof.
  unfold holds; simpl. repeat split; auto; try lia.
Qed.

Lemma holds_store l b mv :
  holds mem0 base max_out l b ->
  holds mem0 base max_out (push max_out l mv) (store base max_out b mv).
Proof.
  intros (Hf & Hc & Hl & Hlen & Hin & Hout).
  unfold push, store. rewrite Hc.
  destruct (Z.ltb_spec (Z.of_nat (length l)) max_out) as [Hlt|Hge];
    [|repeat split; auto].
  assert ((0 <=? base + Z.of_nat (length l))
          && (base + Z.of_nat (length l) <? Z.of_nat (length (mem b))) = true)
    as -> by (rewrite Hlen; apply andb_true_iff; split;
              [apply Z.leb_le | apply Z.ltb_lt]; lia).
  assert (Z.to_nat (base + Z.of_nat (length l))
          = (Z.to_nat base + length l)%nat) as -> by lia.
  unfold holds; simpl. rewrite length_app, length_insert. simpl.
  repeat split; auto; try lia.
  - intros i Hi. destruct (decide (i = length l)) as [->|Hne].
    + rewrite list_lookup_insert_eq by lia.
      now rewrite list_lookup_middle.
    + rewrite list_lookup_insert_ne by lia.
      rewrite lookup_app_l by lia. apply Hin. lia.
  - intros i Hi. rewrite list_lookup_insert_ne by lia. apply Hout. lia.
Qed.

Lemma generate_piece_moves_buf_holds bd r f wt :
  holds mem0 base max_out (generate_piece_moves bd r f max_out wt)
        (generate_piece_moves_buf bd r f mem0 base max_out wt).
Proof.
  unfold generate_piece_moves, generate_piece_moves_buf.
  apply (generate_piece_moves_gen_rel (holds mem0 base max_out) _ _ bd bd r f (board_sim_refl bd)).
  - intros s1 s2 m H _. now apply holds_store.
  - reflexivity.
  - apply holds_init.
Qed.

Lemma holds_take l b :
  holds mem0 base max_out l b -> take (length l) (drop (Z.to_nat base) (mem b)) = l.
Proof.
  intros (Hf & Hc & Hl & Hlen & Hin & Hout).
  apply list_eq. intros i.
  destruct (decide (i < length l)%nat) as [Hi|Hi].
  - rewrite lookup_take_lt by lia. rewrite lookup_drop. now apply Hin.
  - rewrite lookup_take_ge by lia. symmetry. apply lookup_ge_None. lia.
Qed.
End ArrayRel.

Lemma holds_append all0 M l B g b :
  holds all0 0 M l B ->
  holds (mem B) (Z.of_nat (length l)) (M - Z.of_nat (length l)) g b ->
  holds all0 0 M (l ++ g)
        (mkBuf (mem b) (count B + count b) (fault B || fault b)).
Proof.
  intros (Hf & Hc & Hl & Hlen & Hin & Hout) (Hf' & Hc' & Hl' & Hlen' & Hin' & Hout').
  unfold holds; simpl. rewrite length_app, Hf, Hf', Hc, Hc'.
  repeat split; auto; try lia.
  - intros i Hi. simpl. destruct (decide (i < length l)%nat) as [Hlt|Hge].
    + rewrite lookup_app_l by lia. rewrite Hout' by lia. now apply Hin.
    + rewrite lookup_app_r by lia.
      rewrite <- (Hin' (i - length l)%nat) by lia. f_equal. lia.
  - intros i Hi. rewrite Hout' by lia. apply Hout. lia.
Qed.

Lemma pseudo_row_buf_holds all0 bd wt r :
  Z.to_nat MAX_MOVES = length all0 ->
  forall fs l B,
    holds all0 0 MAX_MOVES l B ->
    holds all0 0 MAX_MOVES (pseudo_row bd wt r fs l) (pseudo_row_buf bd wt r fs B).
Proof.
  intros Hall. induction fs as [|f fs IH]; intros l B H; simpl; [exact H|].
  destruct (Ascii.eqb (cell bd r f) "."); [now apply IH|].
  destruct (wt && negb (is_white (cell bd r f))); [now apply IH|].
  destruct (negb wt && negb (is_black (cell bd r f))); [now apply IH|].
  assert (count B = Z.of_nat (length l)) as Hc by apply H.
  assert (Z.of_nat (length l) <= MAX_MOVES) as Hl by apply H.
  assert (length (mem B) = length all0) as Hlen by apply H.
  rewrite Hc.
  pose proof (holds_append all0 MAX_MOVES l B _ _ H
                (generate_piece_moves_buf_holds (mem B) (Z.of_nat (length l))
                   (MAX_MOVES - Z.of_nat (length l))
                   ltac:(lia) ltac:(lia) ltac:(lia) bd r f wt)) as Happ.
  rewrite Hc in Happ.
  set (B' := mkBuf _ _ _) in *. set (l' := l ++ _) in *.
  assert (count B' = Z.of_nat (length l')) as Hc' by apply Happ.
  change (Z.of_nat (length l) + count _) with (count B').
  rewrite Hc'. destruct (_ >=? _); [exact Happ | now apply IH].
Qed.

Lemma pseudo_legal_buf_holds all0 bd wt :
  Z.to_nat MAX_MOVES = length all0 ->
  holds all0 0 MAX_MOVES (pseudo_legal bd wt) (pseudo_legal_buf bd wt all0).
Proof.
  intros Hall. unfold pseudo_legal, pseudo_legal_buf.
  apply fold_left_rel.
  - intros a b x _ H. now apply pseudo_row_buf_holds.
  - apply holds_init; unfold MAX_MOVES; lia.
Qed.

Lemma fold_left_map {A B C : Type} (g : A -> B -> A) (h : C -> B) l a :
  fold_left g (map h l) a = fold_left (fun a x => g a (h x)) l a.
Proof. revert a. induction l; simpl; auto. Qed.

Lemma read_back (l mem : list Move) d :
  (forall i : nat, (i < length l)%nat -> mem !! i = l !! i) ->
  map (fun i => nth (Z.to_nat i) mem d) (seqZ 0 (Z.of_nat (length l))) = l.
Proof.
  intros H. apply list_eq. intros i.
  change (map ?g ?x) with (g <$> x). rewrite list_lookup_fmap.
  destruct (decide (i < length l)%nat) as [Hi|Hi].
  - rewrite lookup_seqZ_lt by lia. simpl.
    rewrite nth_lookup. replace (Z.to_nat (0 + Z.of_nat i)) with i by lia.
    rewrite H by lia.
    destruct (lookup_lt_is_Some_2 l i Hi) as [x Hx]. now rewrite Hx.
  - rewrite lookup_seqZ_ge by lia. simpl. symmetry. apply lookup_ge_None. lia.
Qed.

Lemma generate_legal_moves_buf_holds bd wt all0 out0 :
  Z.to_nat MAX_MOVES = length all0 ->
  MAX_MOVES <= Z.of_nat (length out0) ->
  holds all0 0 MAX_MOVES (pseudo_legal bd wt)
        (fst (generate_legal_moves_buf bd wt all0 out0)) /\
  holds out0 0 MAX_MOVES (generate_legal_moves bd wt)
        (snd (generate_legal_moves_buf bd wt all0 out0)).
Proof.
  intros Hall Hout.
  pose proof (pseudo_legal_buf_holds all0 bd wt Hall) as Hp.
  split; [exact Hp|].
  unfold generate_legal_moves_buf, generate_legal_moves. cbn [snd].
  destruct Hp as (_ & Hc & _ & _ & Hin & _).
  set (B := pseudo_legal_buf bd wt all0) in *.
  rewrite Hc.
  rewrite <- (fold_left_map
                (fun out m => if leaves_in_check (simulate bd m) wt then out
                              else store 0 MAX_MOVES out m)
                (fun i => nth (Z.to_nat i) (mem B) no_move)).
  rewrite read_back by (intros i Hi; rewrite <- Hin by lia; f_equal).
  apply fold_left_rel.
  - intros a b x _ H. destruct (leaves_in_check _ _); [exact H|].
    apply holds_store; [lia | lia | exact H].
  - apply holds_init; unfold MAX_MOVES; lia.
Qed.

(** A full array truncates: what is stored is a prefix of what the generator
    tries to store. *)
Lemma generate_piece_moves_truncates bd r f max_out wt :
  generate_piece_moves bd r f max_out wt
  = take (Z.to_nat max_out) (piece_moves_unbounded bd r f).
Proof.
  unfold generate_piece_moves, piece_moves_unbounded.
  apply (generate_piece_moves_gen_rel
           (fun l1 l2 => l1 = take (Z.to_nat max_out) l2)
           _ _ bd bd r f (board_sim_refl bd)).
  - intros s1 s2 m -> _. unfold push. rewrite length_take.
    destruct (Z.ltb_spec (Z.of_nat (Z.to_nat max_out `min` length s2)) max_out).
    + rewrite !take_ge by (rewrite ?length_app; simpl; lia). reflexivity.
    + destruct (Z.le_gt_cases max_out 0).
      * replace (Z.to_nat max_out) with 0%nat by lia. reflexivity.
      * rewrite take_app_le by lia. reflexivity.
  - reflexivity.
  - now rewrite take_nil.
Qed.

(** C7. Bounded buffers.  Given an array with room for [max_out] moves at
    [mem0 + base], [generate_piece_moves] stores nowhere outside the array,
    returns a count between 0 and [max_out], changes no entry other than
    [out[0..count-1]], and leaves there the first [max_out] of the moves it
    tries to store, the others being dropped; [generate_legal_moves], with arrays of [MAX_MOVES]
    entries, stores outside neither its local [all] nor the caller's [out],
    keeps both counts within [0..MAX_MOVES], and changes [out] only below the
    count it returns. *)
Theorem generate_moves_bounded_buffer
    (bd : Board) (r f max_out : Z) (white_turn : bool)
    (mem0 : list Move) (base : Z) (all0 out0 : list Move) :
  0 <= max_out -> 0 <= base -> base + max_out <= Z.of_nat (length mem0) ->
  length all0 = Z.to_nat MAX_MOVES -> MAX_MOVES <= Z.of_nat (length out0) ->
  forall b res,
  b = generate_piece_moves_buf bd r f mem0 base max_out white_turn ->
  res = generate_legal_moves_buf bd white_turn all0 out0 ->
  (fault b = false /\ 0 <= count b <= max_out /\
   (forall i : nat,
      Z.of_nat i < base \/ base + count b <= Z.of_nat i ->
      mem b !! i = mem0 !! i) /\
   take (Z.to_nat (count b)) (drop (Z.to_nat base) (mem b))
   = generate_piece_moves bd r f max_out white_turn /\
   generate_piece_moves bd r f max_out white_turn
   = take (Z.to_nat max_out) (piece_moves_unbounded bd r f)) /\
  (fault (fst res) = false /\ fault (snd res) = false /\
   0 <= count (fst res) <= MAX_MOVES /\ 0 <= count (snd res) <= MAX_MOVES /\
   (forall i : nat, count (snd res) <= Z.of_nat i ->
      mem (snd res) !! i = out0 !! i) /\
   take (Z.to_nat (count (snd res))) (mem (snd res))
   = generate_legal_moves bd white_turn).
Proof.
  intros Hmax Hbase Hfit Hall Hout b res Hb Hres.
  pose proof (generate_piece_moves_buf_holds mem0 base max_out
                Hbase Hmax Hfit bd r f white_turn) as H.
  rewrite <- Hb in H.
  pose proof (holds_take _ _ _ _ _ H) as Ht.
  destruct H as (Hf & Hc & Hl & Hlen & Hin & Hfr).
  destruct (generate_legal_moves_buf_holds bd white_turn all0 out0
              (eq_sym Hall) Hout) as [Ha Ho].
  rewrite <- Hres in Ha, Ho.
  pose proof (holds_take _ _ _ _ _ Ho) as Hto.
  change (Z.to_nat 0) with 0%nat in Hto. rewrite drop_0 in Hto.
  clear Hb Hres.
  destruct Ha as (Hfa & Hca & Hla & _).
  destruct Ho as (Hfo & Hco & Hlo & _ & _ & Hfro).
  repeat split; auto; try lia.
  - intros i Hi. apply Hfr. lia.
  - rewrite Hc, Nat2Z.id. exact Ht.
  - apply generate_piece_moves_truncates.
  - intros i Hi. apply Hfro. lia.
  - rewrite Hco, Nat2Z.id. exact Hto.
Qed.

Lemma generate_moves_bounded_buffer_witness :
  exists b res,
  (fault b = false /\ 0 <= count b <= 1 /\
   (forall i : nat,
      Z.of_nat i < 1 \/ 1 + count b <= Z.of_nat i ->
      mem b !! i = replicate 4 no_move !! i) /\
   take (Z.to_nat (count b)) (drop (Z.to_nat 1) (mem b))
   = generate_piece_moves init_board 7 1 1 true /\
   generate_piece_moves init_board 7 1 1 true
   = take (Z.to_nat 1) (piece_moves_unbounded init_board 7 1)) /\
  (fault (fst res) = false /\ fault (snd res) = false /\
   0 <= count (fst res) <= MAX_MOVES /\ 0 <= count (snd res) <= MAX_MOVES /\
   (forall i : nat, count (snd res) <= Z.of_nat i ->
      mem (snd res) !! i = replicate 256 no_move !! i) /\
   take (Z.to_nat (count (snd res))) (mem (snd res))
   = generate_legal_moves init_board true).
Proof.
  eexists _, _.
  apply (generate_moves_bounded_buffer init_board 7 1 1 true
           (replicate 4 no_move) 1
           (replicate 256 no_move) (replicate 256 no_move)).
  - lia.
  - lia.
  - vm_compute. discriminate.
  - reflexivity.
  - vm_compute. discriminate.
  - reflexivity.
  - reflexivity.
Defined.

(** C10. The argument [white_turn] of [generate_piece_moves] has no influence:
    with either value the call leaves the same moves, hence the same count,
    in the array. *)
Theorem generate_piece_moves_ignores_white_turn
    (bd : Board) (r f max_out : Z) :
  generate_piece_moves bd r f max_out true
  = generate_piece_moves bd r f max_out false
  /\ length (generate_piece_moves bd r f max_out true)
     = length (generate_piece_moves bd r f max_out false).
Proof. split; reflexivity. Qed.

(** ** Reading and writing cells *)

Lemma wf_row bd r :
  wf_board bd -> 0 <= r < 8 -> length (nth (Z.to_nat r) bd []) = 8%nat.
Proof.
  intros [Hlen Hrows] Hr. rewrite nth_lookup.
  destruct (lookup_lt_is_Some_2 bd (Z.to_nat r)) as [row Hrow]; [lia|].
  rewrite Hrow. simpl. exact (proj1 (Forall_lookup _ _) Hrows _ _ Hrow).
Qed.

Lemma set_cell_wf bd r f c : wf_board bd -> wf_board (set_cell bd r f c).
Proof.
  intros Hwf. unfold set_cell. destruct (in_bounds r f) eqn:Hb; [|exact Hwf].
  apply in_bounds_iff in Hb. destruct Hb as [Hr Hf].
  pose proof (wf_row bd r Hwf Hr) as Hrow.
  destruct Hwf as [Hlen Hrows]. split.
  - now rewrite length_insert.
  - apply Forall_insert; [exact Hrows|]. now rewrite length_insert.
Qed.

Lemma cell_set_cell bd r f c r' f' :
  wf_board bd ->
  cell (set_cell bd r f c) r' f'
  = if in_bounds r f && (r =? r') && (f =? f') then c else cell bd r' f'.
Proof.
  intros Hwf. unfold set_cell.
  destruct (in_bounds r f) eqn:Hb; [|reflexivity].
  unfold cell. destruct (in_bounds r' f') eqn:Hb'.
  2:{ destruct (Z.eqb_spec r r') as [->|]; [|reflexivity].
      destruct (Z.eqb_spec f f') as [->|]; [|reflexivity]. congruence. }
  apply in_bounds_iff in Hb, Hb'. destruct Hb as [Hr Hf], Hb' as [Hr' Hf'].
  pose proof (wf_row bd r Hwf Hr) as Hrow.
  destruct Hwf as [Hlen Hrows]. simpl.
  destruct (Z.eqb_spec r r') as [<-|Hne]; simpl.
  - rewrite (nth_lookup (<[_ := _]> bd)), list_lookup_insert_eq by lia. simpl.
    destruct (Z.eqb_spec f f') as [<-|Hnf].
    + now rewrite nth_lookup, list_lookup_insert_eq by lia.
    + rewrite (nth_lookup (<[_ := _]> _)), list_lookup_insert_ne by lia.
      now rewrite <- nth_lookup.
  - rewrite (nth_lookup (<[_ := _]> bd)), list_lookup_insert_ne by lia.
    now rewrite <- nth_lookup.
Qed.

(** ** Finding the king *)

Lemma find_king_none bd k :
  no_king bd k = true -> find_king bd k = (-1, -1).
Proof.
  unfold no_king, find_king. intros H.
  rewrite forallb_forall in H.
  apply (fold_left_inv (fun p => p = (-1, -1))); [|reflexivity].
  intros a x Hx ->. specialize (H x Hx).
  now destruct (Ascii.eqb (cell bd (fst x) (snd x)) k).
Qed.

Lemma fold_filter_in (bad : Move -> bool) (l : list Move) :
  forall acc m,
    In m (fold_left (fun out m => if bad m then out else push MAX_MOVES out m)
                    l acc) ->
    In m acc \/ (In m l /\ bad m = false).
Proof.
  induction l as [|x l IH]; simpl; intros acc m H; [now left|].
  apply IH in H. destruct H as [H|[H1 H2]]; [|now right; split; [right|]].
  destruct (bad x) eqn:Hx; [now left|].
  unfold push in H. destruct (_ <? _); [|now left].
  apply in_app_or in H. destruct H as [H|[<-|[]]]; [now left|].
  right. split; [now left | exact Hx].
Qed.

Lemma legal_is_pseudo_legal bd side m :
  In m (generate_legal_moves bd side) ->
  In m (pseudo_legal bd side) /\ leaves_in_check (simulate bd m) side = false.
Proof.
  unfold generate_legal_moves. intros H.
  apply (fold_filter_in (fun m => leaves_in_check (simulate bd m) side)) in H.
  destruct H as [[]|H]. exact H.
Qed.

(** C8. Missing king.  On a board where the side's king character occurs on
    no cell, [is_in_check] answers 1; and a candidate move whose simulated
    position has no king of the mover is not among the legal moves. *)
Theorem missing_king_fails_safe (bd : Board) (white_turn : bool) (m : Move) :
  (no_king bd (if white_turn then "K" else "k") = true ->
   is_in_check bd white_turn = true) /\
  (no_king (simulate bd m) (if white_turn then "K" else "k") = true ->
   ~ In m (generate_legal_moves bd white_turn)).
Proof.
  split.
  - intros H. unfold is_in_check. now rewrite (find_king_none _ _ H).
  - intros H Hin. apply legal_is_pseudo_legal in Hin. destruct Hin as [_ Hc].
    unfold leaves_in_check in Hc. now rewrite (find_king_none _ _ H) in Hc.
Qed.

Lemma missing_king_fails_safe_witness :
  is_in_check kingless true = true /\
  ~ In (mkMove 6 0 5 0 NUL) (generate_legal_moves kingless true).
Proof.
  destruct (missing_king_fails_safe kingless true (mkMove 6 0 5 0 NUL))
    as [H1 H2].
  split; [apply H1 | apply H2]; vm_compute; reflexivity.
Defined.

(** What [apply_move] leaves on the destination cell. *)
Lemma apply_move_dest bd m :
  wf_board bd -> in_bounds (r2 m) (f2 m) = true ->
  cell (apply_move bd m) (r2 m) (f2 m)
  = let mover := cell bd (r1 m) (f1 m) in
    if Ascii.eqb (toupper mover) "P" && ((r2 m =? 0) || (r2 m =? 7))
    then if Ascii.eqb (promotion m) NUL
         then (if is_white mover then "Q" else "q")
         else (if is_black mover then tolower (promotion m) else promotion m)
    else mover.
Proof.
  intros Hwf Hb. unfold apply_move. cbv zeta.
  destruct (Ascii.eqb (toupper (cell bd (r1 m) (f1 m))) "P"
            && ((r2 m =? 0) || (r2 m =? 7)));
    destruct (Ascii.eqb (promotion m) NUL); simpl;
    rewrite cell_set_cell by (apply set_cell_wf; exact Hwf);
    now rewrite Hb, !Z.eqb_refl.
Qed.

(** C6. Default queen promotion.  When the origin holds a pawn and the
    destination is that pawn's last rank (row 0 for 'P', row 7 for 'p'),
    [apply_move] puts on the destination a queen of the pawn's side if the
    move carries no promotion, and otherwise the piece of the letter carried
    ('Q', 'R', 'B' or 'N'), in the pawn's case. *)
Theorem apply_move_promotes (bd : Board) (m : Move) :
  wf_board bd ->
  in_bounds (r2 m) (f2 m) = true ->
  (cell bd (r1 m) (f1 m) = "P" /\ r2 m = 0) \/
  (cell bd (r1 m) (f1 m) = "p" /\ r2 m = 7) ->
  let white := is_white (cell bd (r1 m) (f1 m)) in
  let placed := cell (apply_move bd m) (r2 m) (f2 m) in
  (promotion m = NUL -> placed = if white then "Q" else "q") /\
  (In (promotion m) ["Q"; "R"; "B"; "N"] ->
   placed = (if white then promotion m else tolower (promotion m)) /\
   toupper placed = promotion m /\
   is_white placed = white /\ is_black placed = negb white).
Proof.
  intros Hwf Hb Hpawn white placed. subst white placed.
  rewrite (apply_move_dest bd m Hwf Hb).
  destruct Hpawn as [[-> ->]|[-> ->]]; split.
  - intros ->. reflexivity.
  - intros [<-|[<-|[<-|[<-|[]]]]]; now vm_compute.
  - intros ->. reflexivity.
  - intros [<-|[<-|[<-|[<-|[]]]]]; now vm_compute.
Qed.

Lemma apply_move_promotes_witness :
  cell (apply_move pawn_on_seventh (mkMove 1 0 0 0 NUL)) 0 0 = "Q" /\
  cell (apply_move pawn_on_seventh (mkMove 1 0 0 0 "N")) 0 0 = "N".
Proof.
  assert (wf_board pawn_on_seventh) as Hwf
    by (split; [reflexivity | repeat constructor]).
  split.
  - apply (apply_move_promotes pawn_on_seventh (mkMove 1 0 0 0 NUL) Hwf
             eq_refl (or_introl (conj eq_refl eq_refl))).
    reflexivity.
  - apply (apply_move_promotes pawn_on_seventh (mkMove 1 0 0 0 "N") Hwf
             eq_refl (or_introl (conj eq_refl eq_refl))).
    simpl. tauto.
Defined.

(** ** The search at the nodes it does not expand *)

Lemma minimax_0 bd alpha beta mx :
  minimax 0 bd alpha beta mx
  = leaf_score bd (length (generate_legal_moves bd mx)) mx.
Proof. reflexivity. Qed.

Lemma minimax_S depth bd alpha beta mx :
  minimax (S depth) bd alpha beta mx
  = let moves := generate_legal_moves bd mx in
    if (length moves =? 0)%nat then leaf_score bd (length moves) mx
    else if mx then
      max_loop (fun tmp a b => minimax depth tmp a b false)
               bd moves INT_MIN alpha beta
    else
      min_loop (fun tmp a b => minimax depth tmp a b true)
               bd moves INT_MAX alpha beta.
Proof. reflexivity. Qed.

Lemma full_minimax_0 bd mx :
  full_minimax 0 bd mx = leaf_score bd (length (generate_legal_moves bd mx)) mx.
Proof. reflexivity. Qed.

Lemma full_minimax_S depth bd mx :
  full_minimax (S depth) bd mx
  = let moves := generate_legal_moves bd mx in
    if (length moves =? 0)%nat then leaf_score bd (length moves) mx
    else if mx then
      fold_left Z.max
        (map (fun m => full_minimax depth (apply_move bd m) false) moves)
        INT_MIN
    else
      fold_left Z.min
        (map (fun m => full_minimax depth (apply_move bd m) true) moves)
        INT_MAX.
Proof. reflexivity. Qed.

(** C3. Terminal scoring.  With no legal move for the side to move, [minimax]
    returns -1000000 (White to move) or +1000000 (Black to move) when that
    side is in check and 0 when it is not, at every depth and for every
    window; with legal moves and depth 0 it returns [evaluate_board]. *)
Theorem minimax_terminal_scoring
    (depth : nat) (bd : Board) (alpha beta : Z) (maximizingPlayer : bool) :
  (generate_legal_moves bd maximizingPlayer = [] ->
   minimax depth bd alpha beta maximizingPlayer
   = if is_in_check bd maximizingPlayer
     then (if maximizingPlayer then -1000000 else 1000000)
     else 0) /\
  (generate_legal_moves bd maximizingPlayer <> [] ->
   minimax 0 bd alpha beta maximizingPlayer = evaluate_board bd).
Proof.
  split.
  - intros H. destruct depth as [|d].
    + rewrite minimax_0, H. reflexivity.
    + rewrite minimax_S, H. reflexivity.
  - intros H. rewrite minimax_0.
    destruct (generate_legal_moves bd maximizingPlayer) as [|m l];
      [contradiction | reflexivity].
Qed.

Lemma minimax_terminal_scoring_witness :
  minimax 2 fools_mate (Z.quot INT_MIN 2) (Z.quot INT_MAX 2) true = -1000000 /\
  minimax 0 init_board (Z.quot INT_MIN 2) (Z.quot INT_MAX 2) true
  = evaluate_board init_board.
Proof.
  split.
  - rewrite (proj1 (minimax_terminal_scoring 2 fools_mate
                      (Z.quot INT_MIN 2) (Z.quot INT_MAX 2) true)).
    + vm_compute. reflexivity.
    + vm_compute. reflexivity.
  - apply (proj2 (minimax_terminal_scoring 0 init_board
                    (Z.quot INT_MIN 2) (Z.quot INT_MAX 2) true)).
    vm_compute. discriminate.
Defined.

(** C5. Completeness at start.  From the initial position White has exactly
    20 legal moves: for each of the 8 pawns the single and the double
    advance, then the two moves of each knight. *)
Theorem legal_moves_at_start :
  generate_legal_moves init_board true
  = (f ← seqZ 0 8; [mkMove 6 f 5 f NUL; mkMove 6 f 4 f NUL])
    ++ [mkMove 7 1 5 0 NUL; mkMove 7 1 5 2 NUL;
        mkMove 7 6 5 5 NUL; mkMove 7 6 5 7 NUL]
  /\ length (generate_legal_moves init_board true) = 20%nat
  /\ length (List.filter
               (fun m => Ascii.eqb (cell init_board (r1 m) (f1 m)) "P")
               (generate_legal_moves init_board true)) = 16%nat
  /\ length (List.filter
               (fun m => Ascii.eqb (cell init_board (r1 m) (f1 m)) "N")
               (generate_legal_moves init_board true)) = 4%nat.
Proof. repeat split; vm_compute; reflexivity. Qed.

(** ** Legality closure *)

Lemma is_white_not_dot p : is_white p = true -> Ascii.eqb p "." = false.
Proof.
  destruct p as [[] [] [] [] [] [] [] []]; vm_compute; intros H;
    first [discriminate H | reflexivity].
Qed.

Lemma is_black_not_dot p : is_black p = true -> Ascii.eqb p "." = false.
Proof.
  destruct p as [[] [] [] [] [] [] [] []]; vm_compute; intros H;
    first [discriminate H | reflexivity].
Qed.

Lemma is_black_not_white p : is_black p = true -> is_white p = false.
Proof.
  destruct p as [[] [] [] [] [] [] [] []]; vm_compute; intros H;
    first [discriminate H | reflexivity].
Qed.

Lemma own_cls side p q :
  own side p = true -> own side q = true -> cls p = cls q.
Proof.
  unfold own, cls. destruct side; intros Hp Hq.
  - now rewrite (is_white_not_dot _ Hp), (is_white_not_dot _ Hq), Hp, Hq,
      (is_white_not_black _ Hp), (is_white_not_black _ Hq).
  - now rewrite (is_black_not_dot _ Hp), (is_black_not_dot _ Hq), Hp, Hq,
      (is_black_not_white _ Hp), (is_black_not_white _ Hq).
Qed.

Lemma own_sim_board_sim side bd1 bd2 :
  own_sim side bd1 bd2 -> board_sim bd1 bd2.
Proof.
  intros H r f. destruct (H r f) as [->|(H1 & H2 & _)]; [reflexivity|].
  exact (own_cls side _ _ H1 H2).
Qed.

Lemma generate_piece_moves_sim bd1 bd2 r f max_out wt :
  board_sim bd1 bd2 -> cell bd1 r f = cell bd2 r f ->
  generate_piece_moves bd1 r f max_out wt = generate_piece_moves bd2 r f max_out wt.
Proof.
  intros Hsim Hp. unfold generate_piece_moves.
  apply (generate_piece_moves_gen_rel eq _ _ bd1 bd2 r f Hsim); auto.
  now intros s1 s2 m -> _.
Qed.

(** The check oracle does not see which piece of the side, other than its
    king, stands on a cell. *)
Lemma is_in_check_sim side bd1 bd2 :
  own_sim side bd1 bd2 -> is_in_check bd1 side = is_in_check bd2 side.
Proof.
  intros H. pose proof (own_sim_board_sim _ _ _ H) as Hsim.
  unfold is_in_check.
  assert (find_king bd1 (if side then "K" else "k")
          = find_king bd2 (if side then "K" else "k")) as ->.
  { unfold find_king. apply fold_left_ext_in. intros a x _.
    destruct (H (fst x) (snd x)) as [->|(_ & _ & H1 & H2)]; [reflexivity|].
    unfold king_of in H1, H2.
    destruct (Ascii.eqb_spec (cell bd1 (fst x) (snd x)) (if side then "K" else "k"));
      [contradiction|].
    destruct (Ascii.eqb_spec (cell bd2 (fst x) (snd x)) (if side then "K" else "k"));
      [contradiction|reflexivity]. }
  destruct (_ =? -1); [reflexivity|].
  apply existsb_ext_in. intros c _.
  destruct (H (fst c) (snd c)) as [He|(H1 & H2 & _)].
  - rewrite <- He.
    now rewrite (generate_piece_moves_sim bd1 bd2 _ _ _ _ Hsim He).
  - unfold own in H1, H2. destruct side; simpl.
    + now rewrite (is_white_not_dot _ H1), (is_white_not_dot _ H2), H1, H2.
    + now rewrite (is_black_not_dot _ H1), (is_black_not_dot _ H2), H1, H2.
Qed.

(** The flag of the filter is the answer of the check oracle. *)
Lemma leaves_in_check_is_in_check tmp side :
  leaves_in_check tmp side = is_in_check tmp side.
Proof.
  unfold leaves_in_check, is_in_check.
  destruct (_ =? -1); [reflexivity|].
  rewrite <- (orb_false_l (existsb _ cells)), <- fold_flag_existsb.
  apply fold_left_ext_in. intros a x _. destruct a; [reflexivity|].
  destruct (Ascii.eqb _ "."); [reflexivity|].
  destruct (side && _); [reflexivity|].
  destruct (negb side && _); reflexivity.
Qed.

Lemma apply_move_cell bd m r f :
  wf_board bd ->
  cell (apply_move bd m) r f
  = if in_bounds (r2 m) (f2 m) && (r2 m =? r) && (f2 m =? f) then placed bd m
    else if in_bounds (r1 m) (f1 m) && (r1 m =? r) && (f1 m =? f) then "."
    else cell bd r f.
Proof.
  intros Hwf. unfold apply_move, placed. cbv zeta.
  destruct (Ascii.eqb (toupper (cell bd (r1 m) (f1 m))) "P"
            && ((r2 m =? 0) || (r2 m =? 7)));
    destruct (Ascii.eqb (promotion m) NUL); simpl;
    rewrite !cell_set_cell by (try apply set_cell_wf; exact Hwf);
    reflexivity.
Qed.

(** Without a promotion choice, [apply_move] is the move the filter plays. *)
Lemma simulate_apply_move bd m :
  promotion m = NUL -> simulate bd m = apply_move bd m.
Proof.
  intros Hp. unfold simulate, apply_move, copy_board. cbv zeta. rewrite Hp.
  change (Ascii.eqb NUL NUL) with true.
  destruct (Ascii.eqb (toupper (cell bd (r1 m) (f1 m))) "P"
            && ((r2 m =? 0) || (r2 m =? 7))); reflexivity.
Qed.

(** What is known of a pseudo-legal move. *)
Lemma pseudo_row_from bd side r fs :
  forall all,
    Forall (fun m => promotion m = NUL /\ in_bounds (r2 m) (f2 m) = true /\
                     own side (cell bd (r1 m) (f1 m)) = true) all ->
    Forall (fun m => promotion m = NUL /\ in_bounds (r2 m) (f2 m) = true /\
                     own side (cell bd (r1 m) (f1 m)) = true)
           (pseudo_row bd side r fs all).
Proof.
  induction fs as [|f fs IH]; intros all H; simpl; [exact H|].
  destruct (Ascii.eqb (cell bd r f) "."); [now apply IH|].
  destruct (side && negb (is_white (cell bd r f))) eqn:H1; [now apply IH|].
  destruct (negb side && negb (is_black (cell bd r f))) eqn:H2; [now apply IH|].
  assert (Forall (fun m => promotion m = NUL /\ in_bounds (r2 m) (f2 m) = true /\
                           own side (cell bd (r1 m) (f1 m)) = true)
            (all ++ generate_piece_moves bd r f
                      (MAX_MOVES - Z.of_nat (length all)) side)) as H'.
  { apply Forall_app. split; [exact H|].
    eapply Forall_impl; [apply generate_piece_moves_from|].
    intros m (-> & -> & Hb & Hp). repeat split; auto.
    unfold own. destruct side; simpl in *.
    - now destruct (is_white (cell bd r f)).
    - now destruct (is_black (cell bd r f)). }
  destruct (_ >=? _); [exact H' | now apply IH].
Qed.

Lemma pseudo_legal_from bd side m :
  In m (pseudo_legal bd side) ->
  promotion m = NUL /\ in_bounds (r2 m) (f2 m) = true /\
  own side (cell bd (r1 m) (f1 m)) = true.
Proof.
  intros H.
  assert (Forall (fun m => promotion m = NUL /\ in_bounds (r2 m) (f2 m) = true /\
                           own side (cell bd (r1 m) (f1 m)) = true)
            (pseudo_legal bd side)) as HF.
  { unfold pseudo_legal. apply fold_left_inv; [|constructor].
    intros a x _ Ha. now apply pseudo_row_from. }
  rewrite Forall_forall in HF. apply HF. now apply list_elem_of_In.
Qed.

(** Whatever the promotion choice, the position differs from the one the
    filter examined only in which piece of the mover stands on the
    destination. *)
Lemma promotion_own_sim bd side m prom :
  wf_board bd ->
  promotion m = NUL ->
  own side (cell bd (r1 m) (f1 m)) = true ->
  In prom [NUL; "Q"; "R"; "B"; "N"] ->
  own_sim side (apply_move bd (with_promotion m prom)) (apply_move bd m).
Proof.
  intros Hwf Hp Hown Hprom r f.
  rewrite !apply_move_cell by exact Hwf.
  unfold placed, with_promotion. cbn [r1 f1 r2 f2 promotion]. rewrite Hp.
  destruct (in_bounds (r2 m) (f2 m) && (r2 m =? r) && (f2 m =? f));
    [|left; reflexivity].
  destruct (Ascii.eqb (toupper (cell bd (r1 m) (f1 m))) "P") eqn:HP;
    [|left; reflexivity].
  destruct ((r2 m =? 0) || (r2 m =? 7)); [|left; reflexivity].
  apply toupper_P in HP. simpl.
  destruct HP as [HP|HP]; rewrite HP in *; destruct side;
    try discriminate Hown;
    simpl in Hprom;
    repeat (destruct Hprom as [<-|Hprom]); try contradiction;
    vm_compute;
    first [ left; reflexivity
          | right; repeat split; discriminate ].
Qed.

(** C1. Legality closure.  A move returned by [generate_legal_moves], played
    with [apply_move] on a copy of the board, leaves the mover's king out of
    check, and so does the same move carrying a promotion choice 'Q', 'R',
    'B' or 'N' instead of none. *)
Theorem legal_moves_leave_king_safe
    (bd : Board) (white_turn : bool) (m : Move) (prom : ascii) :
  wf_board bd ->
  In m (generate_legal_moves bd white_turn) ->
  In prom [NUL; "Q"; "R"; "B"; "N"] ->
  is_in_check (apply_move (copy_board bd) m) white_turn = false /\
  is_in_check (apply_move (copy_board bd) (with_promotion m prom)) white_turn
  = false.
Proof.
  intros Hwf Hin Hprom. unfold copy_board.
  apply legal_is_pseudo_legal in Hin. destruct Hin as [Hps Hsafe].
  apply pseudo_legal_from in Hps. destruct Hps as (Hp & Hb & Hown).
  rewrite leaves_in_check_is_in_check, (simulate_apply_move _ _ Hp) in Hsafe.
  split; [exact Hsafe|].
  rewrite (is_in_check_sim white_turn _ (apply_move bd m)); [exact Hsafe|].
  now apply promotion_own_sim.
Qed.

Lemma legal_moves_leave_king_safe_witness :
  is_in_check (apply_move (copy_board pawn_on_seventh) (mkMove 1 0 0 0 NUL))
              true = false /\
  is_in_check (apply_move (copy_board pawn_on_seventh)
                 (with_promotion (mkMove 1 0 0 0 NUL) "N")) true = false.
Proof.
  apply (legal_moves_leave_king_safe pawn_on_seventh true
           (mkMove 1 0 0 0 NUL) "N").
  - split; [reflexivity | repeat constructor].
  - vm_compute. tauto.
  - simpl. tauto.
Defined.

(** ** Scores stay far inside the [int] range *)

Lemma piece_value_bounds p : 0 <= piece_value p <= 20000.
Proof.
  unfold piece_value. cbv zeta.
  repeat match goal with |- context [if ?c then _ else _] => destruct c end;
    lia.
Qed.

Lemma fold_drift {C : Type} (g : Z -> C -> Z) (k : Z) (l : list C) :
  (forall a c, a - k <= g a c <= a + k) ->
  forall a,
    a - k * Z.of_nat (length l) <= fold_left g l a
    <= a + k * Z.of_nat (length l).
Proof.
  intros Hg. induction l as [|c l IH]; intros a.
  - simpl. lia.
  - cbn [fold_left length]. specialize (IH (g a c)). specialize (Hg a c). lia.
Qed.

Lemma evaluate_board_bounds bd :
  - SCORE_MAX <= evaluate_board bd <= SCORE_MAX.
Proof.
  unfold evaluate_board.
  match goal with |- _ <= fold_left ?g _ _ <= _ =>
    pose proof (fold_drift g 20000 cells) as H
  end.
  change (length cells) with 64%nat in H. unfold SCORE_MAX.
  assert (forall a c,
            a - 20000
            <= (let p := cell bd (fst c) (snd c) in
                if Ascii.eqb p "." then a
                else let val := piece_value p in
                     if is_white p then a + val else a - val)
            <= a + 20000) as Hstep.
  { intros a c. cbv zeta.
    pose proof (piece_value_bounds (cell bd (fst c) (snd c))) as Hv.
    destruct (Ascii.eqb _ "."); [|destruct (is_white _)]; lia. }
  specialize (H Hstep 0). lia.
Qed.

Lemma leaf_score_bounds bd n mx :
  - SCORE_MAX <= leaf_score bd n mx <= SCORE_MAX.
Proof.
  unfold leaf_score.
  destruct (n =? 0)%nat; [|apply evaluate_board_bounds].
  destruct (is_in_check bd mx); destruct mx; unfold SCORE_MAX; lia.
Qed.

Lemma fold_max_ge (l : list Z) a : a <= fold_left Z.max l a.
Proof.
  revert a. induction l as [|x l IH]; intros a; simpl; [lia|].
  specialize (IH (Z.max a x)). lia.
Qed.

Lemma fold_min_le (l : list Z) a : fold_left Z.min l a <= a.
Proof.
  revert a. induction l as [|x l IH]; intros a; simpl; [lia|].
  specialize (IH (Z.min a x)). lia.
Qed.

Lemma fold_max_bounds (l : list Z) lo hi :
  Forall (fun x => lo <= x <= hi) l ->
  forall a, a <= hi -> (l <> [] \/ lo <= a) ->
  lo <= fold_left Z.max l a <= hi.
Proof.
  induction 1 as [|x l Hx Hl IH]; intros a Ha Hne; simpl.
  - destruct Hne as [Hne|Hne]; [contradiction | lia].
  - apply IH; [lia | right; lia].
Qed.

Lemma fold_min_bounds (l : list Z) lo hi :
  Forall (fun x => lo <= x <= hi) l ->
  forall a, lo <= a -> (l <> [] \/ a <= hi) ->
  lo <= fold_left Z.min l a <= hi.
Proof.
  induction 1 as [|x l Hx Hl IH]; intros a Ha Hne; simpl.
  - destruct Hne as [Hne|Hne]; [contradiction | lia].
  - apply IH; [lia | right; lia].
Qed.

Lemma length_eqb_0 {A : Type} (l : list A) :
  (length l =? 0)%nat = false -> l <> [].
Proof. destruct l; [discriminate | discriminate]. Qed.

Lemma full_minimax_bounds depth :
  forall bd mx, - SCORE_MAX <= full_minimax depth bd mx <= SCORE_MAX.
Proof.
  induction depth as [|d IH]; intros bd mx.
  - rewrite full_minimax_0. apply leaf_score_bounds.
  - rewrite full_minimax_S. cbv zeta. destruct (_ =? _)%nat eqn:Hn; [apply leaf_score_bounds|].
    apply length_eqb_0 in Hn.
    destruct mx.
    + apply fold_max_bounds.
      * apply Forall_forall. intros x Hx. apply list_elem_of_In in Hx.
        apply in_map_iff in Hx. destruct Hx as (m & <- & _). apply IH.
      * unfold INT_MIN, SCORE_MAX. lia.
      * left. now destruct (generate_legal_moves bd true).
    + apply fold_min_bounds.
      * apply Forall_forall. intros x Hx. apply list_elem_of_In in Hx.
        apply in_map_iff in Hx. destruct Hx as (m & <- & _). apply IH.
      * unfold INT_MAX, SCORE_MAX. lia.
      * left. now destruct (generate_legal_moves bd false).
Qed.

Section LoopBounds.
Variable rec : Board -> Z -> Z -> Z.
Variables lo hi : Z.
Hypothesis Hrec : forall b a bt, lo <= rec b a bt <= hi.

Lemma max_loop_bounds bd moves :
  forall M a bt, M <= hi -> (moves <> [] \/ lo <= M) ->
  lo <= max_loop rec bd moves M a bt <= hi.
Proof.
  induction moves as [|m rest IH]; intros M a bt HM Hne; simpl.
  - destruct Hne as [Hne|Hne]; [contradiction | lia].
  - pose proof (Hrec (apply_move (copy_board bd) m) a bt) as He.
    destruct (Z.gtb_spec (rec (apply_move (copy_board bd) m) a bt) M);
      destruct (_ <=? _); try lia; apply IH; try lia; right; lia.
Qed.

Lemma min_loop_bounds bd moves :
  forall M a bt, lo <= M -> (moves <> [] \/ M <= hi) ->
  lo <= min_loop rec bd moves M a bt <= hi.
Proof.
  induction moves as [|m rest IH]; intros M a bt HM Hne; simpl.
  - destruct Hne as [Hne|Hne]; [contradiction | lia].
  - pose proof (Hrec (apply_move (copy_board bd) m) a bt) as He.
    destruct (Z.ltb_spec (rec (apply_move (copy_board bd) m) a bt) M);
      destruct (_ <=? _); try lia; apply IH; try lia; right; lia.
Qed.
End LoopBounds.

(** Every value [minimax] returns is a material score or a mate score. *)
Lemma minimax_bounds depth :
  forall bd alpha beta mx,
    - SCORE_MAX <= minimax depth bd alpha beta mx <= SCORE_MAX.
Proof.
  induction depth as [|d IH]; intros bd alpha beta mx.
  - rewrite minimax_0. apply leaf_score_bounds.
  - rewrite minimax_S. cbv zeta.
    destruct (_ =? _)%nat eqn:Hn; [apply leaf_score_bounds|].
    apply length_eqb_0 in Hn. destruct mx.
    + apply max_loop_bounds; [intros; apply IH | | now left].
      unfold INT_MIN, SCORE_MAX. lia.
    + apply min_loop_bounds; [intros; apply IH | | now left].
      unfold INT_MAX, SCORE_MAX. lia.
Qed.

(** ** Pruning does not change the value *)

Lemma window_ok_exact alpha beta v : window_ok alpha beta v v.
Proof. unfold window_ok. lia. Qed.

Section Pruning.
(** [rec] is the pruning search of the children and [tru] their unpruned
    value; the pruning search keeps its promise on every window that fits
    an [int]. *)
Variable rec : Board -> Z -> Z -> Z.
Variable tru : Board -> Z.
Hypothesis Hrec : forall b a bt,
  INT_MIN <= a -> bt <= INT_MAX -> a < bt -> window_ok a bt (rec b a bt) (tru b).

Variables (bd : Board) (alpha0 beta0 : Z).
Hypothesis Halpha : INT_MIN <= alpha0.
Hypothesis Hbeta : beta0 <= INT_MAX.

(** The maximizing loop, entered with best value [M], raised bound [a] and
    [T] the maximum of the unpruned values of the children already seen. *)
Lemma max_loop_ok moves :
  forall M a T,
    a = Z.max alpha0 M -> a < beta0 -> T <= M -> (alpha0 < M -> M = T) ->
    window_ok alpha0 beta0
      (max_loop rec bd moves M a beta0)
      (fold_left Z.max (map (fun m => tru (apply_move bd m)) moves) T).
Proof.
  induction moves as [|m rest IH]; intros M a T Ha Hab HT HM.
  - simpl. unfold window_ok. lia.
  - cbn [max_loop map fold_left]. unfold copy_board.
    set (e := rec (apply_move bd m) a beta0).
    set (tc := tru (apply_move bd m)).
    assert (window_ok a beta0 e tc) as (H1 & H2 & H3)
      by (apply Hrec; lia).
    pose proof (fold_max_ge
                  (map (fun m => tru (apply_move bd m)) rest) (Z.max T tc)) as Hge.
    destruct (Z.gtb_spec e M) as [HeM|HeM];
      destruct (Z.gtb_spec e a) as [Hea|Hea];
      match goal with
      | |- context [?b <=? ?x] => destruct (Z.leb_spec b x) as [Hbr|Hbr]
      end;
      try (unfold window_ok; lia);
      apply IH; lia.
Qed.

(** The minimizing loop, symmetrically. *)
Lemma min_loop_ok moves :
  forall M b T,
    b = Z.min beta0 M -> alpha0 < b -> M <= T -> (M < beta0 -> M = T) ->
    window_ok alpha0 beta0
      (min_loop rec bd moves M alpha0 b)
      (fold_left Z.min (map (fun m => tru (apply_move bd m)) moves) T).
Proof.
  induction moves as [|m rest IH]; intros M b T Hb Hab HT HM.
  - simpl. unfold window_ok. lia.
  - cbn [min_loop map fold_left]. unfold copy_board.
    set (e := rec (apply_move bd m) alpha0 b).
    set (tc := tru (apply_move bd m)).
    assert (window_ok alpha0 b e tc) as (H1 & H2 & H3)
      by (apply Hrec; lia).
    pose proof (fold_min_le
                  (map (fun m => tru (apply_move bd m)) rest) (Z.min T tc)) as Hle.
    destruct (Z.ltb_spec e M) as [HeM|HeM];
      destruct (Z.ltb_spec e b) as [Heb|Heb];
      match goal with
      | |- context [?x <=? ?a] => destruct (Z.leb_spec x a) as [Hbr|Hbr]
      end;
      try (unfold window_ok; lia);
      apply IH; lia.
Qed.
End Pruning.

(** The promise of the pruning search, on every window inside [int]. *)
Lemma minimax_window depth :
  forall bd alpha beta mx,
    INT_MIN <= alpha -> beta <= INT_MAX -> alpha < beta ->
    window_ok alpha beta (minimax depth bd alpha beta mx)
                         (full_minimax depth bd mx).
Proof.
  induction depth as [|d IH]; intros bd alpha beta mx Ha Hb Hab.
  - rewrite minimax_0, full_minimax_0. apply window_ok_exact.
  - rewrite minimax_S, full_minimax_S. cbv zeta. destruct (_ =? _)%nat; [apply window_ok_exact|].
    destruct mx.
    + apply (max_loop_ok (fun tmp a b => minimax d tmp a b false)
               (fun b => full_minimax d b false)); try lia.
      intros; now apply IH.
    + apply (min_loop_ok (fun tmp a b => minimax d tmp a b true)
               (fun b => full_minimax d b true)); try lia.
      intros; now apply IH.
Qed.

(** With the window of the root the value is exact. *)
Lemma minimax_root_exact depth bd mx :
  minimax depth bd (Z.quot INT_MIN 2) (Z.quot INT_MAX 2) mx
  = full_minimax depth bd mx.
Proof.
  change (Z.quot INT_MIN 2) with (-1073741824).
  change (Z.quot INT_MAX 2) with 1073741823.
  pose proof (full_minimax_bounds depth bd mx) as Ht.
  destruct (minimax_window depth bd (-1073741824) 1073741823 mx)
    as (H1 & H2 & H3); try (unfold INT_MIN, INT_MAX; lia).
  unfold SCORE_MAX in Ht. lia.
Qed.

(** C2. Alpha-beta equivalence.  Called with the window of the program,
    [alpha = INT_MIN/2] and [beta = INT_MAX/2], the pruning search returns
    the value of the unpruned search of the same depth, for every board,
    depth and side to move. *)
Theorem alpha_beta_equals_full_minimax
    (depth : nat) (bd : Board) (maximizingPlayer : bool) :
  minimax depth bd (Z.quot INT_MIN 2) (Z.quot INT_MAX 2) maximizingPlayer
  = full_minimax depth bd maximizingPlayer.
Proof. apply minimax_root_exact. Qed.

(** ** The root loop *)

(** The loop that keeps the best score and move, entered with [(bs, b)]:
    either no move of the list beats [bs] and the state is unchanged, or the
    state is the first move of the list with the best score, which beats
    [bs]. *)
Lemma root_loop_best (white_turn : bool) (score : Move -> Z) (moves : list Move) :
  forall bs b,
    let res :=
      fold_left
        (fun (st : Z * Move) m =>
           let bestScore := fst st in
           let best := snd st in
           let score := score m in
           if white_turn then
             if score >? bestScore then (score, m) else (bestScore, best)
           else
             if score <? bestScore then (score, m) else (bestScore, best))
        moves (bs, b) in
    (res = (bs, b) /\
     forall m, In m moves -> no_worse white_turn bs (score m)) \/
    (exists (i : nat) m,
        moves !! i = Some m /\ res = (score m, m) /\
        better white_turn (score m) bs /\
        (forall (j : nat) m', moves !! j = Some m' ->
           no_worse white_turn (score m) (score m')) /\
        (forall (j : nat) m', (j < i)%nat -> moves !! j = Some m' ->
           better white_turn (score m) (score m'))).
Proof.
  induction moves as [|m rest IH]; intros bs b res; subst res.
  - left. split; [reflexivity | intros m []].
  - cbn [fold_left]. cbv zeta. cbn [fst snd].
    assert (forall bs' b',
      (if white_turn
       then if score m >? bs then (score m, m) else (bs, b)
       else if score m <? bs then (score m, m) else (bs, b)) = (bs', b') ->
      (bs' = bs /\ b' = b /\ no_worse white_turn bs (score m)) \/
      (bs' = score m /\ b' = m /\ better white_turn (score m) bs)) as Hstep.
    { intros bs' b'. unfold no_worse, better. destruct white_turn.
      - destruct (Z.gtb_spec (score m) bs); intros [= <- <-];
          [right | left]; repeat split; lia.
      - destruct (Z.ltb_spec (score m) bs); intros [= <- <-];
          [right | left]; repeat split; lia. }
    destruct (if white_turn
              then if score m >? bs then (score m, m) else (bs, b)
              else if score m <? bs then (score m, m) else (bs, b))
      as [bs' b'] eqn:Hst.
    specialize (Hstep bs' b' eq_refl).
    specialize (IH bs' b'). cbv zeta in IH.
    destruct Hstep as [(-> & -> & Hm)|(-> & -> & Hm)];
      destruct IH as [[Hres Hall]|(i & x & Hi & Hres & Hx & Hmax & Hfirst)].
    + left. split; [exact Hres|]. intros y [<-|Hy]; auto.
    + right. exists (S i), x. repeat split; auto.
      * intros [|j] m'; simpl; [intros [= <-]|apply Hmax].
        unfold no_worse, better in *. destruct white_turn; lia.
      * intros [|j] m' Hj; simpl; [intros [= <-]|apply Hfirst; lia].
        unfold no_worse, better in *. destruct white_turn; lia.
    + right. exists 0%nat, m. repeat split; auto.
      * intros [|j] m'; simpl; [intros [= <-]|].
        -- unfold no_worse. destruct white_turn; lia.
        -- intros Hj. apply Hall. apply list_elem_of_In.
           eapply list_elem_of_lookup_2; eauto.
      * intros j m' Hj. lia.
    + right. exists (S i), x. repeat split; auto.
      * unfold no_worse, better in *. destruct white_turn; lia.
      * intros [|j] m'; simpl; [intros [= <-]|apply Hmax].
        unfold no_worse, better in *. destruct white_turn; lia.
      * intros [|j] m' Hj; simpl; [intros [= <-]|apply Hfirst; lia].
        exact Hx.
Qed.

(** C4. Move selector.  With no legal move [choose_ai_move] returns the
    sentinel [{0,0,0,0,'\0'}].  Otherwise it returns a legal move, the first
    in generation order whose score is the maximum (White) or the minimum
    (Black) over all legal moves, the score of a move being the value of the
    search of depth [AI_DEPTH - 1] on the position after the move with the
    opponent to move, which is the value of the unpruned search of that
    depth. *)
Theorem choose_ai_move_contract (AI_DEPTH : Z) (bd : Board) (white_turn : bool) :
  1 <= AI_DEPTH ->
  (generate_legal_moves bd white_turn = [] ->
   choose_ai_move AI_DEPTH bd white_turn = no_move) /\
  (generate_legal_moves bd white_turn <> [] ->
   exists i : nat,
     generate_legal_moves bd white_turn !! i
     = Some (choose_ai_move AI_DEPTH bd white_turn) /\
     (forall (j : nat) m', generate_legal_moves bd white_turn !! j = Some m' ->
        no_worse white_turn
          (root_score AI_DEPTH bd white_turn (choose_ai_move AI_DEPTH bd white_turn))
          (root_score AI_DEPTH bd white_turn m')) /\
     (forall (j : nat) m', (j < i)%nat ->
        generate_legal_moves bd white_turn !! j = Some m' ->
        better white_turn
          (root_score AI_DEPTH bd white_turn (choose_ai_move AI_DEPTH bd white_turn))
          (root_score AI_DEPTH bd white_turn m'))) /\
  (forall m,
     root_score AI_DEPTH bd white_turn m
     = full_minimax (Z.to_nat (AI_DEPTH - 1)) (apply_move bd m) (negb white_turn)).
Proof.
  intros _. split; [|split].
  - intros H. unfold choose_ai_move. rewrite H. reflexivity.
  - intros Hne. unfold choose_ai_move. cbv zeta.
    destruct (generate_legal_moves bd white_turn) as [|m0 rest] eqn:Hm;
      [contradiction|].
    cbn [length Nat.eqb].
    destruct (root_loop_best white_turn (root_score AI_DEPTH bd white_turn)
                (m0 :: rest) (if white_turn then INT_MIN else INT_MAX) no_move)
      as [[_ Hall]|(i & x & Hi & Hres & _ & Hmax & Hfirst)].
    + exfalso. specialize (Hall m0 (or_introl eq_refl)).
      pose proof (minimax_bounds (Z.to_nat (AI_DEPTH - 1))
                    (apply_move (copy_board bd) m0)
                    (Z.quot INT_MIN 2) (Z.quot INT_MAX 2) (negb white_turn)) as Hb.
      fold (root_score AI_DEPTH bd white_turn m0) in Hb.
      unfold no_worse, SCORE_MAX, INT_MIN, INT_MAX in *.
      destruct white_turn; lia.
    + cbv zeta in Hres. rewrite Hres. cbn [snd].
      exists i. repeat split; auto.
  - intros m. unfold root_score, copy_board. apply minimax_root_exact.
Qed.

Lemma choose_ai_move_contract_witness :
  choose_ai_move 3 fools_mate true = no_move /\
  exists i : nat,
    generate_legal_moves pawn_on_seventh true !! i
    = Some (choose_ai_move 1 pawn_on_seventh true).
Proof.
  split.
  - apply (proj1 (choose_ai_move_contract 3 fools_mate true ltac:(lia))).
    vm_compute. reflexivity.
  - destruct (proj1 (proj2 (choose_ai_move_contract 1 pawn_on_seventh true
                              ltac:(lia))))
      as (i & Hi & _).
    + vm_compute. discriminate.
    + exists i. exact Hi.
Defined.

(** ** The store of boards *)

Lemma nth_top (st : Store) (x : Board) : nth (length st) (st ++ [x]) [] = x.
Proof. rewrite nth_lookup, list_lookup_middle; reflexivity. Qed.

Lemma nth_below (st : Store) (x : Board) (p : Ptr) :
  (p < length st)%nat -> nth p (st ++ [x]) [] = nth p st [].
Proof. intros H. now rewrite !nth_lookup, lookup_app_l. Qed.

Lemma insert_top (st : Store) (x y : Board) :
  <[length st := y]> (st ++ [x]) = st ++ [y].
Proof.
  replace (length st) with (length st + 0)%nat at 1 by lia.
  now rewrite insert_app_r.
Qed.

Lemma write_top (st : Store) (x : Board) r f c :
  write (length st) r f c (st ++ [x]) = (tt, st ++ [set_cell x r f c]).
Proof. unfold write. now rewrite nth_top, insert_top. Qed.

Lemma read_top (st : Store) (x : Board) r f :
  read (length st) r f (st ++ [x]) = (cell x r f, st ++ [x]).
Proof. unfold read. now rewrite nth_top. Qed.

Lemma copy_board_top (st : Store) (x : Board) (bd : Ptr) :
  (bd < length st)%nat ->
  copy_board_st (length st) bd (st ++ [x]) = (tt, st ++ [copy_board (nth bd st [])]).
Proof. intros H. unfold copy_board_st. now rewrite nth_below, insert_top. Qed.

(** In a frame whose top slot is the local board, [apply_move(&tmp, m)]
    changes that slot only, into [apply_move] of its value. *)
Lemma apply_move_top (st : Store) (x : Board) m :
  apply_move_st (length st) m (st ++ [x]) = (tt, st ++ [apply_move x m]).
Proof.
  unfold apply_move_st, apply_move, bind. rewrite read_top. cbn [fst snd].
  rewrite write_top. cbn [fst snd]. cbv zeta.
  destruct (Ascii.eqb (toupper (cell x (r1 m) (f1 m))) "P"
            && ((r2 m =? 0) || (r2 m =? 7)));
    destruct (Ascii.eqb (promotion m) NUL); cbn [andb negb];
    apply write_top.
Qed.

Lemma filter_top (st : Store) (bd : Ptr) wt all :
  (bd < length st)%nat ->
  forall out x, exists x',
    filter_st (length st) bd wt all out (st ++ [x])
    = (fold_left
         (fun out m =>
            if leaves_in_check (simulate (nth bd st []) m) wt then out
            else push MAX_MOVES out m)
         all out,
       st ++ [x']).
Proof.
  intros Hbd. induction all as [|m rest IH]; intros out x.
  - exists x. reflexivity.
  - cbn [filter_st fold_left]. unfold bind.
    rewrite (copy_board_top st x bd Hbd). cbn [fst snd].
    rewrite read_top. cbn [fst snd]. rewrite read_top. cbn [fst snd].
    rewrite write_top. cbn [fst snd].
    assert (exists y,
      (if Ascii.eqb (toupper (cell (copy_board (nth bd st [])) (r1 m) (f1 m))) "P"
          && ((r2 m =? 0) || (r2 m =? 7))
       then write (length st) (r2 m) (f2 m)
              (if is_white (cell (copy_board (nth bd st [])) (r1 m) (f1 m))
               then "Q" else "q")
       else write (length st) (r2 m) (f2 m)
              (cell (copy_board (nth bd st [])) (r1 m) (f1 m)))
        (st ++ [set_cell (copy_board (nth bd st [])) (r1 m) (f1 m) "."])
      = (tt, st ++ [y]) /\ y = simulate (nth bd st []) m) as (y & -> & ->).
    { unfold simulate. cbv zeta.
      destruct (Ascii.eqb _ "P" && _); rewrite write_top; eauto. }
    cbn [fst snd]. unfold deref at 1. rewrite nth_top. cbn [fst snd].
    apply IH.
Qed.

Lemma with_tmp_top {A : Type} junk (body : Ptr -> M A) (st : Store) a x :
  body (length st) (st ++ [junk]) = (a, st ++ [x]) ->
  with_tmp junk body st = (a, st).
Proof.
  intros H. unfold with_tmp. rewrite H. cbn [fst snd].
  now rewrite take_app_length.
Qed.

Lemma bind_run {A B : Type} (c : M A) (k : A -> M B) st :
  bind c k st = k (fst (c st)) (snd (c st)).
Proof. reflexivity. Qed.

Lemma deref_run p (st : Store) : deref p st = (nth p st [], st).
Proof. reflexivity. Qed.

Lemma generate_legal_moves_st_spec junk (st : Store) (bd : Ptr) wt :
  (bd < length st)%nat ->
  generate_legal_moves_st junk bd wt st
  = (generate_legal_moves (nth bd st []) wt, st).
Proof.
  intros Hbd. unfold generate_legal_moves_st, generate_legal_moves.
  rewrite bind_run, deref_run. cbn [fst snd].
  destruct (filter_top st bd wt (pseudo_legal (nth bd st []) wt) Hbd [] junk)
    as [x Hx].
  apply (with_tmp_top junk _ st _ x Hx).
Qed.

Lemma leaf_score_st_spec (st : Store) (bd : Ptr) n mx :
  leaf_score_st bd n mx st = (leaf_score (nth bd st []) n mx, st).
Proof.
  unfold leaf_score_st, leaf_score, is_in_check_st, evaluate_board_st,
    bind, deref, ret.
  cbn [fst snd]. destruct (n =? 0)%nat; [|reflexivity].
  destruct (is_in_check _ _); reflexivity.
Qed.

Section LoopsOnStore.
Variable rec_st : Ptr -> Z -> Z -> M Z.
Variable rec : Board -> Z -> Z -> Z.
Hypothesis Hrec : forall (st : Store) p a b,
  (p < length st)%nat -> rec_st p a b st = (rec (nth p st []) a b, st).

Lemma max_loop_top (st : Store) (bd : Ptr) moves :
  (bd < length st)%nat ->
  forall M a bt x, exists x',
    max_loop_st rec_st (length st) bd moves M a bt (st ++ [x])
    = (max_loop rec (nth bd st []) moves M a bt, st ++ [x']).
Proof.
  intros Hbd. induction moves as [|m rest IH]; intros M a bt x.
  - exists x. reflexivity.
  - cbn [max_loop_st max_loop]. unfold bind.
    rewrite (copy_board_top st x bd Hbd). cbn [fst snd].
    rewrite apply_move_top. cbn [fst snd].
    rewrite Hrec by (rewrite length_app; simpl; lia).
    cbn [fst snd]. rewrite nth_top.
    destruct (_ <=? _); [|apply IH].
    eexists. reflexivity.
Qed.

Lemma min_loop_top (st : Store) (bd : Ptr) moves :
  (bd < length st)%nat ->
  forall M a bt x, exists x',
    min_loop_st rec_st (length st) bd moves M a bt (st ++ [x])
    = (min_loop rec (nth bd st []) moves M a bt, st ++ [x']).
Proof.
  intros Hbd. induction moves as [|m rest IH]; intros M a bt x.
  - exists x. reflexivity.
  - cbn [min_loop_st min_loop]. unfold bind.
    rewrite (copy_board_top st x bd Hbd). cbn [fst snd].
    rewrite apply_move_top. cbn [fst snd].
    rewrite Hrec by (rewrite length_app; simpl; lia).
    cbn [fst snd]. rewrite nth_top.
    destruct (_ <=? _); [|apply IH].
    eexists. reflexivity.
Qed.
End LoopsOnStore.

(** The search on the store returns the value of [minimax] on the board its
    pointer designates and leaves the store as it found it. *)
Lemma minimax_st_spec junk depth :
  forall (st : Store) (bd : Ptr) alpha beta mx,
    (bd < length st)%nat ->
    minimax_st junk depth bd alpha beta mx st
    = (minimax depth (nth bd st []) alpha beta mx, st).
Proof.
  induction depth as [|d IH]; intros st bd alpha beta mx Hbd.
  - cbn [minimax_st]. unfold bind.
    rewrite generate_legal_moves_st_spec by exact Hbd. cbn [fst snd].
    now rewrite leaf_score_st_spec, minimax_0.
  - cbn [minimax_st]. unfold bind.
    rewrite generate_legal_moves_st_spec by exact Hbd. cbn [fst snd].
    rewrite minimax_S. cbv zeta.
    destruct (_ =? _)%nat; [apply leaf_score_st_spec|].
    destruct mx.
    + destruct (max_loop_top (fun p a b => minimax_st junk d p a b false)
                  (fun tmp a b => minimax d tmp a b false)
                  ltac:(intros; now apply IH) st bd
                  (generate_legal_moves (nth bd st []) true) Hbd
                  INT_MIN alpha beta junk) as [x Hx].
      now rewrite (with_tmp_top junk _ st _ x Hx).
    + destruct (min_loop_top (fun p a b => minimax_st junk d p a b true)
                  (fun tmp a b => minimax d tmp a b true)
                  ltac:(intros; now apply IH) st bd
                  (generate_legal_moves (nth bd st []) false) Hbd
                  INT_MAX alpha beta junk) as [x Hx].
      now rewrite (with_tmp_top junk _ st _ x Hx).
Qed.

Lemma root_loop_top junk AI_DEPTH (st : Store) (bd : Ptr) wt moves :
  (bd < length st)%nat ->
  forall bs b x, exists x',
    root_loop_st junk AI_DEPTH (length st) bd wt moves bs b (st ++ [x])
    = (snd (fold_left
              (fun (s : Z * Move) m =>
                 let bestScore := fst s in
                 let best := snd s in
                 let score := root_score AI_DEPTH (nth bd st []) wt m in
                 if wt then
                   if score >? bestScore then (score, m) else (bestScore, best)
                 else
                   if score <? bestScore then (score, m) else (bestScore, best))
              moves (bs, b)),
       st ++ [x']).
Proof.
  intros Hbd. induction moves as [|m rest IH]; intros bs b x.
  - exists x. reflexivity.
  - cbn [root_loop_st fold_left]. unfold bind.
    rewrite (copy_board_top st x bd Hbd). cbn [fst snd].
    rewrite apply_move_top. cbn [fst snd].
    rewrite minimax_st_spec by (rewrite length_app; simpl; lia).
    cbn [fst snd]. rewrite nth_top. cbv zeta.
    fold (root_score AI_DEPTH (nth bd st []) wt m).
    destruct wt.
    + destruct (_ >? _); apply IH.
    + destruct (_ <? _); apply IH.
Qed.

Lemma choose_ai_move_st_spec junk AI_DEPTH (st : Store) (bd : Ptr) wt :
  (bd < length st)%nat ->
  choose_ai_move_st junk AI_DEPTH bd wt st
  = (choose_ai_move AI_DEPTH (nth bd st []) wt, st).
Proof.
  intros Hbd. unfold choose_ai_move_st, choose_ai_move, bind.
  rewrite generate_legal_moves_st_spec by exact Hbd. cbn [fst snd]. cbv zeta.
  destruct (_ =? _)%nat; [reflexivity|].
  destruct (root_loop_top junk AI_DEPTH st bd wt
              (generate_legal_moves (nth bd st []) wt) Hbd
              (if wt then INT_MIN else INT_MAX) no_move junk) as [x Hx].
  now rewrite (with_tmp_top junk _ st _ x Hx).
Qed.

(** C9. The analysed position is not mutated.  Run on a store of boards with
    a valid pointer [bd], each of [generate_legal_moves], [is_in_check],
    [evaluate_board], [minimax] and [choose_ai_move] returns with the store
    as it was at the call, so every cell of [*bd] (and of every other board
    of the caller) is unchanged: the simulated moves were played on local
    copies only.  The value returned is that of the function of the same
    name on the board [bd] designates. *)
Theorem analysis_preserves_board
    (junk : Board) (st : Store) (bd : Ptr)
    (white_turn : bool) (depth : nat) (alpha beta AI_DEPTH : Z) :
  (bd < length st)%nat ->
  generate_legal_moves_st junk bd white_turn st
  = (generate_legal_moves (nth bd st []) white_turn, st) /\
  is_in_check_st bd white_turn st = (is_in_check (nth bd st []) white_turn, st) /\
  evaluate_board_st bd st = (evaluate_board (nth bd st []), st) /\
  minimax_st junk depth bd alpha beta white_turn st
  = (minimax depth (nth bd st []) alpha beta white_turn, st) /\
  choose_ai_move_st junk AI_DEPTH bd white_turn st
  = (choose_ai_move AI_DEPTH (nth bd st []) white_turn, st).
Proof.
  intros Hbd. repeat split.
  - now apply generate_legal_moves_st_spec.
  - now apply minimax_st_spec.
  - now apply choose_ai_move_st_spec.
Qed.

Lemma analysis_preserves_board_witness :
  generate_legal_moves_st [] 0%nat true [init_board]
  = (generate_legal_moves init_board true, [init_board]) /\
  is_in_check_st 0%nat true [init_board]
  = (is_in_check init_board true, [init_board]) /\
  evaluate_board_st 0%nat [init_board]
  = (evaluate_board init_board, [init_board]) /\
  minimax_st [] 2 0%nat (Z.quot INT_MIN 2) (Z.quot INT_MAX 2) true [init_board]
  = (minimax 2 init_board (Z.quot INT_MIN 2) (Z.quot INT_MAX 2) true,
     [init_board]) /\
  choose_ai_move_st [] 3 0%nat true [init_board]
  = (choose_ai_move 3 init_board true, [init_board]).
Proof.
  apply (analysis_preserves_board [] [init_board] 0%nat true 2
           (Z.quot INT_MIN 2) (Z.quot INT_MAX 2) 3).
  simpl. lia.
Defined.

(** ** The positions of the examples *)

Example fools_mate_is_mate :
  generate_legal_moves fools_mate true = [] /\ is_in_check fools_mate true = true.
Proof. split; vm_compute; reflexivity. Qed.

Example stalemate_is_drawn :
  generate_legal_moves stalemate false = []
  /\ is_in_check stalemate false = false
  /\ minimax 2 stalemate (Z.quot INT_MIN 2) (Z.quot INT_MAX 2) false = 0.
Proof. repeat split; vm_compute; reflexivity. Qed.

Example start_two_plies :
  fold_left
    (fun n m =>
       (n + length (generate_legal_moves (apply_move init_board m) false))%nat)
    (generate_legal_moves init_board true) 0%nat
  = 400%nat.
Proof. vm_compute. reflexivity. Qed.

(** * Further properties of the program *)

(** ** Characters as numbers *)

Lemma code_range c : 0 <= code c < 256.
Proof.
  unfold code. pose proof (N_ascii_bounded c) as H. lia.
Qed.

Lemma char_of_int_code c : char_of_int (code c) = c.
Proof.
  unfold char_of_int. pose proof (code_range c) as H.
  rewrite Z.mod_small by lia. unfold code. rewrite N2Z.id.
  apply ascii_N_embedding.
Qed.

Lemma code_char_of_int z : code (char_of_int z) = z mod 256.
Proof.
  unfold char_of_int, code.
  pose proof (Z.mod_pos_bound z 256 ltac:(lia)) as H.
  rewrite N_ascii_embedding by lia. lia.
Qed.

Lemma code_inj c d : code c = code d -> c = d.
Proof. intros H. rewrite <- (char_of_int_code c), H. apply char_of_int_code. Qed.

Lemma eqb_NUL_code c : Ascii.eqb c NUL = (code c =? 0).
Proof.
  destruct (Ascii.eqb_spec c NUL) as [->|Hne]; [reflexivity|].
  destruct (Z.eqb_spec (code c) 0) as [H|H]; [|reflexivity].
  exfalso. apply Hne. apply code_inj. exact H.
Qed.

(** ** Squares in algebraic notation *)

Lemma alg_to_coords_accepts (s : list ascii) (r f : Z) :
  alg_to_coords (Some s) = Some (r, f) <->
  (exists rest,
      s = char_of_int (code "a" + f) :: char_of_int (code "0" + (8 - r)) :: rest)
  /\ in_bounds r f = true.
Proof.
  unfold alg_to_coords. split.
  - destruct s as [|c0 [|c1 rest]]; simpl; try discriminate.
    { destruct (Ascii.eqb c0 NUL); discriminate. }
    destruct (Ascii.eqb c0 NUL); [discriminate|].
    destruct (Ascii.eqb c1 NUL); [discriminate|]. simpl.
    change (code "a") with 97. change (code "h") with 104.
    change (code "1") with 49. change (code "8") with 56.
    change (code "0") with 48.
    destruct (Z.ltb_spec (code c0) 97); [discriminate|].
    destruct (Z.gtb_spec (code c0) 104); [discriminate|].
    destruct (Z.ltb_spec (code c1) 49); [discriminate|].
    destruct (Z.gtb_spec (code c1) 56); [discriminate|]. simpl.
    intros [= <- <-]. split.
    + exists rest. f_equal; [|f_equal].
      * replace (97 + (code c0 - 97)) with (code c0) by lia.
        symmetry. apply char_of_int_code.
      * replace (48 + (8 - (8 - (code c1 - 48)))) with (code c1) by lia.
        symmetry. apply char_of_int_code.
    + apply in_bounds_iff. lia.
  - intros [[rest ->] Hb]. apply in_bounds_iff in Hb.
    change (code "a") with 97. change (code "h") with 104.
    change (code "1") with 49. change (code "8") with 56.
    change (code "0") with 48.
    cbn [strlen nth]. rewrite !eqb_NUL_code, !code_char_of_int.
    rewrite !Z.mod_small by lia.
    destruct (Z.eqb_spec (97 + f) 0); [lia|].
    destruct (Z.eqb_spec (48 + (8 - r)) 0); [lia|].
    cbn [Nat.ltb Nat.leb]. cbv zeta.
    destruct (Z.ltb_spec (97 + f) 97); [lia|].
    destruct (Z.gtb_spec (97 + f) 104); [lia|].
    destruct (Z.ltb_spec (48 + (8 - r)) 49); [lia|].
    destruct (Z.gtb_spec (48 + (8 - r)) 56); [lia|]. simpl.
    f_equal. f_equal; lia.
Qed.

(** ** Reading a move *)

Lemma strlen_le (s : list ascii) : (strlen s <= length s)%nat.
Proof.
  induction s as [|c s IH]; simpl; [lia|].
  destruct (Ascii.eqb c NUL); lia.
Qed.

Lemma strlen_no_NUL (s : list ascii) :
  Forall (fun c => c <> NUL) s -> strlen s = length s.
Proof.
  induction 1 as [|c s Hc Hs IH]; simpl; [reflexivity|].
  destruct (Ascii.eqb_spec c NUL); [contradiction | now rewrite IH].
Qed.

Lemma cstr_no_NUL (s : list ascii) : Forall (fun c => c <> NUL) (cstr s).
Proof.
  unfold cstr. induction s as [|c s IH]; simpl; [constructor|].
  destruct (Ascii.eqb_spec c NUL); [constructor|].
  simpl. constructor; assumption.
Qed.

Lemma filter_no_NUL (t : ascii -> bool) (s : list ascii) :
  Forall (fun c => c <> NUL) s -> Forall (fun c => c <> NUL) (List.filter t s).
Proof.
  induction 1 as [|c s Hc Hs IH]; simpl; [constructor|].
  destruct (t c); [constructor|]; assumption.
Qed.

Lemma cstr_filter_nonspace (s : list ascii) :
  cstr (List.filter (fun c => negb (isspace c)) s)
  = List.filter (fun c => negb (isspace c)) (cstr s).
Proof.
  unfold cstr. induction s as [|c s IH]; [reflexivity|].
  cbn [List.filter strlen].
  destruct (Ascii.eqb_spec c NUL) as [->|Hc].
  - reflexivity.
  - destruct (negb (isspace c)) eqn:Hs.
    + cbn [strlen take List.filter].
      destruct (Ascii.eqb_spec c NUL); [contradiction|].
      cbn [take List.filter]. rewrite Hs. now rewrite IH.
    + cbn [take List.filter]. rewrite Hs. exact IH.
Qed.

Lemma filter_filter_same {A : Type} (t : A -> bool) (l : list A) :
  List.filter t (List.filter t l) = List.filter t l.
Proof.
  induction l as [|x l IH]; simpl; [reflexivity|].
  destruct (t x) eqn:Hx; simpl; rewrite ?Hx, IH; reflexivity.
Qed.

(** The copy loop leaves in [tmp] the first 31 significant characters. *)
Lemma strip_loop_take (line : list ascii) :
  forall tmp, (length tmp < 31)%nat ->
  strip_loop line tmp
  = take 31 (tmp ++ List.filter (fun c => negb (isspace c)) line).
Proof.
  induction line as [|c rest IH]; intros tmp Hlen.
  - simpl. rewrite app_nil_r. now rewrite take_ge by lia.
  - cbn [strip_loop List.filter]. destruct (negb (isspace c)).
    + destruct (Nat.leb_spec 31 (length (tmp ++ [c]))) as [H|H].
      * replace (tmp ++ c :: List.filter (fun c => negb (isspace c)) rest)
          with ((tmp ++ [c]) ++ List.filter (fun c => negb (isspace c)) rest)
          by (now rewrite <- app_assoc).
        rewrite take_app_le by exact H.
        rewrite length_app in H. simpl in H.
        rewrite take_ge by (rewrite length_app; simpl; lia). reflexivity.
      * rewrite IH by exact H. now rewrite <- app_assoc.
    + destruct (Nat.leb_spec 31 (length tmp)); [lia|]. now apply IH.
Qed.

Lemma parse_tmp (line : list ascii) :
  strip_loop (take (strlen line) line) [] = take 31 (significant line).
Proof. rewrite strip_loop_take by (simpl; lia). reflexivity. Qed.

(** Two lines whose [tmp] buffers agree on what the parser tests parse
    alike. *)
Lemma parse_move_input_congr (l1 l2 : list ascii) :
  let t1 := strip_loop (take (strlen l1) l1) [] in
  let t2 := strip_loop (take (strlen l2) l2) [] in
  (length t1 <? 4)%nat = (length t2 <? 4)%nat ->
  (5 <=? length t1)%nat = (5 <=? length t2)%nat ->
  (forall i, (i < 5)%nat -> nth i t1 NUL = nth i t2 NUL) ->
  parse_move_input l1 = parse_move_input l2.
Proof.
  intros t1 t2 H4 H5 Hn. unfold parse_move_input. cbv zeta.
  fold t1 t2. rewrite H4, H5, !Hn by lia. reflexivity.
Qed.

Lemma significant_take5 (line : list ascii) :
  significant (take 5 (significant line)) = take 5 (significant line).
Proof.
  unfold significant at 1.
  assert (Forall (fun c => c <> NUL) (take 5 (significant line))) as Hn.
  { apply Forall_take. unfold significant. apply filter_no_NUL, cstr_no_NUL. }
  unfold cstr. rewrite (strlen_no_NUL _ Hn), firstn_all.
  unfold significant.
  generalize (cstr line). intros l. clear Hn.
  assert (forall n, List.filter (fun c => negb (isspace c))
                      (take n (List.filter (fun c => negb (isspace c)) l))
                    = take n (List.filter (fun c => negb (isspace c)) l)) as H.
  { induction l as [|x l IH]; intros n; simpl; [now destruct n|].
    destruct (negb (isspace x)) eqn:Hx; [|apply IH].
    destruct n; simpl; [reflexivity|]. now rewrite Hx, IH. }
  apply H.
Qed.

(** X1. A square is accepted by [alg_to_coords] exactly when its text starts
    with a file letter 'a'..'h' followed by a rank digit '1'..'8'; the
    coordinates returned are then inside the board, file 'a' being column 0
    and rank '8' row 0.  A null pointer and a text of fewer than two
    characters are rejected. *)
Theorem alg_to_coords_domain (s : list ascii) (r f : Z) :
  (alg_to_coords (Some s) = Some (r, f) <->
   (exists rest,
       s = char_of_int (code "a" + f) :: char_of_int (code "0" + (8 - r)) :: rest)
   /\ in_bounds r f = true)
  /\ alg_to_coords None = None
  /\ ((strlen s < 2)%nat -> alg_to_coords (Some s) = None).
Proof.
  split; [apply alg_to_coords_accepts|]. split; [reflexivity|].
  intros H. unfold alg_to_coords.
  destruct (Nat.ltb_spec (strlen s) 2); [reflexivity | lia].
Qed.

Lemma alg_to_coords_domain_witness :
  alg_to_coords (Some (list_ascii_of_string "e")) = None.
Proof.
  apply (proj2 (proj2 (alg_to_coords_domain (list_ascii_of_string "e") 0 0))).
  simpl. lia.
Defined.

Lemma alg_to_coords_square_text r f :
  in_bounds r f = true -> alg_to_coords (Some (square_text r f)) = Some (r, f).
Proof.
  intros H. apply alg_to_coords_accepts. split; [|exact H].
  exists [NUL]. reflexivity.
Qed.

(** X2. Round trip of a square: the two characters [print_move] prints for a
    cell of the board are read back by [alg_to_coords] as that cell. *)
Theorem print_then_alg_to_coords (r f : Z) :
  in_bounds r f = true ->
  alg_to_coords (Some (square_text r f)) = Some (r, f)
  /\ alg_to_coords (Some (cstr (square_text r f))) = Some (r, f).
Proof.
  intros H. split; [now apply alg_to_coords_square_text|].
  apply alg_to_coords_accepts. split; [|exact H].
  exists []. unfold cstr, square_text. apply in_bounds_iff in H.
  cbn [strlen]. rewrite !eqb_NUL_code, !code_char_of_int.
  change (code "a") with 97. change (code "0") with 48.
  rewrite !Z.mod_small by lia.
  destruct (Z.eqb_spec (97 + f) 0); [lia|].
  destruct (Z.eqb_spec (48 + (8 - r)) 0); [lia|].
  reflexivity.
Qed.

Lemma print_then_alg_to_coords_witness :
  alg_to_coords (Some (square_text 6 4)) = Some (6, 4)
  /\ alg_to_coords (Some (cstr (square_text 6 4))) = Some (6, 4).
Proof. apply (print_then_alg_to_coords 6 4). reflexivity. Defined.




Lemma parse_move_input_take5 (l : list ascii) :
  parse_move_input l = parse_move_input (take 5 (significant l)).
Proof.
  apply parse_move_input_congr; rewrite !parse_tmp;
    rewrite significant_take5, take_take;
    change (31 `min` 5)%nat with 5%nat.
  - rewrite !length_take.
    destruct (Nat.ltb_spec (31 `min` length (significant l)) 4);
      destruct (Nat.ltb_spec (5 `min` length (significant l)) 4); lia.
  - rewrite !length_take.
    destruct (Nat.leb_spec 5 (31 `min` length (significant l)));
      destruct (Nat.leb_spec 5 (5 `min` length (significant l))); lia.
  - intros i Hi. now rewrite !nth_lookup, !lookup_take_lt by lia.
Qed.

(** X4. [parse_move_input] looks only at the first five characters of the
    line that are not white space (and come before the terminator): white
    space anywhere and whatever follows the fifth character change
    nothing. *)
Theorem parse_move_input_significant (line : list ascii) :
  parse_move_input line = parse_move_input (take 5 (significant line))
  /\ parse_move_input (List.filter (fun c => negb (isspace c)) line)
     = parse_move_input line.
Proof.
  split; [apply parse_move_input_take5|].
  rewrite (parse_move_input_take5 (List.filter _ line)),
    (parse_move_input_take5 line).
  f_equal. f_equal.
  unfold significant. rewrite cstr_filter_nonspace. apply filter_filter_same.
Qed.

Lemma square_text_chars r f :
  in_bounds r f = true ->
  let a := char_of_int (code "a" + f) in
  let b := char_of_int (code "0" + (8 - r)) in
  Ascii.eqb a NUL = false /\ Ascii.eqb b NUL = false
  /\ isspace a = false /\ isspace b = false.
Proof.
  intros H a b. subst a b. apply in_bounds_iff in H.
  unfold isspace. rewrite !eqb_NUL_code, !code_char_of_int.
  change (code "a") with 97. change (code "0") with 48.
  rewrite !Z.mod_small by lia.
  repeat split;
    repeat match goal with
           | |- context [?x =? ?y] => destruct (Z.eqb_spec x y); try lia
           | |- context [?x <=? ?y] => destruct (Z.leb_spec x y); try lia
           end; reflexivity.
Qed.

Lemma cstr_square_text r f :
  in_bounds r f = true ->
  cstr (square_text r f)
  = [char_of_int (code "a" + f); char_of_int (code "0" + (8 - r))].
Proof.
  intros H. destruct (square_text_chars r f H) as (Ha & Hb & _).
  unfold cstr, square_text. cbn [strlen]. now rewrite Ha, Hb.
Qed.

Lemma blank_is_no_promotion p :
  Ascii.eqb p NUL || isspace p = true ->
  Ascii.eqb (toupper p) "Q" || Ascii.eqb (toupper p) "R"
  || Ascii.eqb (toupper p) "B" || Ascii.eqb (toupper p) "N" = false.
Proof.
  destruct p as [[] [] [] [] [] [] [] []]; vm_compute; intros H;
    first [discriminate H | reflexivity].
Qed.

(** X5. Round trip of a move: the squares that [print_move] prints for the
    origin and the destination of a move of the board, written one after the
    other or with a blank between them, are read back by [parse_move_input]
    as that move; a following letter q, r, b or n in either case is read as
    the promotion, in upper case, and any other character as none. *)
Theorem parse_printed_squares (r1 f1 r2 f2 : Z) (p : ascii) :
  in_bounds r1 f1 = true -> in_bounds r2 f2 = true ->
  parse_move_input (cstr (square_text r1 f1) ++ cstr (square_text r2 f2))
  = Some (mkMove r1 f1 r2 f2 NUL)
  /\ parse_move_input
       (cstr (square_text r1 f1) ++ [" "] ++ cstr (square_text r2 f2))
     = Some (mkMove r1 f1 r2 f2 NUL)
  /\ parse_move_input
       (cstr (square_text r1 f1) ++ cstr (square_text r2 f2) ++ [p])
     = Some (mkMove r1 f1 r2 f2
               (if Ascii.eqb (toupper p) "Q" || Ascii.eqb (toupper p) "R"
                   || Ascii.eqb (toupper p) "B" || Ascii.eqb (toupper p) "N"
                then toupper p else NUL)).
Proof.
  intros H1 H2.
  pose proof (alg_to_coords_square_text r1 f1 H1) as A1.
  pose proof (alg_to_coords_square_text r2 f2 H2) as A2.
  unfold square_text in A1, A2.
  rewrite !cstr_square_text by assumption.
  destruct (square_text_chars r1 f1 H1) as (Na & Nb & Sa & Sb).
  destruct (square_text_chars r2 f2 H2) as (Nc & Nd & Sc & Sd).
  cbv zeta in *.
  set (a := char_of_int (code "a" + f1)) in *.
  set (b := char_of_int (code "0" + (8 - r1))) in *.
  set (c := char_of_int (code "a" + f2)) in *.
  set (d := char_of_int (code "0" + (8 - r2))) in *.
  assert (forall tail,
            significant ([a; b] ++ [c; d] ++ tail) = [a; b; c; d] ++ significant tail)
    as Hsig.
  { intros tail. unfold significant, cstr. cbn [app strlen].
    rewrite Na, Nb, Nc, Nd. cbn [take List.filter].
    now rewrite Sa, Sb, Sc, Sd. }
  assert (forall tail, (length tail <= 1)%nat ->
            parse_move_input ([a; b] ++ [c; d] ++ tail)
            = Some (mkMove r1 f1 r2 f2
                      (match significant tail with
                       | [] => NUL
                       | q :: _ =>
                           if Ascii.eqb (toupper q) "Q" || Ascii.eqb (toupper q) "R"
                              || Ascii.eqb (toupper q) "B" || Ascii.eqb (toupper q) "N"
                           then toupper q else NUL
                       end))) as Hparse.
  { intros tail Ht. unfold parse_move_input. cbv zeta.
    rewrite parse_tmp, Hsig.
    assert (length (significant tail) <= 1)%nat as Hs.
    { unfold significant, cstr.
      etransitivity; [apply filter_length_le|].
      rewrite length_take. lia. }
    destruct (significant tail) as [|q [|q' l]]; [| |simpl in Hs; lia];
      cbn [app take length Nat.ltb Nat.leb nth]; now rewrite A1, A2. }
  split; [|split].
  - rewrite <- (app_nil_r [c; d]). apply (Hparse []). simpl. lia.
  - transitivity (parse_move_input ([a; b] ++ [c; d] ++ []));
      [|rewrite (Hparse []) by (simpl; lia); reflexivity].
    rewrite (parse_move_input_take5 ([a; b] ++ [" "] ++ [c; d])).
    rewrite (parse_move_input_take5 ([a; b] ++ [c; d] ++ [])).
    f_equal. f_equal.
    rewrite Hsig. unfold significant, cstr. cbn [app strlen].
    rewrite Na, Nb, Nc, Nd.
    change (Ascii.eqb " " NUL) with false. cbn [take List.filter].
    rewrite Sa, Sb, Sc, Sd. change (isspace " ") with true. reflexivity.
  - rewrite (Hparse [p]) by (simpl; lia). f_equal. f_equal.
    unfold significant, cstr. cbn [strlen].
    destruct (Ascii.eqb p NUL) eqn:Hn.
    + cbn [take List.filter]. symmetry.
      rewrite blank_is_no_promotion; [reflexivity|]. now rewrite Hn.
    + cbn [take List.filter]. destruct (isspace p) eqn:Hs; cbn [negb].
      * symmetry. rewrite blank_is_no_promotion; [reflexivity|].
        now rewrite Hs, orb_true_r.
      * reflexivity.
Qed.

Lemma parse_printed_squares_witness :
  parse_move_input (cstr (square_text 1 4) ++ cstr (square_text 0 4) ++ ["n"])
  = Some (mkMove 1 4 0 4 "N").
Proof.
  exact (proj2 (proj2 (parse_printed_squares 1 4 0 4 "n" eq_refl eq_refl))).
Defined.

(** ** The moves of each piece *)

Lemma fold_left_snoc {A C : Type} (g : list A -> C -> list A) (h : C -> list A)
    (l : list C) :
  (forall s d, g s d = s ++ h d) ->
  forall s, fold_left g l s = s ++ flat_map h l.
Proof.
  intros Hg. induction l as [|d l IH]; intros s; simpl.
  - now rewrite app_nil_r.
  - now rewrite IH, Hg, <- app_assoc.
Qed.

Lemma same_color_dot_r p : same_color p "." = false.
Proof. unfold same_color. now rewrite orb_true_r. Qed.

Lemma landing_test bd p rr ff :
  Ascii.eqb (cell bd rr ff) "." || negb (same_color p (cell bd rr ff))
  = negb (same_color p (cell bd rr ff)).
Proof.
  destruct (Ascii.eqb_spec (cell bd rr ff) ".") as [->|]; [|reflexivity].
  now rewrite same_color_dot_r.
Qed.

Lemma kind_not_dot p k :
  toupper p = k -> isupper k = true -> Ascii.eqb p "." = false.
Proof.
  intros <- H. destruct (Ascii.eqb_spec p ".") as [->|]; [|reflexivity].
  discriminate H.
Qed.

(** A knight or king step stores at most the one move to its target. *)
Lemma step_to_snoc bd p r f s d :
  step_to (fun out mv => out ++ [mv]) bd p r f s d
  = s ++ (if in_bounds (r + fst d) (f + snd d)
             && negb (same_color p (cell bd (r + fst d) (f + snd d)))
          then [move_by r f (fst d) (snd d)] else []).
Proof.
  unfold step_to. cbv zeta. rewrite landing_test.
  destruct (in_bounds _ _); simpl; [|now rewrite app_nil_r].
  destruct (negb _); [reflexivity | now rewrite app_nil_r].
Qed.

Lemma in_steps bd p r f (offsets : list (Z * Z)) m :
  In m (flat_map
          (fun d => if in_bounds (r + fst d) (f + snd d)
                       && negb (same_color p (cell bd (r + fst d) (f + snd d)))
                    then [move_by r f (fst d) (snd d)] else [])
          offsets)
  <-> exists d, In d offsets /\ m = move_by r f (fst d) (snd d)
                /\ landing bd p (r + fst d) (f + snd d).
Proof.
  rewrite in_flat_map. unfold landing. split.
  - intros (d & Hd & Hm). exists d. split; [exact Hd|].
    destruct (in_bounds _ _) eqn:Hb; [|destruct Hm].
    destruct (same_color _ _) eqn:Hc; simpl in Hm; [destruct Hm|].
    destruct Hm as [<-|[]]. auto.
  - intros (d & Hd & -> & Hb & Hc). exists d. split; [exact Hd|].
    rewrite Hb, Hc. now left.
Qed.

Lemma knight_unbounded bd r f :
  toupper (cell bd r f) = "N" ->
  piece_moves_unbounded bd r f
  = flat_map
      (fun d => if in_bounds (r + fst d) (f + snd d)
                   && negb (same_color (cell bd r f)
                              (cell bd (r + fst d) (f + snd d)))
                then [move_by r f (fst d) (snd d)] else [])
      knight_offsets.
Proof.
  intros Hk. unfold piece_moves_unbounded, generate_piece_moves_gen. cbv zeta.
  rewrite (kind_not_dot _ _ Hk eq_refl), Hk.
  change (Ascii.eqb "N" "P") with false. change (Ascii.eqb "N" "N") with true.
  cbv iota.
  rewrite (fold_left_snoc _ _ _ (step_to_snoc bd (cell bd r f) r f)).
  reflexivity.
Qed.

Lemma king_unbounded bd r f :
  toupper (cell bd r f) = "K" ->
  piece_moves_unbounded bd r f
  = flat_map
      (fun d => if in_bounds (r + fst d) (f + snd d)
                   && negb (same_color (cell bd r f)
                              (cell bd (r + fst d) (f + snd d)))
                then [move_by r f (fst d) (snd d)] else [])
      [(-1,-1); (-1,0); (-1,1); (0,-1); (0,1); (1,-1); (1,0); (1,1)].
Proof.
  intros Hk. unfold piece_moves_unbounded, generate_piece_moves_gen. cbv zeta.
  rewrite (kind_not_dot _ _ Hk eq_refl), Hk.
  change (Ascii.eqb "K" "P") with false. change (Ascii.eqb "K" "N") with false.
  change (Ascii.eqb "K" "K") with true. cbv iota.
  rewrite (fold_left_snoc _
             (fun d => if (fst d =? 0) && (snd d =? 0) then []
                       else if in_bounds (r + fst d) (f + snd d)
                               && negb (same_color (cell bd r f)
                                          (cell bd (r + fst d) (f + snd d)))
                            then [move_by r f (fst d) (snd d)] else [])).
  - reflexivity.
  - intros s d. destruct (_ && _); [now rewrite app_nil_r|].
    apply step_to_snoc.
Qed.

Lemma knight_king_iff (bd : Board) (r f : Z) (m : Move) :
  (toupper (cell bd r f) = "N" ->
   (In m (piece_moves_unbounded bd r f) <->
    r1 m = r /\ f1 m = f /\ promotion m = NUL /\
    ((Z.abs (r2 m - r) = 1 /\ Z.abs (f2 m - f) = 2) \/
     (Z.abs (r2 m - r) = 2 /\ Z.abs (f2 m - f) = 1)) /\
    landing bd (cell bd r f) (r2 m) (f2 m))) /\
  (toupper (cell bd r f) = "K" ->
   (In m (piece_moves_unbounded bd r f) <->
    r1 m = r /\ f1 m = f /\ promotion m = NUL /\
    Z.max (Z.abs (r2 m - r)) (Z.abs (f2 m - f)) = 1 /\
    landing bd (cell bd r f) (r2 m) (f2 m))).
Proof.
  split; intros Hk.
  - rewrite (knight_unbounded bd r f Hk), in_steps. split.
    + intros (d & Hd & -> & Hl). unfold move_by. cbn [r1 f1 r2 f2 promotion].
      repeat split; try apply Hl.
      simpl in Hd.
      repeat (destruct Hd as [<-|Hd]; [cbn [fst snd]; lia|]). destruct Hd.
    + intros (H1 & H2 & H3 & Hg & Hl).
      exists (r2 m - r, f2 m - f). cbn [fst snd].
      replace (r + (r2 m - r)) with (r2 m) by lia.
      replace (f + (f2 m - f)) with (f2 m) by lia.
      split; [|split; [|exact Hl]].
      * unfold knight_offsets.
        assert (r2 m - r = -2 \/ r2 m - r = -1 \/ r2 m - r = 1 \/ r2 m - r = 2)
          as Hr by lia.
        assert (f2 m - f = -2 \/ f2 m - f = -1 \/ f2 m - f = 1 \/ f2 m - f = 2)
          as Hf by lia.
        destruct Hr as [Hr|[Hr|[Hr|Hr]]], Hf as [Hf|[Hf|[Hf|Hf]]];
          rewrite Hr, Hf in *; simpl; try tauto; lia.
      * destruct m; unfold move_by; cbn [r1 f1 r2 f2 promotion] in *.
        subst. f_equal; lia.
  - rewrite (king_unbounded bd r f Hk), in_steps. split.
    + intros (d & Hd & -> & Hl). unfold move_by. cbn [r1 f1 r2 f2 promotion].
      repeat split; try apply Hl.
      simpl in Hd.
      repeat (destruct Hd as [<-|Hd]; [cbn [fst snd]; lia|]). destruct Hd.
    + intros (H1 & H2 & H3 & Hg & Hl).
      exists (r2 m - r, f2 m - f). cbn [fst snd].
      replace (r + (r2 m - r)) with (r2 m) by lia.
      replace (f + (f2 m - f)) with (f2 m) by lia.
      split; [|split; [|exact Hl]].
      * assert (r2 m - r = -1 \/ r2 m - r = 0 \/ r2 m - r = 1) as Hr by lia.
        assert (f2 m - f = -1 \/ f2 m - f = 0 \/ f2 m - f = 1) as Hf by lia.
        destruct Hr as [Hr|[Hr|Hr]], Hf as [Hf|[Hf|Hf]];
          rewrite Hr, Hf in *; simpl; try tauto; lia.
      * destruct m; unfold move_by; cbn [r1 f1 r2 f2 promotion] in *.
        subst. f_equal; lia.
Qed.

Lemma slide_snoc bd fuel p r f dr df_ :
  forall rr ff s,
    slide (fun out mv => out ++ [mv]) bd fuel p r f dr df_ rr ff s
    = s ++ slide (fun out mv => out ++ [mv]) bd fuel p r f dr df_ rr ff [].
Proof.
  induction fuel as [|n IH]; intros rr ff s; cbn [slide].
  - now rewrite app_nil_r.
  - destruct (in_bounds rr ff); [|now rewrite app_nil_r].
    destruct (Ascii.eqb (cell bd rr ff) ".").
    + rewrite IH, (IH _ _ ([] ++ _)). now rewrite app_assoc.
    + destruct (negb _); [reflexivity | now rewrite app_nil_r].
Qed.

(** The moves of one ray: one to each cell up to and including the first
    that is not empty, unless that one holds a piece of the same colour. *)
Lemma in_slide bd p r f dr df_ m fuel :
  forall rr ff,
    In m (slide (fun out mv => out ++ [mv]) bd fuel p r f dr df_ rr ff [])
    <-> exists k : nat,
          (k < fuel)%nat
          /\ m = mkMove r f (rr + Z.of_nat k * dr) (ff + Z.of_nat k * df_) NUL
          /\ (forall j : nat, (j < k)%nat ->
                in_bounds (rr + Z.of_nat j * dr) (ff + Z.of_nat j * df_) = true
                /\ cell bd (rr + Z.of_nat j * dr) (ff + Z.of_nat j * df_) = ".")
          /\ landing bd p (rr + Z.of_nat k * dr) (ff + Z.of_nat k * df_).
Proof.
  induction fuel as [|n IH]; intros rr ff; cbn [slide].
  - split; [intros [] | intros (k & Hk & _); lia].
  - assert (forall k : nat, (forall j : nat, (j < S k)%nat ->
                in_bounds (rr + Z.of_nat j * dr) (ff + Z.of_nat j * df_) = true
                /\ cell bd (rr + Z.of_nat j * dr) (ff + Z.of_nat j * df_) = ".") ->
              in_bounds rr ff = true /\ cell bd rr ff = ".") as Hfirst.
    { intros k H. specialize (H 0%nat ltac:(lia)).
      now rewrite !Z.mul_0_l, !Z.add_0_r in H. }
    assert (landing bd p (rr + Z.of_nat 0 * dr) (ff + Z.of_nat 0 * df_)
            <-> in_bounds rr ff = true /\ same_color p (cell bd rr ff) = false)
      as Hzero by (unfold landing; now rewrite !Z.mul_0_l, !Z.add_0_r).
    destruct (in_bounds rr ff) eqn:Hb.
    2:{ split; [intros []|]. intros ([|k] & _ & _ & Hpath & Hl).
        - apply Hzero in Hl. destruct Hl; discriminate.
        - apply Hfirst in Hpath. destruct Hpath; discriminate. }
    destruct (Ascii.eqb_spec (cell bd rr ff) ".") as [Hc|Hc].
    + rewrite slide_snoc. cbn [app In]. rewrite IH. split.
      * intros [<-|(k & Hk & -> & Hpath & Hl)].
        -- exists 0%nat. split; [lia|]. split; [f_equal; lia|].
           split; [intros j Hj; lia|]. apply Hzero.
           now rewrite Hc, same_color_dot_r.
        -- exists (S k). split; [lia|]. split; [f_equal; lia|]. split.
           ++ intros [|j] Hj.
              ** now rewrite !Z.mul_0_l, !Z.add_0_r.
              ** specialize (Hpath j ltac:(lia)).
                 replace (rr + Z.of_nat (S j) * dr)
                   with (rr + dr + Z.of_nat j * dr) by lia.
                 replace (ff + Z.of_nat (S j) * df_)
                   with (ff + df_ + Z.of_nat j * df_) by lia.
                 exact Hpath.
           ++ replace (rr + Z.of_nat (S k) * dr)
                with (rr + dr + Z.of_nat k * dr) by lia.
              replace (ff + Z.of_nat (S k) * df_)
                with (ff + df_ + Z.of_nat k * df_) by lia.
              exact Hl.
      * intros ([|k] & Hk & -> & Hpath & Hl).
        -- left. f_equal; lia.
        -- right. exists k. split; [lia|]. split; [f_equal; lia|]. split.
           ++ intros j Hj. specialize (Hpath (S j) ltac:(lia)).
              replace (rr + Z.of_nat (S j) * dr)
                with (rr + dr + Z.of_nat j * dr) in Hpath by lia.
              replace (ff + Z.of_nat (S j) * df_)
                with (ff + df_ + Z.of_nat j * df_) in Hpath by lia.
              exact Hpath.
           ++ replace (rr + Z.of_nat (S k) * dr)
                with (rr + dr + Z.of_nat k * dr) in Hl by lia.
              replace (ff + Z.of_nat (S k) * df_)
                with (ff + df_ + Z.of_nat k * df_) in Hl by lia.
              exact Hl.
    + destruct (same_color p (cell bd rr ff)) eqn:Hs; cbn [negb app In].
      * split; [intros []|]. intros ([|k] & _ & _ & Hpath & Hl).
        -- apply Hzero in Hl. destruct Hl; congruence.
        -- apply Hfirst in Hpath. destruct Hpath; contradiction.
      * split.
        -- intros [<-|[]]. exists 0%nat. split; [lia|].
           split; [f_equal; lia|]. split; [intros j Hj; lia|].
           now apply Hzero.
        -- intros ([|k] & _ & -> & Hpath & _).
           ++ left. f_equal; lia.
           ++ apply Hfirst in Hpath. destruct Hpath; contradiction.
Qed.

Lemma in_ray bd p r f dr df_ m :
  In (dr, df_) (rook_dirs ++ bishop_dirs) ->
  In m (slide (fun out mv => out ++ [mv]) bd 8 p r f dr df_ (r + dr) (f + df_) [])
  <-> r1 m = r /\ f1 m = f /\ promotion m = NUL /\
      exists n, 1 <= n /\ r2 m = r + n * dr /\ f2 m = f + n * df_
                /\ clear_path bd r f dr df_ n
                /\ landing bd p (r2 m) (f2 m).
Proof.
  intros Hd. rewrite in_slide. split.
  - intros (k & Hk & -> & Hpath & Hl). cbn [r1 f1 r2 f2 promotion].
    split; [reflexivity|]. split; [reflexivity|]. split; [reflexivity|].
    exists (Z.of_nat k + 1).
    split; [lia|]. split; [ring|]. split; [ring|]. split.
    + intros j Hj. specialize (Hpath (Z.to_nat (j - 1)) ltac:(lia)).
      replace (r + dr + Z.of_nat (Z.to_nat (j - 1)) * dr)
        with (r + j * dr) in Hpath by (rewrite ?Z2Nat.id by lia; ring).
      replace (f + df_ + Z.of_nat (Z.to_nat (j - 1)) * df_)
        with (f + j * df_) in Hpath by (rewrite ?Z2Nat.id by lia; ring).
      exact Hpath.
    + exact Hl.
  - intros (H1 & H2 & H3 & n & Hn & Hr & Hf & Hpath & Hl).
    exists (Z.to_nat (n - 1)).
    replace (r + dr + Z.of_nat (Z.to_nat (n - 1)) * dr) with (r + n * dr) by (rewrite Z2Nat.id by lia; ring).
    replace (f + df_ + Z.of_nat (Z.to_nat (n - 1)) * df_) with (f + n * df_) by (rewrite Z2Nat.id by lia; ring).
    rewrite <- Hr, <- Hf. split; [|split; [|split]].
    + destruct Hl as [Hb _]. apply in_bounds_iff in Hb.
      assert (n = 1 \/ 1 < n) as [->|Hgt] by lia; [simpl; lia|].
      destruct (Hpath 1 ltac:(lia)) as [Hb1 _]. apply in_bounds_iff in Hb1.
      simpl in Hd.
      repeat (destruct Hd as [Hd|Hd]; [injection Hd as <- <-; lia|]).
      destruct Hd.
    + destruct m; cbn [r1 f1 r2 f2 promotion] in *. now subst.
    + intros j Hj. specialize (Hpath (Z.of_nat j + 1) ltac:(lia)).
      replace (r + (Z.of_nat j + 1) * dr) with (r + dr + Z.of_nat j * dr)
        in Hpath by (rewrite ?Z2Nat.id by lia; ring).
      replace (f + (Z.of_nat j + 1) * df_) with (f + df_ + Z.of_nat j * df_)
        in Hpath by (rewrite ?Z2Nat.id by lia; ring).
      exact Hpath.
    + exact Hl.
Qed.

Lemma slider_unbounded bd r f :
  toupper (cell bd r f) = "R" \/ toupper (cell bd r f) = "B"
  \/ toupper (cell bd r f) = "Q" ->
  piece_moves_unbounded bd r f
  = flat_map
      (fun d => slide (fun out mv => out ++ [mv]) bd 8 (cell bd r f) r f
                  (fst d) (snd d) (r + fst d) (f + snd d) [])
      ((if Ascii.eqb (toupper (cell bd r f)) "B" then [] else rook_dirs)
       ++ (if Ascii.eqb (toupper (cell bd r f)) "R" then [] else bishop_dirs)).
Proof.
  intros Hk. unfold piece_moves_unbounded, generate_piece_moves_gen. cbv zeta.
  assert (forall dirs s,
            fold_left
              (fun s d => slide (fun out mv => out ++ [mv]) bd 8 (cell bd r f) r f
                            (fst d) (snd d) (r + fst d) (f + snd d) s) dirs s
            = s ++ flat_map
                (fun d => slide (fun out mv => out ++ [mv]) bd 8 (cell bd r f) r f
                            (fst d) (snd d) (r + fst d) (f + snd d) []) dirs)
    as Hfold.
  { intros dirs s. apply fold_left_snoc. intros s' d. apply slide_snoc. }
  rewrite flat_map_app.
  destruct Hk as [Hk|[Hk|Hk]];
    rewrite (kind_not_dot _ _ Hk eq_refl), Hk; cbv iota;
    repeat match goal with
           | |- context [Ascii.eqb ?a ?b] =>
               let v := eval vm_compute in (Ascii.eqb a b) in
               change (Ascii.eqb a b) with v
           end;
    cbn [orb]; cbv iota; rewrite ?Hfold; cbn [app flat_map];
    rewrite ?app_nil_r; reflexivity.
Qed.

Lemma slider_iff (bd : Board) (r f : Z) (m : Move) :
  toupper (cell bd r f) = "R" \/ toupper (cell bd r f) = "B"
  \/ toupper (cell bd r f) = "Q" ->
  (In m (piece_moves_unbounded bd r f) <->
   r1 m = r /\ f1 m = f /\ promotion m = NUL /\
   exists dr df_ n,
     ((Z.abs dr + Z.abs df_ = 1 /\ toupper (cell bd r f) <> "B") \/
      (Z.abs dr = 1 /\ Z.abs df_ = 1 /\ toupper (cell bd r f) <> "R"))
     /\ 1 <= n /\ r2 m = r + n * dr /\ f2 m = f + n * df_
     /\ clear_path bd r f dr df_ n
     /\ landing bd (cell bd r f) (r2 m) (f2 m)).
Proof.
  intros Hk. rewrite (slider_unbounded bd r f Hk), in_flat_map. split.
  - intros ([dr df_] & Hd & Hin). cbn [fst snd] in Hin.
    assert (In (dr, df_) (rook_dirs ++ bishop_dirs)) as Hall.
    { apply in_app_or in Hd. apply in_or_app. destruct Hd as [Hd|Hd].
      - left. destruct (Ascii.eqb (toupper (cell bd r f)) "B");
          [destruct Hd | exact Hd].
      - right. destruct (Ascii.eqb (toupper (cell bd r f)) "R");
          [destruct Hd | exact Hd]. }
    apply (in_ray bd _ r f dr df_ m Hall) in Hin.
    destruct Hin as (H1 & H2 & H3 & n & Hn).
    repeat split; auto. exists dr, df_, n. split; [|exact Hn].
    apply in_app_or in Hd. destruct Hd as [Hd|Hd].
    + left. destruct (Ascii.eqb_spec (toupper (cell bd r f)) "B");
        [destruct Hd|].
      split; [|assumption]. simpl in Hd.
      repeat (destruct Hd as [Hd|Hd]; [injection Hd as <- <-; lia|]).
      destruct Hd.
    + right. destruct (Ascii.eqb_spec (toupper (cell bd r f)) "R");
        [destruct Hd|].
      simpl in Hd.
      repeat (destruct Hd as [Hd|Hd];
              [injection Hd as <- <-; repeat split; try lia; assumption|]).
      destruct Hd.
  - intros (H1 & H2 & H3 & dr & df_ & n & Hdir & Hn).
    exists (dr, df_). cbn [fst snd].
    assert (In (dr, df_)
              ((if Ascii.eqb (toupper (cell bd r f)) "B" then [] else rook_dirs)
               ++ (if Ascii.eqb (toupper (cell bd r f)) "R" then []
                   else bishop_dirs))) as Hd.
    { apply in_or_app. destruct Hdir as [[Hg Hnb]|(Hg1 & Hg2 & Hnr)].
      - left. destruct (Ascii.eqb_spec (toupper (cell bd r f)) "B");
          [contradiction|].
        assert (dr = -1 \/ dr = 0 \/ dr = 1) as Hr by lia.
        assert (df_ = -1 \/ df_ = 0 \/ df_ = 1) as Hf by lia.
        destruct Hr as [-> | [-> | ->]], Hf as [-> | [-> | ->]];
          simpl; try tauto; lia.
      - right. destruct (Ascii.eqb_spec (toupper (cell bd r f)) "R");
          [contradiction|].
        assert (dr = -1 \/ dr = 1) as Hr by lia.
        assert (df_ = -1 \/ df_ = 1) as Hf by lia.
        destruct Hr as [-> | ->], Hf as [-> | ->]; simpl; tauto. }
    split; [exact Hd|].
    apply in_ray.
    + apply in_app_or in Hd. apply in_or_app. destruct Hd as [Hd|Hd].
      * left. destruct (Ascii.eqb (toupper (cell bd r f)) "B");
          [destruct Hd | exact Hd].
      * right. destruct (Ascii.eqb (toupper (cell bd r f)) "R");
          [destruct Hd | exact Hd].
    + repeat split; auto. exists n. exact Hn.
Qed.

Lemma pawn_unbounded bd r f :
  toupper (cell bd r f) = "P" ->
  let p := cell bd r f in
  let step := if is_white p then -1 else 1 in
  let start := if is_white p then 6 else 1 in
  piece_moves_unbounded bd r f
  = (if in_bounds (r + step) f && Ascii.eqb (cell bd (r + step) f) "." then
       move_by r f step 0
       :: (if (r =? start) && in_bounds (r + 2 * step) f
              && Ascii.eqb (cell bd (r + 2 * step) f) "."
           then [move_by r f (2 * step) 0] else [])
     else [])
    ++ flat_map
         (fun df_ =>
            if in_bounds (r + step) (f + df_)
               && negb (Ascii.eqb (cell bd (r + step) (f + df_)) ".")
               && negb (same_color p (cell bd (r + step) (f + df_)))
            then [move_by r f step df_] else [])
         [-1; 1].
Proof.
  intros Hk p step start.
  unfold piece_moves_unbounded, generate_piece_moves_gen. cbv zeta.
  rewrite (kind_not_dot _ _ Hk eq_refl), Hk.
  change (Ascii.eqb "P" "P") with true. cbv iota.
  fold p. fold step. fold start.
  rewrite (fold_left_snoc _
             (fun df_ =>
                if in_bounds (r + step) (f + df_)
                   && negb (Ascii.eqb (cell bd (r + step) (f + df_)) ".")
                   && negb (same_color p (cell bd (r + step) (f + df_)))
                then [move_by r f step df_] else []))
    by (intros s d; destruct (_ && _ && _);
        [reflexivity | now rewrite app_nil_r]).
  f_equal. unfold move_by. rewrite !Z.add_0_r.
  destruct (in_bounds (r + step) f && _); [|reflexivity].
  destruct (_ && _ && _); reflexivity.
Qed.

Lemma pawn_iff (bd : Board) (r f : Z) (m : Move) :
  toupper (cell bd r f) = "P" ->
  forall step start,
  step = (if is_white (cell bd r f) then -1 else 1) ->
  start = (if is_white (cell bd r f) then 6 else 1) ->
  (In m (piece_moves_unbounded bd r f) <->
   r1 m = r /\ f1 m = f /\ promotion m = NUL /\
   in_bounds (r2 m) (f2 m) = true /\
   ((f2 m = f /\ r2 m = r + step /\ cell bd (r2 m) (f2 m) = ".") \/
    (f2 m = f /\ r2 m = r + 2 * step /\ r = start /\
     in_bounds (r + step) f = true /\ cell bd (r + step) f = "." /\
     cell bd (r2 m) (f2 m) = ".") \/
    (Z.abs (f2 m - f) = 1 /\ r2 m = r + step /\
     cell bd (r2 m) (f2 m) <> "." /\
     same_color (cell bd r f) (cell bd (r2 m) (f2 m)) = false))).
Proof.
  intros Hk step start Hstep Hstart.
  rewrite (pawn_unbounded bd r f Hk). cbv zeta. rewrite <- Hstep, <- Hstart.
  rewrite in_app_iff, in_flat_map. split.
  - intros [Hadv|(df_ & Hd & Hin)].
    + destruct (in_bounds (r + step) f) eqn:Hb1; [|destruct Hadv].
      destruct (Ascii.eqb_spec (cell bd (r + step) f) ".") as [Hc1|];
        [|destruct Hadv].
      cbn [andb] in Hadv. destruct Hadv as [<-|Hadv].
      * unfold move_by. cbn [r1 f1 r2 f2 promotion]. rewrite Z.add_0_r.
        repeat split; auto.
      * destruct (Z.eqb_spec r start) as [Hs|]; [|destruct Hadv].
        destruct (in_bounds (r + 2 * step) f) eqn:Hb2; [|destruct Hadv].
        destruct (Ascii.eqb_spec (cell bd (r + 2 * step) f) ".") as [Hc2|];
          [|destruct Hadv].
        destruct Hadv as [<-|[]].
        unfold move_by. cbn [r1 f1 r2 f2 promotion]. rewrite Z.add_0_r.
        repeat split; auto. right. left. repeat split; auto.
    + destruct (in_bounds (r + step) (f + df_)) eqn:Hb; [|destruct Hin].
      destruct (Ascii.eqb_spec (cell bd (r + step) (f + df_)) ".") as [|Hc];
        [destruct Hin|].
      destruct (same_color _ _) eqn:Hsc; [destruct Hin|].
      destruct Hin as [<-|[]]. unfold move_by. cbn [r1 f1 r2 f2 promotion].
      repeat split; auto. right. right. repeat split; auto.
      simpl in Hd. destruct Hd as [<-|[<-|[]]]; lia.
  - intros (H1 & H2 & H3 & Hb & Hcase).
    assert (m = mkMove r f (r2 m) (f2 m) NUL) as Hm
      by (destruct m; cbn [r1 f1 r2 f2 promotion] in *; now subst).
    destruct Hcase as [(Hf & Hr & Hc)|[(Hf & Hr & Hs & Hb1 & Hc1 & Hc)
                                       |(Hf & Hr & Hc & Hsc)]].
    + left. rewrite Hf, Hr in Hb, Hc. rewrite Hb, Hc. cbn [andb Ascii.eqb].
      change (Ascii.eqb "." ".") with true. cbv iota.
      left. rewrite Hm, Hf, Hr. unfold move_by. now rewrite Z.add_0_r.
    + left. rewrite Hb1, Hc1. change (Ascii.eqb "." ".") with true.
      cbn [andb]. right.
      rewrite Hf, Hr in Hb, Hc. rewrite Hb, Hc.
      replace (r =? start) with true by (symmetry; now apply Z.eqb_eq).
      change (Ascii.eqb "." ".") with true. cbn [andb].
      left. rewrite Hm, Hf, Hr. unfold move_by. now rewrite Z.add_0_r.
    + right. exists (f2 m - f). split; [simpl; lia|].
      replace (f + (f2 m - f)) with (f2 m) by lia. rewrite <- Hr, Hb, Hsc.
      destruct (Ascii.eqb_spec (cell bd (r2 m) (f2 m)) "."); [contradiction|].
      cbn [andb negb]. left. rewrite Hm at 2. unfold move_by.
      f_equal; lia.
Qed.

(** X6. The knight and the king.  With room in the array, the moves stored
    for a knight are exactly those to the cells of the board one row and two
    columns, or two rows and one column, away that hold no piece of the
    knight's colour; those stored for a king are exactly those to the
    adjacent cells of the board that hold no piece of the king's colour.
    There is no castling. *)
Theorem knight_and_king_moves (bd : Board) (r f : Z) (m : Move) :
  (toupper (cell bd r f) = "N" ->
   (In m (piece_moves_unbounded bd r f) <->
    r1 m = r /\ f1 m = f /\ promotion m = NUL /\
    ((Z.abs (r2 m - r) = 1 /\ Z.abs (f2 m - f) = 2) \/
     (Z.abs (r2 m - r) = 2 /\ Z.abs (f2 m - f) = 1)) /\
    landing bd (cell bd r f) (r2 m) (f2 m))) /\
  (toupper (cell bd r f) = "K" ->
   (In m (piece_moves_unbounded bd r f) <->
    r1 m = r /\ f1 m = f /\ promotion m = NUL /\
    Z.max (Z.abs (r2 m - r)) (Z.abs (f2 m - f)) = 1 /\
    landing bd (cell bd r f) (r2 m) (f2 m))).
Proof. apply knight_king_iff. Qed.

Lemma knight_and_king_moves_witness :
  In (mkMove 7 1 5 2 NUL) (piece_moves_unbounded init_board 7 1)
  /\ ~ In (mkMove 7 4 7 6 NUL) (piece_moves_unbounded init_board 7 4).
Proof.
  split.
  - apply (proj1 (knight_and_king_moves init_board 7 1 (mkMove 7 1 5 2 NUL))
             eq_refl).
    cbn [r1 f1 r2 f2 promotion]. unfold landing.
    repeat split; try reflexivity. right. split; reflexivity.
  - intros H.
    apply (proj2 (knight_and_king_moves init_board 7 4 (mkMove 7 4 7 6 NUL))
             eq_refl) in H.
    cbn [r1 f1 r2 f2 promotion] in H. destruct H as (_ & _ & _ & H & _).
    vm_compute in H. discriminate H.
Defined.

(** X7. Rook, bishop and queen.  With room in the array, the moves stored for
    a sliding piece are exactly those that go [n >= 1] cells along one of its
    lines (rows and columns for the rook, diagonals for the bishop, both for
    the queen) over cells of the board that are all empty, to a cell of the
    board that holds no piece of the mover's colour: the piece never jumps
    and never goes past the first piece it meets. *)
Theorem sliding_piece_moves (bd : Board) (r f : Z) (m : Move) :
  toupper (cell bd r f) = "R" \/ toupper (cell bd r f) = "B"
  \/ toupper (cell bd r f) = "Q" ->
  (In m (piece_moves_unbounded bd r f) <->
   r1 m = r /\ f1 m = f /\ promotion m = NUL /\
   exists dr df_ n,
     ((Z.abs dr + Z.abs df_ = 1 /\ toupper (cell bd r f) <> "B") \/
      (Z.abs dr = 1 /\ Z.abs df_ = 1 /\ toupper (cell bd r f) <> "R"))
     /\ 1 <= n /\ r2 m = r + n * dr /\ f2 m = f + n * df_
     /\ clear_path bd r f dr df_ n
     /\ landing bd (cell bd r f) (r2 m) (f2 m)).
Proof. apply slider_iff. Qed.

Lemma sliding_piece_moves_witness :
  In (mkMove 2 6 0 6 NUL) (piece_moves_unbounded stalemate 2 6).
Proof.
  apply (proj2 (sliding_piece_moves stalemate 2 6 (mkMove 2 6 0 6 NUL)
                  (or_intror (or_intror eq_refl)))).
  cbn [r1 f1 r2 f2 promotion]. repeat split.
  exists (-1), 0, 2. split; [left; split; [reflexivity | discriminate]|].
  repeat split; try reflexivity; try lia.
  - assert (j = 1) as -> by lia. reflexivity.
  - assert (j = 1) as -> by lia. reflexivity.
Defined.

(** X8. The pawn.  With room in the array, the moves stored for a pawn are
    exactly: one row forward (towards row 0 for 'P', towards row 7 for 'p')
    onto an empty cell of the board; two rows forward from its starting row
    (6 for 'P', 1 for 'p') when both cells are empty; and one row forward,
    one column aside, onto a cell of the board that holds a piece not of the
    pawn's colour.  There is no capture en passant, and no move carries a
    promotion. *)
Theorem pawn_moves (bd : Board) (r f : Z) (m : Move) :
  toupper (cell bd r f) = "P" ->
  forall step start,
  step = (if is_white (cell bd r f) then -1 else 1) ->
  start = (if is_white (cell bd r f) then 6 else 1) ->
  (In m (piece_moves_unbounded bd r f) <->
   r1 m = r /\ f1 m = f /\ promotion m = NUL /\
   in_bounds (r2 m) (f2 m) = true /\
   ((f2 m = f /\ r2 m = r + step /\ cell bd (r2 m) (f2 m) = ".") \/
    (f2 m = f /\ r2 m = r + 2 * step /\ r = start /\
     in_bounds (r + step) f = true /\ cell bd (r + step) f = "." /\
     cell bd (r2 m) (f2 m) = ".") \/
    (Z.abs (f2 m - f) = 1 /\ r2 m = r + step /\
     cell bd (r2 m) (f2 m) <> "." /\
     same_color (cell bd r f) (cell bd (r2 m) (f2 m)) = false))).
Proof. apply pawn_iff. Qed.

Lemma pawn_moves_witness :
  In (mkMove 6 4 4 4 NUL) (piece_moves_unbounded init_board 6 4).
Proof.
  apply (proj2 (pawn_moves init_board 6 4 (mkMove 6 4 4 4 NUL) eq_refl
                  (-1) 6 eq_refl eq_refl)).
  cbn [r1 f1 r2 f2 promotion]. repeat split; try reflexivity.
  right. left. repeat split; reflexivity.
Defined.

Lemma no_piece_unbounded bd r f :
  ~ In (toupper (cell bd r f)) ["P"; "N"; "K"; "R"; "B"; "Q"] ->
  piece_moves_unbounded bd r f = [].
Proof.
  intros H. unfold piece_moves_unbounded, generate_piece_moves_gen. cbv zeta.
  destruct (Ascii.eqb (cell bd r f) "."); [reflexivity|].
  repeat match goal with
         | |- context [Ascii.eqb (toupper (cell bd r f)) ?k] =>
             destruct (Ascii.eqb_spec (toupper (cell bd r f)) k) as [He|_];
             [exfalso; apply H; rewrite He; simpl; tauto|]
         end.
  reflexivity.
Qed.

Lemma kind_cases (k : ascii) :
  k = "P" \/ k = "N" \/ k = "K" \/ (k = "R" \/ k = "B" \/ k = "Q")
  \/ ~ In k ["P"; "N"; "K"; "R"; "B"; "Q"].
Proof.
  destruct (Ascii.eqb_spec k "P"); [tauto|].
  destruct (Ascii.eqb_spec k "N"); [tauto|].
  destruct (Ascii.eqb_spec k "K"); [tauto|].
  destruct (Ascii.eqb_spec k "R"); [tauto|].
  destruct (Ascii.eqb_spec k "B"); [tauto|].
  destruct (Ascii.eqb_spec k "Q"); [tauto|].
  right. right. right. right. simpl. intuition congruence.
Qed.

Lemma in_take {A : Type} (x : A) (n : nat) (l : list A) :
  In x (take n l) -> In x l.
Proof.
  revert n. induction l as [|y l IH]; intros [|n]; simpl; try tauto.
  intros [H|H]; [now left | right; eauto].
Qed.

(** What every move the generator can store has in common. *)
Lemma unbounded_sound bd r f m :
  In m (piece_moves_unbounded bd r f) ->
  In (toupper (cell bd r f)) ["P"; "N"; "K"; "R"; "B"; "Q"]
  /\ r1 m = r /\ f1 m = f /\ promotion m = NUL
  /\ in_bounds (r2 m) (f2 m) = true
  /\ (r2 m <> r \/ f2 m <> f)
  /\ same_color (cell bd r f) (cell bd (r2 m) (f2 m)) = false.
Proof.
  intros H.
  destruct (kind_cases (toupper (cell bd r f)))
    as [Hk|[Hk|[Hk|[Hk|Hk]]]].
  - apply (pawn_iff bd r f m Hk _ _ eq_refl eq_refl) in H.
    destruct H as (H1 & H2 & H3 & Hb & Hc).
    split; [rewrite Hk; simpl; tauto|]. repeat split; auto.
    + destruct (is_white (cell bd r f)); lia.
    + destruct Hc as [(_ & _ & Hc)|[(_ & _ & _ & _ & _ & Hc)|(_ & _ & _ & Hc)]];
        [rewrite Hc; apply same_color_dot_r
        |rewrite Hc; apply same_color_dot_r | exact Hc].
  - apply (proj1 (knight_king_iff bd r f m) Hk) in H.
    destruct H as (H1 & H2 & H3 & Hg & Hb & Hc).
    split; [rewrite Hk; simpl; tauto|]. repeat split; auto. lia.
  - apply (proj2 (knight_king_iff bd r f m) Hk) in H.
    destruct H as (H1 & H2 & H3 & Hg & Hb & Hc).
    split; [rewrite Hk; simpl; tauto|]. repeat split; auto. lia.
  - apply (slider_iff bd r f m Hk) in H.
    destruct H as (H1 & H2 & H3 & dr & df_ & n & Hdir & Hn & Hr & Hf & _ & Hb & Hc).
    split; [destruct Hk as [Hk|[Hk|Hk]]; rewrite Hk; simpl; tauto|].
    repeat split; auto.
    assert (dr = -1 \/ dr = 0 \/ dr = 1) as Hdr by lia.
    assert (df_ = -1 \/ df_ = 0 \/ df_ = 1) as Hdf by lia.
    destruct Hdr as [-> | [-> | ->]], Hdf as [-> | [-> | ->]]; lia.
  - rewrite (no_piece_unbounded bd r f Hk) in H. destruct H.
Qed.

Lemma slide_length bd p r f dr df_ fuel :
  forall rr ff,
    (length (slide (fun out mv => out ++ [mv]) bd fuel p r f dr df_ rr ff [])
     <= fuel)%nat.
Proof.
  induction fuel as [|n IH]; intros rr ff; cbn [slide]; [simpl; lia|].
  destruct (in_bounds rr ff); [|simpl; lia].
  destruct (Ascii.eqb (cell bd rr ff) ".").
  - rewrite slide_snoc, length_app. specialize (IH (rr + dr) (ff + df_)).
    simpl. lia.
  - destruct (negb _); simpl; lia.
Qed.

Lemma flat_map_length_le {A B : Type} (h : A -> list B) (k : nat) (l : list A) :
  (forall x, (length (h x) <= k)%nat) ->
  (length (flat_map h l) <= k * length l)%nat.
Proof.
  intros H. induction l as [|x l IH]; simpl; [lia|].
  rewrite length_app. specialize (H x). lia.
Qed.

Lemma unbounded_length bd r f :
  (length (piece_moves_unbounded bd r f) <= 64)%nat.
Proof.
  destruct (kind_cases (toupper (cell bd r f)))
    as [Hk|[Hk|[Hk|[Hk|Hk]]]].
  - rewrite (pawn_unbounded bd r f Hk). cbv zeta. rewrite length_app.
    match goal with
    | |- (length ?a + length (flat_map ?h ?l) <= _)%nat =>
        assert (length a <= 2)%nat
          by (destruct (in_bounds _ f && _); [|simpl; lia];
              destruct (_ && _ && _); simpl; lia);
        assert (length (flat_map h l) <= 1 * length l)%nat as Hc
          by (apply flat_map_length_le; intros x;
              match goal with
              | |- context [if ?c then _ else _] => destruct c
              end; simpl; lia)
    end.
    cbn [length] in Hc. lia.
  - rewrite (knight_unbounded bd r f Hk).
    match goal with
    | |- (length (flat_map ?h ?l) <= _)%nat =>
        assert (length (flat_map h l) <= 1 * length l)%nat as Hc
          by (apply flat_map_length_le; intros x;
              match goal with
              | |- context [if ?c then _ else _] => destruct c
              end; simpl; lia)
    end.
    unfold knight_offsets in Hc. cbn [length] in Hc. unfold knight_offsets. lia.
  - rewrite (king_unbounded bd r f Hk).
    match goal with
    | |- (length (flat_map ?h ?l) <= _)%nat =>
        assert (length (flat_map h l) <= 1 * length l)%nat as Hc
          by (apply flat_map_length_le; intros x;
              match goal with
              | |- context [if ?c then _ else _] => destruct c
              end; simpl; lia)
    end.
    cbn [length] in Hc. lia.
  - rewrite (slider_unbounded bd r f Hk).
    match goal with
    | |- (length (flat_map ?h ?l) <= _)%nat =>
        pose proof (flat_map_length_le h 8 l
                      ltac:(intros x; apply slide_length)) as Hc;
        assert (length l <= 8)%nat
          by (rewrite length_app;
              destruct (Ascii.eqb _ "B"); destruct (Ascii.eqb _ "R");
              simpl; lia)
    end.
    lia.
  - rewrite (no_piece_unbounded bd r f Hk). simpl. lia.
Qed.

(** X9. Every move [generate_piece_moves] stores, whatever the capacity, is a
    move of a piece 'P', 'N', 'K', 'R', 'B' or 'Q' of either colour that
    stands on [(r, f)]: it starts there, ends on another cell, inside the
    board, that holds no piece of the mover's colour, and carries no
    promotion.  An empty cell and any other character yield no move. *)
Theorem generate_piece_moves_sound
    (bd : Board) (r f max_out : Z) (white_turn : bool) (m : Move) :
  In m (generate_piece_moves bd r f max_out white_turn) ->
  In (toupper (cell bd r f)) ["P"; "N"; "K"; "R"; "B"; "Q"]
  /\ r1 m = r /\ f1 m = f /\ promotion m = NUL
  /\ in_bounds (r2 m) (f2 m) = true
  /\ (r2 m <> r \/ f2 m <> f)
  /\ same_color (cell bd r f) (cell bd (r2 m) (f2 m)) = false.
Proof.
  intros H. apply unbounded_sound.
  rewrite generate_piece_moves_truncates in H.
  eapply in_take; eauto.
Qed.

Lemma generate_piece_moves_sound_witness :
  In (toupper (cell init_board 7 1)) ["P"; "N"; "K"; "R"; "B"; "Q"]
  /\ 7 = 7 /\ 1 = 1 /\ NUL = NUL
  /\ in_bounds 5 0 = true
  /\ (5 <> 7 \/ 0 <> 1)
  /\ same_color (cell init_board 7 1) (cell init_board 5 0) = false.
Proof.
  apply (generate_piece_moves_sound init_board 7 1 1 true (mkMove 7 1 5 0 NUL)).
  vm_compute. tauto.
Defined.

(** X10. A piece never has more than 64 moves to store, so with the capacity
    [MAX_MOVES] that [is_in_check] and the legality filter pass, nothing is
    dropped: the array receives every move of the piece, and the same holds
    for any capacity of 64 or more. *)
Theorem generate_piece_moves_complete_at_max_moves
    (bd : Board) (r f max_out : Z) (white_turn : bool) :
  (length (piece_moves_unbounded bd r f) <= 64)%nat
  /\ generate_piece_moves bd r f MAX_MOVES white_turn
     = piece_moves_unbounded bd r f
  /\ (64 <= max_out ->
      generate_piece_moves bd r f max_out white_turn
      = piece_moves_unbounded bd r f).
Proof.
  pose proof (unbounded_length bd r f) as H.
  split; [exact H|]. split.
  - rewrite generate_piece_moves_truncates. apply take_ge.
    unfold MAX_MOVES. lia.
  - intros Hm. rewrite generate_piece_moves_truncates. apply take_ge. lia.
Qed.

Lemma generate_piece_moves_complete_at_max_moves_witness :
  generate_piece_moves stalemate 2 6 100 false
  = piece_moves_unbounded stalemate 2 6.
Proof.
  apply (proj2 (proj2 (generate_piece_moves_complete_at_max_moves
                         stalemate 2 6 100 false))).
  lia.
Defined.

(** ** Legal moves, declaratively *)

Lemma own_not_dot side p : own side p = true -> Ascii.eqb p "." = false.
Proof.
  unfold own. destruct side; [apply is_white_not_dot | apply is_black_not_dot].
Qed.

Lemma own_in_bounds bd side r f :
  own side (cell bd r f) = true -> in_bounds r f = true.
Proof.
  intros H. apply own_not_dot in H. unfold cell in H.
  destruct (in_bounds r f); [reflexivity | discriminate H].
Qed.

(** The three tests that skip a cell in the pseudo-legal phase. *)
Lemma skip_tests side p :
  (if Ascii.eqb p "." then true
   else if side && negb (is_white p) then true
   else negb side && negb (is_black p)) = negb (own side p).
Proof.
  destruct (own side p) eqn:Ho.
  - rewrite (own_not_dot _ _ Ho). unfold own in Ho.
    destruct side; rewrite Ho; reflexivity.
  - destruct (Ascii.eqb p "."); [reflexivity|].
    unfold own in Ho. destruct side; rewrite Ho; reflexivity.
Qed.

Lemma pseudo_row_step bd side r f fs all :
  pseudo_row bd side r (f :: fs) all
  = if own side (cell bd r f) then
      let all' := all ++ generate_piece_moves bd r f
                           (MAX_MOVES - Z.of_nat (length all)) side in
      if Z.of_nat (length all') >=? MAX_MOVES then all'
      else pseudo_row bd side r fs all'
    else pseudo_row bd side r fs all.
Proof.
  cbn [pseudo_row]. cbv zeta.
  pose proof (skip_tests side (cell bd r f)) as H.
  destruct (own side (cell bd r f)); cbn [negb] in H;
    destruct (Ascii.eqb (cell bd r f) "."); try discriminate H; try reflexivity;
    destruct (side && negb (is_white (cell bd r f)));
    try discriminate H; try reflexivity;
    rewrite H; reflexivity.
Qed.

Lemma pseudo_row_grows bd side r fs :
  forall all, (length all <= length (pseudo_row bd side r fs all))%nat.
Proof.
  induction fs as [|f fs IH]; intros all; [simpl; lia|].
  rewrite pseudo_row_step. cbv zeta.
  destruct (own side (cell bd r f)); [|apply IH].
  destruct (_ >=? _).
  - rewrite length_app. lia.
  - etransitivity; [|apply IH]. rewrite length_app. lia.
Qed.

(** While the array [all] does not fill up, the pseudo-legal phase stores
    every move of every piece of the side. *)
Lemma pseudo_row_exact bd side r fs :
  forall all,
    Z.of_nat (length (pseudo_row bd side r fs all)) < MAX_MOVES ->
    pseudo_row bd side r fs all
    = all ++ flat_map
               (fun f => if own side (cell bd r f)
                         then piece_moves_unbounded bd r f else [])
               fs.
Proof.
  induction fs as [|f fs IH]; intros all Hlen.
  - simpl. now rewrite app_nil_r.
  - rewrite pseudo_row_step in Hlen |- *. cbv zeta in Hlen |- *.
    cbn [flat_map].
    destruct (own side (cell bd r f)); [|now apply IH].
    rewrite generate_piece_moves_truncates in Hlen |- *.
    set (unb := piece_moves_unbounded bd r f) in *.
    set (cap := Z.to_nat (MAX_MOVES - Z.of_nat (length all))) in *.
    assert (Z.of_nat (length (all ++ take cap unb)) < MAX_MOVES) as Hl.
    { destruct (_ >=? _); [exact Hlen|].
      pose proof (pseudo_row_grows bd side r fs (all ++ take cap unb)). lia. }
    assert (take cap unb = unb) as Ht.
    { apply take_ge. rewrite length_app, length_take in Hl.
      unfold cap. lia. }
    rewrite Ht in Hlen, Hl |- *.
    destruct (Z.geb_spec (Z.of_nat (length (all ++ unb))) MAX_MOVES) as [Hge|Hlt].
    + lia.
    + rewrite IH by exact Hlen. now rewrite <- app_assoc.
Qed.

Lemma fold_rows_exact {A : Type} (f : list A -> Z -> list A)
    (g : Z -> list A) (bound : Z) :
  (forall all r, (length all <= length (f all r))%nat) ->
  (forall all r, Z.of_nat (length (f all r)) < bound -> f all r = all ++ g r) ->
  forall rows all,
    Z.of_nat (length (fold_left f rows all)) < bound ->
    fold_left f rows all = all ++ flat_map g rows.
Proof.
  intros Hgrow Hexact.
  assert (forall rows all, (length all <= length (fold_left f rows all))%nat)
    as Hg.
  { induction rows as [|r rows IH]; intros all; [simpl; lia|].
    cbn [fold_left]. etransitivity; [apply Hgrow | apply IH]. }
  induction rows as [|r rows IH]; intros all Hlen.
  - simpl. now rewrite app_nil_r.
  - cbn [fold_left flat_map] in Hlen |- *.
    pose proof (Hg rows (f all r)).
    rewrite (IH _ Hlen), (Hexact all r) by lia.
    now rewrite <- app_assoc.
Qed.

Lemma pseudo_rows_exact bd side rows all :
  Z.of_nat
    (length (fold_left (fun all r => pseudo_row bd side r (seqZ 0 8) all)
                       rows all)) < MAX_MOVES ->
  fold_left (fun all r => pseudo_row bd side r (seqZ 0 8) all) rows all
  = all ++ flat_map
             (fun r => flat_map
                         (fun f => if own side (cell bd r f)
                                   then piece_moves_unbounded bd r f else [])
                         (seqZ 0 8))
             rows.
Proof.
  apply (fold_rows_exact
           (fun all r => pseudo_row bd side r (seqZ 0 8) all)
           (fun r => flat_map
                       (fun f => if own side (cell bd r f)
                                 then piece_moves_unbounded bd r f else [])
                       (seqZ 0 8))).
  - intros a r. apply pseudo_row_grows.
  - intros a r. apply pseudo_row_exact.
Qed.

Lemma pseudo_legal_rows bd side :
  pseudo_legal bd side
  = fold_left (fun all r => pseudo_row bd side r (seqZ 0 8) all) (seqZ 0 8) [].
Proof. reflexivity. Qed.

Lemma in_seqZ_8 x : In x (seqZ 0 8) <-> 0 <= x < 8.
Proof.
  change (seqZ 0 8) with [0; 1; 2; 3; 4; 5; 6; 7]. simpl. lia.
Qed.

Lemma in_pseudo_legal bd side m :
  Z.of_nat (length (pseudo_legal bd side)) < MAX_MOVES ->
  (In m (pseudo_legal bd side) <->
   own side (cell bd (r1 m) (f1 m)) = true
   /\ In m (piece_moves_unbounded bd (r1 m) (f1 m))).
Proof.
  intros Hlen. rewrite pseudo_legal_rows in Hlen |- *.
  rewrite (pseudo_rows_exact bd side (seqZ 0 8) [] Hlen). cbn [app].
  rewrite in_flat_map. split.
  - intros (r & _ & H). apply in_flat_map in H. destruct H as (f & _ & H).
    destruct (own side (cell bd r f)) eqn:Ho; [|destruct H].
    destruct (unbounded_sound bd r f m H) as (_ & <- & <- & _).
    now split.
  - intros [Ho H]. pose proof (own_in_bounds _ _ _ _ Ho) as Hb.
    apply in_bounds_iff in Hb.
    exists (r1 m). split; [apply in_seqZ_8; lia|].
    apply in_flat_map. exists (f1 m). split; [apply in_seqZ_8; lia|].
    now rewrite Ho.
Qed.

Lemma fold_filter_exact (bad : Move -> bool) (l : list Move) :
  forall acc, Z.of_nat (length acc + length l) <= MAX_MOVES ->
    fold_left (fun out m => if bad m then out else push MAX_MOVES out m) l acc
    = acc ++ List.filter (fun m => negb (bad m)) l.
Proof.
  induction l as [|x l IH]; intros acc Hlen; simpl in *.
  - now rewrite app_nil_r.
  - destruct (bad x); cbn [negb].
    + apply IH. lia.
    + unfold push. destruct (Z.ltb_spec (Z.of_nat (length acc)) MAX_MOVES).
      * rewrite IH by (rewrite length_app; simpl; lia).
        now rewrite <- app_assoc.
      * lia.
Qed.

Lemma legal_moves_iff bd side m :
  Z.of_nat (length (pseudo_legal bd side)) < MAX_MOVES ->
  (In m (generate_legal_moves bd side) <->
   own side (cell bd (r1 m) (f1 m)) = true
   /\ In m (piece_moves_unbounded bd (r1 m) (f1 m))
   /\ is_in_check (apply_move bd m) side = false).
Proof.
  intros Hlen. unfold generate_legal_moves.
  rewrite fold_filter_exact by (simpl; lia). cbn [app].
  rewrite filter_In, (in_pseudo_legal bd side m Hlen).
  rewrite leaves_in_check_is_in_check. split.
  - intros [[Ho Hin] Hc].
    destruct (unbounded_sound _ _ _ _ Hin) as (_ & _ & _ & Hp & _).
    rewrite (simulate_apply_move _ _ Hp) in Hc.
    repeat split; auto. now destruct (is_in_check _ _).
  - intros (Ho & Hin & Hc).
    destruct (unbounded_sound _ _ _ _ Hin) as (_ & _ & _ & Hp & _).
    rewrite (simulate_apply_move _ _ Hp), Hc. auto.
Qed.

(** The pseudo-legal phase stores only moves of pieces of the side. *)
Lemma pseudo_row_sound bd side r fs :
  forall all,
    Forall (fun m => own side (cell bd (r1 m) (f1 m)) = true
                     /\ In m (piece_moves_unbounded bd (r1 m) (f1 m))) all ->
    Forall (fun m => own side (cell bd (r1 m) (f1 m)) = true
                     /\ In m (piece_moves_unbounded bd (r1 m) (f1 m)))
           (pseudo_row bd side r fs all).
Proof.
  induction fs as [|f fs IH]; intros all H; [exact H|].
  rewrite pseudo_row_step. cbv zeta.
  destruct (own side (cell bd r f)) eqn:Ho; [|now apply IH].
  assert (Forall (fun m => own side (cell bd (r1 m) (f1 m)) = true
                           /\ In m (piece_moves_unbounded bd (r1 m) (f1 m)))
            (all ++ generate_piece_moves bd r f
                      (MAX_MOVES - Z.of_nat (length all)) side)) as H'.
  { apply Forall_app. split; [exact H|].
    apply Forall_forall. intros m Hm. apply list_elem_of_In in Hm.
    rewrite generate_piece_moves_truncates in Hm. apply in_take in Hm.
    destruct (unbounded_sound bd r f m Hm) as (_ & -> & -> & _). auto. }
  destruct (_ >=? _); [exact H' | now apply IH].
Qed.

Lemma pseudo_legal_sound bd side m :
  In m (pseudo_legal bd side) ->
  own side (cell bd (r1 m) (f1 m)) = true
  /\ In m (piece_moves_unbounded bd (r1 m) (f1 m)).
Proof.
  intros H.
  assert (Forall (fun m => own side (cell bd (r1 m) (f1 m)) = true
                           /\ In m (piece_moves_unbounded bd (r1 m) (f1 m)))
            (pseudo_legal bd side)) as HF.
  { unfold pseudo_legal. apply fold_left_inv; [|constructor].
    intros a x _ Ha. now apply pseudo_row_sound. }
  rewrite Forall_forall in HF. apply HF. now apply list_elem_of_In.
Qed.

Lemma legal_moves_sound bd side m :
  In m (generate_legal_moves bd side) ->
  own side (cell bd (r1 m) (f1 m)) = true
  /\ In m (piece_moves_unbounded bd (r1 m) (f1 m))
  /\ is_in_check (apply_move bd m) side = false.
Proof.
  intros H. apply legal_is_pseudo_legal in H. destruct H as [Hps Hsafe].
  apply pseudo_legal_sound in Hps. destruct Hps as [Ho Hin].
  destruct (unbounded_sound _ _ _ _ Hin) as (_ & _ & _ & Hp & _).
  rewrite leaves_in_check_is_in_check, (simulate_apply_move _ _ Hp) in Hsafe.
  auto.
Qed.

(** X11. Legal moves.  Every move [generate_legal_moves] returns is a move of
    a piece of the side to move, as the piece generator defines it, after
    which [is_in_check] finds that side's king safe.  Conversely, as long as
    the 256-entry array of pseudo-legal moves does not fill up, every such
    move is returned: none is missing. *)
Theorem legal_moves_characterised (bd : Board) (white_turn : bool) (m : Move) :
  (In m (generate_legal_moves bd white_turn) ->
   own white_turn (cell bd (r1 m) (f1 m)) = true
   /\ In m (piece_moves_unbounded bd (r1 m) (f1 m))
   /\ is_in_check (apply_move bd m) white_turn = false)
  /\ (Z.of_nat (length (pseudo_legal bd white_turn)) < MAX_MOVES ->
      own white_turn (cell bd (r1 m) (f1 m)) = true ->
      In m (piece_moves_unbounded bd (r1 m) (f1 m)) ->
      is_in_check (apply_move bd m) white_turn = false ->
      In m (generate_legal_moves bd white_turn)).
Proof.
  split; [apply legal_moves_sound|].
  intros Hlen Ho Hin Hc. apply (legal_moves_iff bd white_turn m Hlen). auto.
Qed.

Lemma legal_moves_characterised_witness :
  In (mkMove 6 4 4 4 NUL) (generate_legal_moves init_board true)
  /\ own true (cell init_board 7 6) = true.
Proof.
  split.
  - apply (proj2 (legal_moves_characterised init_board true
                    (mkMove 6 4 4 4 NUL))).
    + vm_compute. reflexivity.
    + reflexivity.
    + vm_compute. tauto.
    + vm_compute. reflexivity.
  - apply (proj1 (legal_moves_characterised init_board true
                    (mkMove 7 6 5 5 NUL))).
    vm_compute. tauto.
Defined.

(** ** Scores *)

(** X12. No score leaves the range [-1280000 .. 1280000] (64 kings' worth):
    neither the material sum of [evaluate_board], on any board, nor any value
    [minimax] returns, at any depth and with any window.  In particular the
    additions of the program never overflow an [int], and [minimax] never
    returns its initial [INT_MIN] or [INT_MAX]. *)
Theorem scores_in_range
    (depth : nat) (bd : Board) (alpha beta : Z) (maximizingPlayer : bool) :
  - SCORE_MAX <= evaluate_board bd <= SCORE_MAX
  /\ - SCORE_MAX <= minimax depth bd alpha beta maximizingPlayer <= SCORE_MAX
  /\ INT_MIN < - SCORE_MAX /\ SCORE_MAX < INT_MAX.
Proof.
  split; [apply evaluate_board_bounds|]. split; [apply minimax_bounds|].
  unfold INT_MIN, INT_MAX, SCORE_MAX. lia.
Qed.

(** X13. What [minimax] returns for an arbitrary window [alpha < beta] of
    [int]s: if the unpruned value lies strictly inside the window it is
    returned exactly; a value returned at or below [alpha] is an upper bound
    of the unpruned value, and a value returned at or above [beta] a lower
    bound of it. *)
Theorem minimax_window_guarantee
    (depth : nat) (bd : Board) (alpha beta : Z) (maximizingPlayer : bool) :
  INT_MIN <= alpha -> beta <= INT_MAX -> alpha < beta ->
  let v := minimax depth bd alpha beta maximizingPlayer in
  let t := full_minimax depth bd maximizingPlayer in
  (alpha < t < beta -> v = t)
  /\ (v <= alpha -> t <= v) /\ (beta <= v -> v <= t).
Proof.
  intros Ha Hb Hab v t.
  destruct (minimax_window depth bd alpha beta maximizingPlayer Ha Hb Hab)
    as (H1 & H2 & H3).
  fold v t in H1, H2, H3. clearbody v t. repeat split; try assumption; lia.
Qed.

Lemma minimax_window_guarantee_witness :
  minimax 1 init_board (-1) 1 true = full_minimax 1 init_board true.
Proof.
  apply (proj1 (minimax_window_guarantee 1 init_board (-1) 1 true
                  ltac:(unfold INT_MIN; lia) ltac:(unfold INT_MAX; lia)
                  ltac:(lia))).
  vm_compute. split; reflexivity.
Defined.

(** ** Material accounting *)

Lemma in_cells r f : In (r, f) cells <-> in_bounds r f = true.
Proof.
  rewrite in_bounds_iff. unfold cells. rewrite <- list_elem_of_In.
  rewrite list_elem_of_bind. split.
  - intros (r' & H & Hr). apply list_elem_of_bind in H.
    destruct H as (f' & H & Hf). apply list_elem_of_singleton in H.
    injection H as -> ->. apply elem_of_seqZ in Hr, Hf. lia.
  - intros H. exists r. split; [|apply elem_of_seqZ; lia].
    apply list_elem_of_bind. exists f.
    split; [apply list_elem_of_singleton; reflexivity | apply elem_of_seqZ; lia].
Qed.

Lemma cells_NoDup : NoDup cells.
Proof. apply (bool_decide_unpack _). vm_compute. reflexivity. Qed.

Lemma fold_add_shift {C : Type} (v : C -> Z) (l : list C) (a k : Z) :
  fold_left (fun s c => s + v c) l (a + k)
  = fold_left (fun s c => s + v c) l a + k.
Proof.
  revert a. induction l as [|c l IH]; intros a; [reflexivity|].
  cbn [fold_left]. replace (a + k + v c) with (a + v c + k) by lia. apply IH.
Qed.

Lemma fold_add_ext {C : Type} (v v' : C -> Z) (l : list C) (a : Z) :
  (forall c, In c l -> v' c = v c) ->
  fold_left (fun s c => s + v' c) l a = fold_left (fun s c => s + v c) l a.
Proof.
  revert a. induction l as [|c l IH]; intros a H; [reflexivity|].
  cbn [fold_left]. rewrite (H c) by now left. apply IH.
  intros c' Hc'. apply H. now right.
Qed.

(** Changing one term of a sum over a list without repetition. *)
Lemma fold_add_update {C : Type} (v v' : C -> Z) (c0 : C) (l : list C) :
  NoDup l -> In c0 l -> (forall c, c <> c0 -> v' c = v c) ->
  forall a,
    fold_left (fun s c => s + v' c) l a
    = fold_left (fun s c => s + v c) l a - v c0 + v' c0.
Proof.
  intros Hnd Hin Hv. induction l as [|c l IH]; [destruct Hin|].
  intros a. cbn [fold_left]. apply NoDup_cons in Hnd.
  destruct Hnd as [Hc Hnd]. rewrite list_elem_of_In in Hc.
  destruct Hin as [->|Hin].
  - rewrite (fold_add_ext v v' l).
    + rewrite !(fold_add_shift v l a). lia.
    + intros c Hcl. apply Hv. intros ->. contradiction.
  - rewrite (Hv c) by (intros ->; contradiction). now apply IH.
Qed.

Lemma evaluate_board_sum bd :
  evaluate_board bd
  = fold_left (fun s c => s + signed_value (cell bd (fst c) (snd c))) cells 0.
Proof.
  unfold evaluate_board. apply fold_left_ext_in. intros a c _.
  unfold signed_value. cbv zeta.
  destruct (Ascii.eqb _ "."); [lia|]. destruct (is_white _); lia.
Qed.

Lemma evaluate_board_set_cell bd r f p :
  wf_board bd -> in_bounds r f = true ->
  evaluate_board (set_cell bd r f p)
  = evaluate_board bd - signed_value (cell bd r f) + signed_value p.
Proof.
  intros Hwf Hb. rewrite !evaluate_board_sum.
  rewrite (fold_add_update
             (fun c => signed_value (cell bd (fst c) (snd c)))
             (fun c => signed_value (cell (set_cell bd r f p) (fst c) (snd c)))
             (r, f) cells cells_NoDup (proj2 (in_cells r f) Hb)).
  - cbn [fst snd]. rewrite (cell_set_cell _ _ _ _ _ _ Hwf), Hb, !Z.eqb_refl.
    reflexivity.
  - intros [r' f'] Hne. cbn [fst snd].
    rewrite (cell_set_cell _ _ _ _ _ _ Hwf), Hb. cbn [andb].
    destruct (Z.eqb_spec r r'); [|reflexivity].
    destruct (Z.eqb_spec f f'); [|reflexivity]. congruence.
Qed.

Lemma apply_move_placed bd m :
  apply_move bd m
  = set_cell (set_cell bd (r1 m) (f1 m) ".") (r2 m) (f2 m) (placed bd m).
Proof.
  unfold apply_move, placed. cbv zeta.
  destruct (Ascii.eqb (toupper (cell bd (r1 m) (f1 m))) "P"
            && ((r2 m =? 0) || (r2 m =? 7)));
    destruct (Ascii.eqb (promotion m) NUL); reflexivity.
Qed.

Lemma evaluate_apply_move bd m :
  wf_board bd ->
  in_bounds (r1 m) (f1 m) = true -> in_bounds (r2 m) (f2 m) = true ->
  r2 m <> r1 m \/ f2 m <> f1 m ->
  evaluate_board (apply_move bd m)
  = evaluate_board bd - signed_value (cell bd (r2 m) (f2 m))
    + (signed_value (placed bd m) - signed_value (cell bd (r1 m) (f1 m))).
Proof.
  intros Hwf H1 H2 Hne. rewrite apply_move_placed.
  rewrite evaluate_board_set_cell by (try apply set_cell_wf; assumption).
  rewrite evaluate_board_set_cell by assumption.
  rewrite (cell_set_cell _ _ _ _ _ _ Hwf), H1. cbn [andb].
  replace ((r1 m =? r2 m) && (f1 m =? f2 m)) with false.
  - change (signed_value ".") with 0. lia.
  - symmetry. apply andb_false_iff.
    destruct Hne; [left|right]; apply Z.eqb_neq; congruence.
Qed.

(** X14. Material accounting.  Playing a move between two different cells of
    the board changes the score of [evaluate_board] by exactly three terms:
    what stood on the destination is taken off, the mover is taken off, and
    the piece that arrives (the mover, or the piece a pawn becomes on the
    last rank) is added.  So a move that is no promotion changes the score by
    the value of the captured piece alone, and a quiet one not at all. *)
Theorem material_after_move (bd : Board) (m : Move) :
  wf_board bd ->
  in_bounds (r1 m) (f1 m) = true -> in_bounds (r2 m) (f2 m) = true ->
  r2 m <> r1 m \/ f2 m <> f1 m ->
  evaluate_board (apply_move bd m)
  = evaluate_board bd - signed_value (cell bd (r2 m) (f2 m))
    + (signed_value (placed bd m) - signed_value (cell bd (r1 m) (f1 m)))
  /\ (placed bd m = cell bd (r1 m) (f1 m) ->
      evaluate_board (apply_move bd m)
      = evaluate_board bd - signed_value (cell bd (r2 m) (f2 m))).
Proof.
  intros Hwf H1 H2 Hne.
  pose proof (evaluate_apply_move bd m Hwf H1 H2 Hne) as H.
  split; [exact H|]. intros Hp. rewrite H, Hp. lia.
Qed.

Lemma material_after_move_witness :
  evaluate_board (apply_move fools_mate (mkMove 4 7 5 5 NUL))
  = evaluate_board fools_mate
    - signed_value (cell fools_mate 5 5)
    + (signed_value (placed fools_mate (mkMove 4 7 5 5 NUL))
       - signed_value (cell fools_mate 4 7)).
Proof.
  assert (wf_board fools_mate) as Hwf
    by (split; [reflexivity | repeat constructor]).
  assert (r2 (mkMove 4 7 5 5 NUL) <> r1 (mkMove 4 7 5 5 NUL)
          \/ f2 (mkMove 4 7 5 5 NUL) <> f1 (mkMove 4 7 5 5 NUL)) as Hne
    by (left; discriminate).
  exact (proj1 (material_after_move fools_mate (mkMove 4 7 5 5 NUL) Hwf
                  eq_refl eq_refl Hne)).
Defined.

(** ** The game loop: what a turn does to the board *)

Lemma init_board_wf : wf_board init_board.
Proof. split; [reflexivity | repeat constructor]. Qed.

Lemma apply_move_wf bd m : wf_board bd -> wf_board (apply_move bd m).
Proof.
  intros H. rewrite apply_move_placed. now repeat apply set_cell_wf.
Qed.





Lemma king_of_char (side : bool) : (if side then "K" else "k") = king_of side.
Proof. reflexivity. Qed.


(** A move onto the cell of the other king means that king is in check. *)
Lemma capture_means_check bd side m :
  own side (cell bd (r1 m) (f1 m)) = true ->
  In m (piece_moves_unbounded bd (r1 m) (f1 m)) ->
  find_king bd (king_of (negb side)) = (r2 m, f2 m) ->
  is_in_check bd (negb side) = true.
Proof.
  intros Ho Hin Hk.
  destruct (unbounded_sound _ _ _ _ Hin) as (_ & _ & _ & _ & Hb & _).
  unfold is_in_check. cbv zeta. rewrite king_of_char, Hk. cbn [fst snd].
  apply in_bounds_iff in Hb.
  destruct (Z.eqb_spec (r2 m) (-1)) as [E|_]; [lia|].
  apply existsb_exists. exists (r1 m, f1 m). split.
  - apply in_cells. eapply own_in_bounds; eauto.
  - cbn [fst snd]. rewrite (own_not_dot _ _ Ho).
    assert (negb side && is_white (cell bd (r1 m) (f1 m)) = false) as ->.
    { destruct side; [reflexivity|]. cbn [negb andb].
      now apply is_black_not_white. }
    assert (negb (negb side) && is_black (cell bd (r1 m) (f1 m)) = false)
      as ->.
    { destruct side; [|reflexivity]. cbn [negb andb].
      now apply is_white_not_black. }
    rewrite generate_piece_moves_truncates, take_ge
      by (pose proof (unbounded_length bd (r1 m) (f1 m)); unfold MAX_MOVES; lia).
    unfold hits. apply existsb_exists. exists m.
    split; [exact Hin|]. now rewrite !Z.eqb_refl.
Qed.




(** ** Reading the input *)

Lemma fgets_line_split n stdin :
  stdin = fst (fgets_line n stdin) ++ snd (fgets_line n stdin).
Proof.
  revert stdin. induction n as [|n IH]; intros [|c rest]; try reflexivity.
  cbn [fgets_line]. destruct (Ascii.eqb c LF); [reflexivity|].
  specialize (IH rest). destruct (fgets_line n rest) as [l rest'].
  cbn [fst snd] in *. now rewrite IH at 1.
Qed.

Lemma fgets_line_first n c rest :
  exists l, fst (fgets_line (S n) (c :: rest)) = c :: l.
Proof.
  cbn [fgets_line]. destruct (Ascii.eqb c LF); [now exists []|].
  destruct (fgets_line n rest) as [l rest']. now exists l.
Qed.

(** With a buffer of two characters or more, a successful [fgets] stores the
    first character of the input and consumes what it stores. *)
Lemma fgets_reads size stdin buf rest :
  (2 <= size)%nat -> fgets size stdin = Some (buf, rest) ->
  stdin = buf ++ rest
  /\ (exists l, buf = hd NUL stdin :: l)
  /\ (length rest < length stdin)%nat.
Proof.
  intros Hs H. unfold fgets in H. destruct stdin as [|c s]; [discriminate|].
  injection H as H. destruct size as [|[|n]]; try lia.
  replace (S (S n) - 1)%nat with (S n) in H by lia.
  pose proof (fgets_line_split (S n) (c :: s)) as Hsplit.
  destruct (fgets_line_first n c s) as [l Hl].
  rewrite H in Hsplit, Hl. cbn [fst snd] in Hsplit, Hl. subst buf.
  split; [exact Hsplit|]. split; [now exists l|].
  apply (f_equal (@length ascii)) in Hsplit.
  rewrite length_app in Hsplit. cbn [length] in Hsplit |- *. lia.
Qed.

Lemma prompt_loop_spec fuel :
  forall stdin stdout, (length stdin < fuel)%nat ->
    match prompt_loop fuel stdin stdout with
    | Chosen c stdin' _ =>
        In c ["Q"; "R"; "B"; "N"] /\ (length stdin' < length stdin)%nat
    | Exit stdin' _ => stdin' = []
    | Unfinished => False
    end.
Proof.
  induction fuel as [|fuel IH]; intros stdin stdout Hf; [lia|].
  cbn [prompt_loop]. cbv zeta.
  destruct (fgets 10 stdin) as [[buf rest]|] eqn:Hg.
  2:{ unfold fgets in Hg. now destruct stdin. }
  destruct (fgets_reads 10 stdin buf rest ltac:(lia) Hg) as (_ & _ & Hlen).
  assert (forall out,
             match prompt_loop fuel rest out with
             | Chosen c stdin' _ =>
                 In c ["Q"; "R"; "B"; "N"]
                 /\ (length stdin' < length stdin)%nat
             | Exit stdin' _ => stdin' = []
             | Unfinished => False
             end) as Hrec.
  { intros out. specialize (IH rest out ltac:(lia)).
    destruct (prompt_loop fuel rest out); try exact IH.
    destruct IH. split; [assumption | lia]. }
  destruct (strlen buf =? 0)%nat; [apply Hrec|].
  set (c := toupper (nth 0 buf NUL)).
  destruct (Ascii.eqb_spec c "Q") as [->|_]; [simpl; tauto|].
  destruct (Ascii.eqb_spec c "R") as [->|_]; [simpl; tauto|].
  destruct (Ascii.eqb_spec c "B") as [->|_]; [simpl; tauto|].
  destruct (Ascii.eqb_spec c "N") as [->|_]; [simpl; tauto|].
  apply Hrec.
Qed.

(** More turns than there are characters change nothing. *)
Lemma prompt_loop_fuel fuel :
  forall fuel' stdin stdout,
    (length stdin < fuel)%nat -> (length stdin < fuel')%nat ->
    prompt_loop fuel stdin stdout = prompt_loop fuel' stdin stdout.
Proof.
  induction fuel as [|fuel IH]; intros [|fuel'] stdin stdout Hf Hf'; try lia.
  cbn [prompt_loop]. cbv zeta.
  destruct (fgets 10 stdin) as [[buf rest]|] eqn:Hg; [|reflexivity].
  destruct (fgets_reads 10 stdin buf rest ltac:(lia) Hg) as (_ & _ & Hlen).
  rewrite (IH fuel' rest) by lia. reflexivity.
Qed.

(** ** The player's turn and the computer's *)

(** The search for the player's move: a move that is found is a legal move
    with the squares typed, played with the player's promotion choice. *)
Lemma find_and_play_spec bd m stdin stdout legalMoves :
  In (promotion m) [NUL; "Q"; "R"; "B"; "N"] ->
  (forall lm, In lm legalMoves ->
     is_white (cell bd (r1 lm) (f1 lm)) = true) ->
  match find_and_play bd m legalMoves stdin stdout with
  | Found bd' stdin' _ =>
      (exists lm p,
          In lm legalMoves /\ In p [NUL; "Q"; "R"; "B"; "N"]
          /\ (r1 lm = r1 m /\ f1 lm = f1 m /\ r2 lm = r2 m /\ f2 lm = f2 m)
          /\ bd' = apply_move bd (with_promotion lm p))
      /\ (length stdin' <= length stdin)%nat
  | NotFound =>
      forall lm, In lm legalMoves ->
        ~ (r1 lm = r1 m /\ f1 lm = f1 m /\ r2 lm = r2 m /\ f2 lm = f2 m)
  | Exited stdin' _ =>
      (exists lm,
          In lm legalMoves
          /\ (r1 lm = r1 m /\ f1 lm = f1 m /\ r2 lm = r2 m /\ f2 lm = f2 m))
      /\ stdin' = []
  | Cut => False
  end.
Proof.
  intros Hp Hw. induction legalMoves as [|lm rest IH].
  - intros lm [].
  - cbn [find_and_play].
    destruct ((r1 lm =? r1 m) && (f1 lm =? f1 m)
              && (r2 lm =? r2 m) && (f2 lm =? f2 m)) eqn:Heq.
    + apply andb_prop in Heq. destruct Heq as [Heq H4].
      apply andb_prop in Heq. destruct Heq as [Heq H3].
      apply andb_prop in Heq. destruct Heq as [H1 H2].
      apply Z.eqb_eq in H1, H2, H3, H4. cbv zeta.
      destruct (Ascii.eqb (toupper (cell bd (r1 m) (f1 m))) "P"
                && ((r2 m =? 0) || (r2 m =? 7))
                && Ascii.eqb (promotion m) NUL).
      * pose proof (prompt_loop_spec (S (length stdin)) stdin stdout
                      ltac:(lia)) as Hpr.
        fold (prompt_promotion stdin stdout) in Hpr.
        destruct (prompt_promotion stdin stdout) as [c s o|s o|];
          [| |exact Hpr].
        2:{ split; [|exact Hpr]. exists lm. split; [now left | tauto]. }
        destruct Hpr as [Hc Hlen]. split; [|lia].
        exists lm, c. split; [now left|].
        split; [simpl in Hc |- *; tauto|]. split; [tauto|].
        rewrite <- H1, <- H2, (Hw lm (or_introl eq_refl)). reflexivity.
      * split; [|lia]. exists lm, (promotion m).
        split; [now left|]. split; [exact Hp|]. split; [tauto|]. reflexivity.
    + assert (forall lm', In lm' rest ->
                is_white (cell bd (r1 lm') (f1 lm')) = true) as Hw'
        by (intros lm' Hin; apply Hw; now right).
      specialize (IH Hw').
      destruct (find_and_play bd m rest stdin stdout) as [b s o| |s o|];
        try exact IH.
      * destruct IH as [(lm' & p & Hin & Hrest) Hlen].
        split; [|exact Hlen]. exists lm', p. split; [now right | exact Hrest].
      * intros lm' [<-|Hin]; [|now apply IH].
        intros (E1 & E2 & E3 & E4).
        rewrite E1, E2, E3, E4, !Z.eqb_refl in Heq. discriminate Heq.
      * destruct IH as [(lm' & Hin & Hrest) Hs].
        split; [|exact Hs]. exists lm'. split; [now right | exact Hrest].
Qed.






(** ** One turn of the loop *)












(** X19. The promotion prompt.  On an input of finitely many characters
    [prompt_promotion] ends: it returns 'Q', 'R', 'B' or 'N' after reading at
    least one character, or it exits the program when the input is
    exhausted; running its loop for more turns changes nothing. *)
Theorem prompt_promotion_result (stdin stdout : list ascii) :
  match prompt_promotion stdin stdout with
  | Chosen c stdin' _ =>
      In c ["Q"; "R"; "B"; "N"] /\ (length stdin' < length stdin)%nat
  | Exit stdin' _ => stdin' = []
  | Unfinished => False
  end
  /\ forall fuel, (length stdin < fuel)%nat ->
       prompt_loop fuel stdin stdout = prompt_promotion stdin stdout.
Proof.
  split.
  - apply prompt_loop_spec. lia.
  - intros fuel Hf. apply prompt_loop_fuel; lia.
Qed.

Lemma prompt_promotion_result_witness :
  prompt_loop 5 (list_ascii_of_string "n") []
  = prompt_promotion (list_ascii_of_string "n") [].
Proof.
  apply (proj2 (prompt_promotion_result (list_ascii_of_string "n") [])).
  simpl. lia.
Defined.


(** A legal move is determined by its squares: it carries no promotion. *)
Lemma legal_move_squares bd side lm m :
  In lm (generate_legal_moves bd side) ->
  r1 lm = r1 m /\ f1 lm = f1 m /\ r2 lm = r2 m /\ f2 lm = f2 m ->
  lm = with_promotion m NUL.
Proof.
  intros Hin (E1 & E2 & E3 & E4).
  destruct (legal_moves_sound _ _ _ Hin) as (_ & Hu & _).
  destruct (unbounded_sound _ _ _ _ Hu) as (_ & _ & _ & Hp & _).
  destruct lm; unfold with_promotion; cbn in *; congruence.
Qed.

Lemma player_move_spec bd m stdin stdout :
  In (promotion m) [NUL; "Q"; "R"; "B"; "N"] ->
  match find_and_play bd m (generate_legal_moves bd true) stdin stdout with
  | Found bd' stdin' _ =>
      In (with_promotion m NUL) (generate_legal_moves bd true)
      /\ (exists p, In p [NUL; "Q"; "R"; "B"; "N"]
                    /\ bd' = apply_move bd (with_promotion m p))
      /\ (length stdin' <= length stdin)%nat
  | NotFound => ~ In (with_promotion m NUL) (generate_legal_moves bd true)
  | Exited stdin' _ =>
      In (with_promotion m NUL) (generate_legal_moves bd true) /\ stdin' = []
  | Cut => False
  end.
Proof.
  intros Hp.
  assert (forall lm, In lm (generate_legal_moves bd true) ->
            is_white (cell bd (r1 lm) (f1 lm)) = true) as Hw
    by (intros lm Hin; apply legal_moves_sound in Hin; apply Hin).
  pose proof (find_and_play_spec bd m stdin stdout _ Hp Hw) as H.
  destruct (find_and_play bd m (generate_legal_moves bd true) stdin stdout)
    as [b s o| |s o|]; [| | |exact H].
  - destruct H as [(lm & p & Hin & Hpp & Hsq & ->) Hle].
    pose proof (legal_move_squares _ _ _ _ Hin Hsq) as ->.
    split; [exact Hin|]. split; [|exact Hle]. exists p. now split.
  - intros Hin. apply (H _ Hin). cbn. tauto.
  - destruct H as [(lm & Hin & Hsq) ->].
    pose proof (legal_move_squares _ _ _ _ Hin Hsq) as ->. now split.
Qed.

(** X20. The player's move.  A move typed by the player is played exactly
    when the move between its two squares is among White's legal moves, and
    then it is that move with a promotion choice among none, 'Q', 'R', 'B',
    'N' that is played; it is refused as illegal exactly when that move is not
    legal.  The program can also end here, at the promotion prompt, when the
    input is exhausted. *)
Theorem player_move_is_checked (bd : Board) (m : Move) (stdin stdout : list ascii) :
  In (promotion m) [NUL; "Q"; "R"; "B"; "N"] ->
  match find_and_play bd m (generate_legal_moves bd true) stdin stdout with
  | Found bd' stdin' _ =>
      In (with_promotion m NUL) (generate_legal_moves bd true)
      /\ (exists p, In p [NUL; "Q"; "R"; "B"; "N"]
                    /\ bd' = apply_move bd (with_promotion m p))
      /\ (length stdin' <= length stdin)%nat
  | NotFound => ~ In (with_promotion m NUL) (generate_legal_moves bd true)
  | Exited stdin' _ =>
      In (with_promotion m NUL) (generate_legal_moves bd true) /\ stdin' = []
  | Cut => False
  end.
Proof. apply player_move_spec. Qed.

Lemma player_move_is_checked_witness :
  ~ In (with_promotion (mkMove 6 4 3 4 "Q") NUL)
       (generate_legal_moves init_board true).
Proof.
  apply (player_move_is_checked init_board (mkMove 6 4 3 4 "Q") [] []).
  simpl. tauto.
Defined.

(** ** The printed board *)

Lemma cell_print (c : ascii) :
  (if Ascii.eqb c "." then list_ascii_of_string ". " else [c; " "])
  = [c; " "].
Proof. destruct (Ascii.eqb_spec c "."); [subst|]; reflexivity. Qed.

Lemma print_board_rows bd :
  print_board bd
  = (list_ascii_of_string "   a b c d e f g h" ++ [LF])
    ++ flat_map
         (fun r =>
            digit (8 - r) ++ list_ascii_of_string "  "
            ++ flat_map (fun f => [cell bd r f; " "]) (seqZ 0 8)
            ++ list_ascii_of_string " " ++ digit (8 - r) ++ [LF])
         (seqZ 0 8)
    ++ (list_ascii_of_string "   a b c d e f g h" ++ [LF]).
Proof.
  unfold print_board. cbv zeta. f_equal. f_equal.
  apply flat_map_ext. intros r. f_equal. f_equal. f_equal.
  apply flat_map_ext. intros f. apply cell_print.
Qed.

Lemma print_board_layout bd r f :
  in_bounds r f = true ->
  nth (Z.to_nat (22 + 22 * r + 2 * f)) (print_board bd) NUL = cell bd r f
  /\ nth (Z.to_nat (19 + 22 * r)) (print_board bd) NUL
     = char_of_int (code "0" + (8 - r))
  /\ length (print_board bd) = 214%nat.
Proof.
  intros H. apply in_bounds_iff in H. rewrite print_board_rows.
  generalize (cell bd). intros c.
  assert (r = 0 \/ r = 1 \/ r = 2 \/ r = 3 \/ r = 4 \/ r = 5 \/ r = 6 \/ r = 7)
    as Hr by lia.
  assert (f = 0 \/ f = 1 \/ f = 2 \/ f = 3 \/ f = 4 \/ f = 5 \/ f = 6 \/ f = 7)
    as Hf by lia.
  clear H.
  repeat (destruct Hr as [->|Hr]); try subst r;
    repeat (destruct Hf as [->|Hf]); try subst f;
    repeat split; vm_compute; reflexivity.
Qed.

(** X21. The printed board.  [print_board] always prints 214 characters, in
    10 lines: line [r + 1] starts with the rank number [8 - r], and the
    character at offset [22 + 22 r + 2 f] of the output is the content of
    the cell [(r, f)], for every cell of the board: what is shown is the
    board, whatever it holds. *)
Theorem print_board_shows_the_board (bd : Board) (r f : Z) :
  in_bounds r f = true ->
  nth (Z.to_nat (22 + 22 * r + 2 * f)) (print_board bd) NUL = cell bd r f
  /\ nth (Z.to_nat (19 + 22 * r)) (print_board bd) NUL
     = char_of_int (code "0" + (8 - r))
  /\ length (print_board bd) = 214%nat.
Proof. apply print_board_layout. Qed.

Lemma print_board_shows_the_board_witness :
  nth (Z.to_nat (22 + 22 * 7 + 2 * 4)) (print_board init_board) NUL
  = cell init_board 7 4.
Proof.
  apply (print_board_shows_the_board init_board 7 4). reflexivity.
Defined.

(** ** Playing a move, cell by cell *)

(** X22. What [apply_move] changes.  For a move between two cells of the
    board, the board after the move holds the arriving piece on the
    destination, nothing on the origin (if it is another cell), and on every
    other cell what it held before; and it is again an 8 by 8 board. *)
Theorem apply_move_changes_two_cells (bd : Board) (m : Move) (r f : Z) :
  wf_board bd ->
  in_bounds (r1 m) (f1 m) = true -> in_bounds (r2 m) (f2 m) = true ->
  wf_board (apply_move bd m)
  /\ cell (apply_move bd m) r f
     = if (r2 m =? r) && (f2 m =? f) then placed bd m
       else if (r1 m =? r) && (f1 m =? f) then "."
       else cell bd r f.
Proof.
  intros Hwf H1 H2. split; [now apply apply_move_wf|].
  rewrite (apply_move_cell _ _ _ _ Hwf), H1, H2. reflexivity.
Qed.

Lemma apply_move_changes_two_cells_witness :
  cell (apply_move init_board (mkMove 6 4 4 4 NUL)) 6 4 = "."
  /\ cell (apply_move init_board (mkMove 6 4 4 4 NUL)) 4 4 = "P"
  /\ cell (apply_move init_board (mkMove 6 4 4 4 NUL)) 0 0 = "r".
Proof.
  split; [|split].
  - exact (proj2 (apply_move_changes_two_cells init_board (mkMove 6 4 4 4 NUL)
                    6 4 init_board_wf eq_refl eq_refl)).
  - exact (proj2 (apply_move_changes_two_cells init_board (mkMove 6 4 4 4 NUL)
                    4 4 init_board_wf eq_refl eq_refl)).
  - exact (proj2 (apply_move_changes_two_cells init_board (mkMove 6 4 4 4 NUL)
                    0 0 init_board_wf eq_refl eq_refl)).
Defined.

(** ** Check, declaratively *)

(** The loop that keeps the last element passing a test. *)
Lemma fold_last {C : Type} (t : C -> bool) (l : list C) :
  forall a,
    existsb t l = true ->
    In (fold_left (fun k c => if t c then c else k) l a) l
    /\ t (fold_left (fun k c => if t c then c else k) l a) = true.
Proof.
  induction l as [|c l IH]; intros a H; [discriminate|].
  cbn [fold_left existsb] in *.
  destruct (existsb t l) eqn:Hl.
  - destruct (IH (if t c then c else a) eq_refl) as [H1 H2].
    split; [now right | exact H2].
  - rewrite orb_false_r in H. rewrite H.
    assert (fold_left (fun k c0 => if t c0 then c0 else k) l c = c) as ->.
    { apply (fold_left_inv (fun k => k = c)); [|reflexivity].
      intros k x Hx ->.
      destruct (t x) eqn:Hx'; [|reflexivity].
      assert (existsb t l = true) as E
        by (apply existsb_exists; eauto).
      congruence. }
    split; [now left | exact H].
Qed.

(** [find_king] answers -1 exactly when the king is on no cell. *)
Lemma find_king_missing bd k :
  fst (find_king bd k) = -1 <-> no_king bd k = true.
Proof.
  split.
  - intros H. destruct (no_king bd k) eqn:Hno; [reflexivity|exfalso].
    assert (existsb (fun c => Ascii.eqb (cell bd (fst c) (snd c)) k) cells
            = true) as E.
    { unfold no_king in Hno.
      destruct (existsb _ cells) eqn:E; [reflexivity|exfalso].
      assert (forallb (fun c => negb (Ascii.eqb (cell bd (fst c) (snd c)) k))
                      cells = true) as F; [|congruence].
      apply forallb_forall. intros x Hx.
      destruct (Ascii.eqb (cell bd (fst x) (snd x)) k) eqn:Ex; [|reflexivity].
      assert (existsb (fun c => Ascii.eqb (cell bd (fst c) (snd c)) k) cells
              = true) by (apply existsb_exists; eauto).
      congruence. }
    destruct (fold_last _ cells (-1, -1) E) as [Hin _].
    fold (find_king bd k) in Hin.
    destruct (find_king bd k) as [kr kf]. cbn [fst] in H.
    apply in_cells, in_bounds_iff in Hin. lia.
  - intros H. now rewrite (find_king_none _ _ H).
Qed.

Lemma piece_has_colour p :
  In (toupper p) ["P"; "N"; "K"; "R"; "B"; "Q"] ->
  is_white p = true \/ is_black p = true.
Proof.
  destruct p as [[] [] [] [] [] [] [] []]; vm_compute; intros H;
    first [ left; reflexivity | right; reflexivity
          | repeat (destruct H as [H|H]; try discriminate H); contradiction ].
Qed.

Lemma is_in_check_iff bd side :
  is_in_check bd side = true <->
  no_king bd (king_of side) = true
  \/ exists m,
      own (negb side) (cell bd (r1 m) (f1 m)) = true
      /\ In m (piece_moves_unbounded bd (r1 m) (f1 m))
      /\ find_king bd (king_of side) = (r2 m, f2 m).
Proof.
  split.
  - intros H. unfold is_in_check in H. cbv zeta in H.
    rewrite king_of_char in H.
    destruct (Z.eqb_spec (fst (find_king bd (king_of side))) (-1)) as [E|E].
    { left. now apply find_king_missing. }
    right. apply existsb_exists in H. destruct H as ([r f] & _ & H).
    cbn [fst snd] in H.
    destruct (Ascii.eqb (cell bd r f) "."); [discriminate|].
    destruct (side && is_white (cell bd r f)) eqn:H1; [discriminate|].
    destruct (negb side && is_black (cell bd r f)) eqn:H2; [discriminate|].
    rewrite generate_piece_moves_truncates, take_ge in H
      by (pose proof (unbounded_length bd r f); unfold MAX_MOVES; lia).
    unfold hits in H. apply existsb_exists in H.
    destruct H as (m & Hin & Hm). apply andb_prop in Hm.
    destruct Hm as [Hr Hf]. apply Z.eqb_eq in Hr, Hf.
    destruct (unbounded_sound _ _ _ _ Hin) as (Hk & <- & <- & _).
    exists m. split; [|split; [exact Hin|]].
    + destruct (piece_has_colour _ Hk) as [Hw|Hb]; destruct side;
        cbn [negb andb own] in *; congruence.
    + destruct (find_king bd (king_of side)). cbn [fst snd] in *. congruence.
  - intros [H|(m & Ho & Hin & Hk)].
    + unfold is_in_check. cbv zeta.
      rewrite king_of_char, (find_king_none _ _ H). reflexivity.
    + rewrite <- (negb_involutive side) at 1.
      apply (capture_means_check bd (negb side) m Ho Hin).
      now rewrite negb_involutive.
Qed.

(** X23. Check.  [is_in_check] answers 1 exactly when the side's king is on
    no cell of the board, or some piece of the other side has, among the
    moves the piece generator gives it, one that ends on the cell of the
    king ([find_king]: the last cell, in reading order, that holds it). *)
Theorem is_in_check_means_attacked (bd : Board) (white_turn : bool) :
  is_in_check bd white_turn = true <->
  no_king bd (king_of white_turn) = true
  \/ exists m,
      own (negb white_turn) (cell bd (r1 m) (f1 m)) = true
      /\ In m (piece_moves_unbounded bd (r1 m) (f1 m))
      /\ find_king bd (king_of white_turn) = (r2 m, f2 m).
Proof. apply is_in_check_iff. Qed.

(** X24. [moves_equal] answers 1 exactly for two equal moves: same origin,
    same destination, same promotion. *)
Theorem moves_equal_decides_equality (a b : Move) :
  moves_equal a b = true <-> a = b.
Proof.
  unfold moves_equal. split.
  - intros H. apply andb_prop in H. destruct H as [H H5].
    apply andb_prop in H. destruct H as [H H4].
    apply andb_prop in H. destruct H as [H H3].
    apply andb_prop in H. destruct H as [H1 H2].
    apply Z.eqb_eq in H1, H2, H3, H4. apply Ascii.eqb_eq in H5.
    destruct a, b. cbn in *. congruence.
  - intros ->. now rewrite !Z.eqb_refl, Ascii.eqb_refl.
Qed.
